(* ===================================================================== *)
(* Ren-C runtime core: quoting, symbol interning, GC sweep, paramlist   *)
(* construction and dispatchers, shallowly embedded in Rocq.            *)
(* ===================================================================== *)

From Stdlib Require Import ZArith Lia.
From Stdlib Require Sorting.Sorted.
From stdpp Require Import base list gmap strings.

Open Scope nat_scope.

(* ===================================================================== *)
(* Quoting (t-quoted.c: UNEVAL and DEQUOTE natives)                      *)
(* ===================================================================== *)

Module Quoting.

(** Kind bytes.  Only the kind bytes below 64 are real kinds; +64 per
    level encodes in-cell quoting for depths 1..3. *)
Definition REB_64 : nat := 64.
Definition REB_WORD : nat := 26.
Definition REB_INTEGER : nat := 4.
Definition REB_QUOTED : nat := 47.

(** A cell.  [Plain kb data] is a cell whose kind byte is [kb] (possibly
    with in-cell quote levels); [QuotedCell depth inner] is a cell with
    kind byte REB_QUOTED whose payload points at the singular array
    holding the unquoted cell, plus the quoting depth. *)
Inductive cell :=
| Plain (kind_byte : nat) (data : nat)
| QuotedCell (depth : nat) (inner : cell).

Definition KIND_BYTE (v : cell) : nat :=
  match v with
  | Plain kb _ => kb
  | QuotedCell _ _ => REB_QUOTED
  end.

(** Well-formed cells: kind bytes fit in a byte; deep quoting is only
    used for depth > 3 and wraps an unquoted plain cell. *)
Definition wf_cell (v : cell) : bool :=
  match v with
  | Plain kb _ => (kb <? 256) && negb (Nat.eqb (kb mod REB_64) REB_QUOTED)
  | QuotedCell d (Plain kb _) =>
      (3 <? d) && (kb <? REB_64) && negb (Nat.eqb kb REB_QUOTED)
  | QuotedCell _ (QuotedCell _ _) => false
  end.

(** Modelled from the spec: Quotify (the cell quoting routine, not in
    src/): "depth 1-3 is in-place (kind byte += 64 n); depth >= 4 allocates
    a singular wrapper"; quoting a REB_QUOTED cell bumps its depth. *)
Definition Quotify (v : cell) (depth : nat) : cell :=
  match v with
  | QuotedCell d inner => QuotedCell (d + depth) inner
  | Plain kb data =>
      let kind := kb mod REB_64 in
      let total := depth + kb / REB_64 in
      if total <=? 3 then Plain (kind + REB_64 * total) data
      else QuotedCell total (Plain kind data)
  end.

(** Modelled from the spec: Unquotify (not in src/), the inverse of
    Quotify: removes [unquotes] levels, collapsing the singular wrapper
    back into the cell once the depth drops to 3 or less. *)
Definition Unquotify (v : cell) (unquotes : nat) : cell :=
  if Nat.eqb unquotes 0 then v else
  match v with
  | Plain kb data => Plain (kb - REB_64 * unquotes) data
  | QuotedCell d inner =>
      let d' := d - unquotes in
      if 3 <? d' then QuotedCell d' inner
      else match inner with
           | Plain kb data => Plain (kb + REB_64 * d') data
           | QuotedCell _ _ => inner
           end
  end.

(** Modelled from the spec: VAL_NUM_QUOTES (not in src/), "depth is
    observable as a small integer". *)
Definition VAL_NUM_QUOTES (v : cell) : nat :=
  match v with
  | Plain kb _ => kb / REB_64
  | QuotedCell d _ => d
  end.

(** Native results: a value or a failure. *)
Inductive native_result :=
| NOut (v : cell)
| NFail_Invalid.

(** VAL_INT32 is not among the sources in src/; it is modelled as the
    conversion of an INTEGER!'s 64-bit payload to int32_t (two's
    complement wrap-around). *)
Definition VAL_INT32 (i : Z) : Z := ((i + 2^31) mod 2^32 - 2^31)%Z.

(** REBNATIVE(uneval): [count] is the /depth refinement's argument, the
    INTEGER!'s payload; [depth] is a REBINT. *)
Definition uneval (optional : cell) (count : option Z) : native_result :=
  let depth := match count with Some c => VAL_INT32 c | None => 1%Z end in
  if (depth <? 0)%Z then NFail_Invalid
  else NOut (Quotify optional (Z.to_nat depth)).

(** REBNATIVE(dequote): removes all levels of quoting. *)
Definition dequote (optional : cell) : native_result :=
  NOut (Unquotify optional (VAL_NUM_QUOTES optional)).

(** PD_Quoted: before the path dispatch is redone, the picked-from cell
    loses its quoting.  A REB_QUOTED cell gives the cell it wraps; an
    in-cell quoted one keeps its payload with its kind byte taken modulo
    REB_64.  (A plain cell never has the kind byte REB_QUOTED, see
    wf_cell; it is left as it is.) *)
Definition PD_Quoted (out : cell) : cell :=
  if Nat.eqb (KIND_BYTE out) REB_QUOTED then
    match out with
    | QuotedCell _ inner => inner
    | Plain _ _ => out
    end
  else
    match out with
    | Plain kb data => Plain (kb mod REB_64) data
    | QuotedCell _ _ => out
    end.

End Quoting.

(* ===================================================================== *)
(* Symbol interning (c-word.c)                                           *)
(* ===================================================================== *)

Module Interning.

(** static REBCNT const Primes[]: hash table sizes, terminated by 0. *)
Definition Primes : list N :=
  [7; 13; 31; 61; 127; 251; 509; 1021; 2039; 4093; 8191; 16381; 32749;
   65521; 131071; 262139; 524287; 1048573; 2097143; 4194301; 8388593;
   16777213; 33554393; 67108859; 134217689; 268435399; 536870909;
   1073741789; 2147483647; 4294967291; 0]%N.

(** The loop of Get_Hash_Prime: skip the primes smaller than [size],
    stop at the terminating 0. *)
Fixpoint Get_Hash_Prime_From (ps : list N) (size : N) : N :=
  match ps with
  | [] => 0%N
  | p :: ps' =>
      if (p =? 0)%N then 0%N
      else if (p <? size)%N then Get_Hash_Prime_From ps' size else p
  end.

(** REBINT and REBCNT are 32 bits wide: the conversion of a table entry
    (a REBCNT) to a REBINT, and of a REBINT to a REBCNT. *)
Definition to_REBINT (n : N) : Z :=
  let z := (Z.of_N n mod 2^32)%Z in
  if (z <? 2^31)%Z then z else (z - 2^32)%Z.
Definition to_REBCNT (z : Z) : N := Z.to_N (z mod 2^32).

(** Get_Hash_Prime returns a REBINT. *)
Definition Get_Hash_Prime (size : N) : Z := to_REBINT (Get_Hash_Prime_From Primes size).

(** An interned string series: its UTF-8 bytes, the STRING_INFO_CANON
    flag, LINK(s).synonym (a node identity) and the SYM_XXX number kept in
    the second uint16 of the header (0 when none).  The bind index kept in
    MISC() of canons is not modelled. *)
Record REBSTR := mk_REBSTR {
  str_utf8 : list Byte.byte;
  str_canon : bool;
  str_synonym : nat;
  str_symbol : nat
}.

Definition set_synonym (s : REBSTR) (syn : nat) : REBSTR :=
  mk_REBSTR (str_utf8 s) (str_canon s) syn (str_symbol s).
Definition set_canon (s : REBSTR) : REBSTR :=
  mk_REBSTR (str_utf8 s) true (str_synonym s) (str_symbol s).
Definition set_symbol (s : REBSTR) (sym : nat) : REBSTR :=
  mk_REBSTR (str_utf8 s) (str_canon s) (str_synonym s) sym.

(** A slot of PG_Canons_By_Hash: NULL, DELETED_CANON or a canon. *)
Inductive canon_slot :=
| Vacant
| DELETED_CANON
| Canon (s : nat).

#[global] Instance canon_slot_eq_dec : EqDecision canon_slot.
Proof. solve_decision. Defined.

#[global] Instance byte_eq_dec : EqDecision Byte.byte := Byte.byte_eq_dec.

(** The interner's globals, plus the pool of live string nodes keyed by
    node identity and the next fresh identity. *)
Record interner := mk_interner {
  PG_Canons_By_Hash : list canon_slot;
  PG_Num_Canon_Slots_In_Use : nat;
  PG_Num_Canon_Deleteds : nat;
  strings : gmap nat REBSTR;
  next_node : nat
}.

(** Outcome of an interner routine: a result, fail (Error_Size_Limit),
    or [Stuck] when the C code would not return (a probe loop that never
    meets its exit, or a read through a dangling node). *)
Inductive outcome (A : Type) :=
| Ok (a : A)
| Fail_Size_Limit (size : N)
| Stuck.
Arguments Ok {A} a.
Arguments Fail_Size_Limit {A} size.
Arguments Stuck {A}.

(** slot += skip; if (slot >= num_slots) slot -= num_slots; *)
Definition next_slot (num_slots skip slot : nat) : nat :=
  let s := slot + skip in
  if num_slots <=? s then s - num_slots else s.

(** Slot visited after [k] probe steps from [slot]. *)
Fixpoint probe_pos (num_slots skip slot k : nat) : nat :=
  match k with
  | 0 => slot
  | S k' => next_slot num_slots skip (probe_pos num_slots skip slot k')
  end.

(** Number of tombstones and of canons in a table. *)
Fixpoint count_deleted (tbl : list canon_slot) : nat :=
  match tbl with
  | [] => 0
  | DELETED_CANON :: rest => S (count_deleted rest)
  | _ :: rest => count_deleted rest
  end.

Fixpoint table_canons (tbl : list canon_slot) : list nat :=
  match tbl with
  | [] => []
  | Canon c :: rest => c :: table_canons rest
  | _ :: rest => table_canons rest
  end.

(** The interner's globals right after Startup_Interning, in a release
    build ([ndebug = true], Get_Hash_Prime(WORD_TABLE_SIZE * 4)) or in a
    debug build (one slot, to exercise rehashing). *)
Definition WORD_TABLE_SIZE : N := 1024.

Definition Startup_Interning (ndebug : bool) : interner :=
  let n := if ndebug then N.to_nat (to_REBCNT (Get_Hash_Prime (WORD_TABLE_SIZE * 4))) else 1 in
  mk_interner (repeat Vacant n) 0 0 ∅ 0.

Section Interner.

(** The string layer, outside src/: case folding (two spellings are
    case-insensitively equal when their folds are equal), the hash of a
    folded spelling, and First_Hash_Candidate_Slot, which gives the first
    slot and the skip for a hash and a table size. *)
Variable fold : list Byte.byte -> list Byte.byte.
Variable hash_folded : list Byte.byte -> nat.
Variable First_Hash_Candidate_Slot : nat -> nat -> nat * nat.

(** Modelled from the spec: Hash_UTF8 hashes the case-folded bytes. *)
Definition Hash_UTF8 (utf8 : list Byte.byte) : nat := hash_folded (fold utf8).

Definition Hash_String (s : REBSTR) : nat := Hash_UTF8 (str_utf8 s).

(** Modelled from the spec: Compare_UTF8 is 0 on a byte-for-byte match,
    positive when the spellings differ only by case, negative when they
    are not case-insensitively equal. *)
Definition Compare_UTF8 (s1 s2 : list Byte.byte) : Z :=
  if decide (s1 = s2) then 0%Z
  else if decide (fold s1 = fold s2) then 1%Z else (-1)%Z.

(** Modelled from the spec: STR_CANON walks LINK().synonym until it meets
    the member flagged canon ("canon(sym) returns the canonical member of
    its case-insensitive class"). *)
Fixpoint canon_walk (fuel : nat) (pool : gmap nat REBSTR) (s : nat) : option nat :=
  match fuel with
  | 0 => None
  | S f =>
      match pool !! s with
      | None => None
      | Some r => if str_canon r then Some s else canon_walk f pool (str_synonym r)
      end
  end.

Definition STR_CANON (st : interner) (s : nat) : option nat :=
  canon_walk (next_node st) (strings st) s.

Definition STR_SYMBOL (st : interner) (s : nat) : option nat :=
  str_symbol <$> strings st !! s.

(** Expand_Word_Table: the probe for a free slot of the new table. *)
Fixpoint find_vacant (fuel num_slots skip slot : nat) (tbl : list canon_slot)
    : option nat :=
  match fuel with
  | 0 => None
  | S f =>
      match tbl !! slot with
      | None => None
      | Some Vacant => Some slot
      | Some _ => find_vacant f num_slots skip (next_slot num_slots skip slot) tbl
      end
  end.

(** Expand_Word_Table: the loop over the old slots, with the two
    counters it decrements. *)
Fixpoint rehash (pool : gmap nat REBSTR) (num_slots : nat)
    (old : list canon_slot) (tbl : list canon_slot) (in_use deleteds : nat)
    : option (list canon_slot * nat * nat) :=
  match old with
  | [] => Some (tbl, in_use, deleteds)
  | Vacant :: rest => rehash pool num_slots rest tbl in_use deleteds
  | DELETED_CANON :: rest =>
      rehash pool num_slots rest tbl (in_use - 1) (deleteds - 1)
  | Canon c :: rest =>
      match pool !! c with
      | None => None
      | Some r =>
          let '(slot, skip) := First_Hash_Candidate_Slot (Hash_String r) num_slots in
          match find_vacant num_slots num_slots skip slot tbl with
          | None => None
          | Some i =>
              rehash pool num_slots rest (<[i := Canon c]> tbl) in_use deleteds
          end
      end
  end.

(** Expand_Word_Table.  [old_num_slots] is always a size from Primes (or
    the initial size), so [old_num_slots + 1] does not wrap. *)
Definition Expand_Word_Table (st : interner) : outcome interner :=
  let old_num_slots := length (PG_Canons_By_Hash st) in
  let num_slots := to_REBCNT (Get_Hash_Prime (N.of_nat old_num_slots + 1)) in
  if (num_slots =? 0)%N then Fail_Size_Limit (N.of_nat old_num_slots + 1)
  else
    let n := N.to_nat num_slots in
    match rehash (strings st) n (PG_Canons_By_Hash st) (repeat Vacant n)
            (PG_Num_Canon_Slots_In_Use st) (PG_Num_Canon_Deleteds st) with
    | None => Stuck
    | Some (tbl, in_use, deleteds) =>
        Ok (mk_interner tbl in_use deleteds (strings st) (next_node st))
    end.

(** How the probe loop of Intern_UTF8_Managed ends: a case-sensitive
    match, a canon that is an alternate casing, or a vacant slot (with
    the last tombstone seen on the way). *)
Inductive probe_exit :=
| Probe_Match (canon : nat)
| Probe_Synonym (canon : nat)
| Probe_Vacant (slot : nat) (deleted_slot : option nat).

Fixpoint probe (fuel num_slots skip slot : nat) (deleted_slot : option nat)
    (tbl : list canon_slot) (pool : gmap nat REBSTR) (utf8 : list Byte.byte)
    : option probe_exit :=
  match fuel with
  | 0 => None
  | S f =>
      match tbl !! slot with
      | None => None
      | Some Vacant => Some (Probe_Vacant slot deleted_slot)
      | Some DELETED_CANON =>
          probe f num_slots skip (next_slot num_slots skip slot) (Some slot)
            tbl pool utf8
      | Some (Canon c) =>
          match pool !! c with
          | None => None
          | Some r =>
              let cmp := Compare_UTF8 (str_utf8 r) utf8 in
              if (cmp =? 0)%Z then Some (Probe_Match c)
              else if (cmp <? 0)%Z then
                probe f num_slots skip (next_slot num_slots skip slot)
                  deleted_slot tbl pool utf8
              else Some (Probe_Synonym c)
          end
      end
  end.

(** The walk of the canon's synonym ring: [Some (Some s)] for an exact
    spelling match, [Some None] once the walk is back at the canon. *)
Fixpoint walk_synonyms (fuel : nat) (pool : gmap nat REBSTR) (canon synonym : nat)
    (utf8 : list Byte.byte) : option (option nat) :=
  match fuel with
  | 0 => None
  | S f =>
      if Nat.eqb synonym canon then Some None
      else match pool !! synonym with
           | None => None
           | Some r =>
               if (Compare_UTF8 (str_utf8 r) utf8 =? 0)%Z then Some (Some synonym)
               else walk_synonyms f pool canon (str_synonym r) utf8
           end
  end.

(** The new series as a canon at the tombstone or the vacant slot. *)
Definition new_canon (st : interner) (slot : nat) (deleted_slot : option nat)
    (utf8 : list Byte.byte) : interner :=
  let id := next_node st in
  let pool := <[id := mk_REBSTR utf8 true id 0]> (strings st) in
  match deleted_slot with
  | Some d =>
      mk_interner (<[d := Canon id]> (PG_Canons_By_Hash st))
        (PG_Num_Canon_Slots_In_Use st) (PG_Num_Canon_Deleteds st - 1)
        pool (S id)
  | None =>
      mk_interner (<[slot := Canon id]> (PG_Canons_By_Hash st))
        (S (PG_Num_Canon_Slots_In_Use st)) (PG_Num_Canon_Deleteds st)
        pool (S id)
  end.

(** The new series as a synonym linked in right after the canon, with a
    copy of the canon's SYM_XXX number. *)
Definition new_synonym (st : interner) (canon : nat) (rc : REBSTR)
    (utf8 : list Byte.byte) : interner :=
  let id := next_node st in
  let pool := <[id := mk_REBSTR utf8 false (str_synonym rc) (str_symbol rc)]>
                (strings st) in
  mk_interner (PG_Canons_By_Hash st) (PG_Num_Canon_Slots_In_Use st)
    (PG_Num_Canon_Deleteds st) (<[canon := set_synonym rc id]> pool) (S id).

(** Intern_UTF8_Managed: the new state and the interned node. *)
Definition Intern_UTF8_Managed (st0 : interner) (utf8 : list Byte.byte)
    : outcome (interner * nat) :=
  let grown :=
    if Nat.div (length (PG_Canons_By_Hash st0)) 2 <? PG_Num_Canon_Slots_In_Use st0
    then Expand_Word_Table st0 else Ok st0 in
  match grown with
  | Fail_Size_Limit n => Fail_Size_Limit n
  | Stuck => Stuck
  | Ok st =>
      let num_slots := length (PG_Canons_By_Hash st) in
      let '(slot, skip) := First_Hash_Candidate_Slot (Hash_UTF8 utf8) num_slots in
      match probe num_slots num_slots skip slot None (PG_Canons_By_Hash st)
              (strings st) utf8 with
      | None => Stuck
      | Some (Probe_Match c) => Ok (st, c)
      | Some (Probe_Synonym c) =>
          match strings st !! c with
          | None => Stuck
          | Some rc =>
              match walk_synonyms (next_node st) (strings st) c (str_synonym rc) utf8 with
              | None => Stuck
              | Some (Some s) => Ok (st, s)
              | Some None => Ok (new_synonym st c rc utf8, next_node st)
              end
          end
      | Some (Probe_Vacant slot' deleted_slot) =>
          Ok (new_canon st slot' deleted_slot utf8, next_node st)
      end
  end.

(** GC_Kill_Interning: [temp] walks the ring from the synonym until
    LINK(temp).synonym is the dying node. *)
Fixpoint find_link_to (fuel : nat) (pool : gmap nat REBSTR) (intern temp : nat)
    : option nat :=
  match fuel with
  | 0 => None
  | S f =>
      match pool !! temp with
      | None => None
      | Some r =>
          if Nat.eqb (str_synonym r) intern then Some temp
          else find_link_to f pool intern (str_synonym r)
      end
  end.

(** while (canons_by_hash[slot] != intern) slot += skip ... *)
Fixpoint find_canon_slot (fuel num_slots skip slot : nat) (tbl : list canon_slot)
    (intern : nat) : option nat :=
  match fuel with
  | 0 => None
  | S f =>
      match tbl !! slot with
      | None => None
      | Some v =>
          if decide (v = Canon intern) then Some slot
          else find_canon_slot f num_slots skip (next_slot num_slots skip slot) tbl intern
      end
  end.

(** The ripple loop: [previous_slot] stays where it is while [slot]
    moves along the chain, each step copying the next slot into
    [previous_slot]; the loop stops once the slot it tests is NULL. *)
Fixpoint ripple (fuel num_slots skip previous_slot slot : nat)
    (tbl : list canon_slot) : option (list canon_slot) :=
  match fuel with
  | 0 => None
  | S f =>
      match tbl !! slot with
      | None => None
      | Some Vacant => Some tbl
      | Some _ =>
          let slot' := next_slot num_slots skip slot in
          match tbl !! slot' with
          | None => None
          | Some v =>
              ripple f num_slots skip previous_slot slot' (<[previous_slot := v]> tbl)
          end
      end
  end.

(** GC_Kill_Interning.  The series node itself is freed by the caller
    (see [GC_Kill_String]). *)
Definition GC_Kill_Interning (st : interner) (intern : nat) : outcome interner :=
  match strings st !! intern with
  | None => Stuck
  | Some ri =>
      let synonym := str_synonym ri in
      match find_link_to (next_node st) (strings st) intern synonym with
      | None => Stuck
      | Some temp =>
          match strings st !! temp with
          | None => Stuck
          | Some rt =>
          let pool := <[temp := set_synonym rt synonym]> (strings st) in
          if negb (str_canon ri) then
            Ok (mk_interner (PG_Canons_By_Hash st) (PG_Num_Canon_Slots_In_Use st)
                  (PG_Num_Canon_Deleteds st) pool (next_node st))
          else
            let tbl := PG_Canons_By_Hash st in
            let num_slots := length tbl in
            let '(slot0, skip) := First_Hash_Candidate_Slot (Hash_String ri) num_slots in
            match find_canon_slot num_slots num_slots skip slot0 tbl intern with
            | None => Stuck
            | Some slot =>
                if negb (Nat.eqb synonym intern) then
                  match pool !! synonym with
                  | None => Stuck
                  | Some rs =>
                      Ok (mk_interner (<[slot := Canon synonym]> tbl)
                            (PG_Num_Canon_Slots_In_Use st) (PG_Num_Canon_Deleteds st)
                            (<[synonym := set_canon rs]> pool) (next_node st))
                  end
                else
                  match ripple (S num_slots) num_slots skip slot slot tbl with
                  | None => Stuck
                  | Some tbl' =>
                      Ok (mk_interner (<[slot := DELETED_CANON]> tbl')
                            (PG_Num_Canon_Slots_In_Use st) (S (PG_Num_Canon_Deleteds st))
                            pool (next_node st))
                  end
            end
          end
      end
  end.

(** GC_Kill_Series on an interned string: unlink, then free the node. *)
Definition GC_Kill_String (st : interner) (intern : nat) : outcome interner :=
  match GC_Kill_Interning st intern with
  | Ok st' =>
      Ok (mk_interner (PG_Canons_By_Hash st') (PG_Num_Canon_Slots_In_Use st')
            (PG_Num_Canon_Deleteds st') (delete intern (strings st')) (next_node st'))
  | Fail_Size_Limit n => Fail_Size_Limit n
  | Stuck => Stuck
  end.

(** Startup_Symbols: the do/while loop tagging every ring member. *)
Fixpoint tag_ring (fuel : nat) (pool : gmap nat REBSTR) (canon name sym : nat)
    : option (gmap nat REBSTR) :=
  match fuel with
  | 0 => None
  | S f =>
      match pool !! name with
      | None => None
      | Some r =>
          let pool' := <[name := set_symbol r sym]> pool in
          if Nat.eqb (str_synonym r) canon then Some pool'
          else tag_ring f pool' canon (str_synonym r) sym
      end
  end.

(** Startup_Symbols: the [words] of %words.r, given by their spellings,
    numbered from 1; VAL_STORED_CANON is the canon of the spelling.
    Returns the state and PG_Symbol_Canons (without its slot 0). *)
Fixpoint Startup_Symbols_From (st : interner) (words : list nat) (sym : nat)
    : outcome (interner * list nat) :=
  match words with
  | [] => Ok (st, [])
  | w :: rest =>
      match STR_CANON st w with
      | None => Stuck
      | Some canon =>
          match tag_ring (next_node st) (strings st) canon canon sym with
          | None => Stuck
          | Some pool =>
              let st' := mk_interner (PG_Canons_By_Hash st) (PG_Num_Canon_Slots_In_Use st)
                           (PG_Num_Canon_Deleteds st) pool (next_node st) in
              match Startup_Symbols_From st' rest (S sym) with
              | Ok (st'', canons) => Ok (st'', canon :: canons)
              | Fail_Size_Limit n => Fail_Size_Limit n
              | Stuck => Stuck
              end
          end
      end
  end.

Definition Startup_Symbols (st : interner) (words : list nat)
    : outcome (interner * list nat) :=
  Startup_Symbols_From st words 1.

(** The interner's life after Startup_Interning: interning, the GC
    killing unreferenced strings, and Startup_Symbols. *)
Inductive interner_op :=
| Op_Intern (utf8 : list Byte.byte)
| Op_Kill (s : nat)
| Op_Startup_Symbols (words : list nat).

Definition step (st : interner) (o : interner_op) : outcome interner :=
  match o with
  | Op_Intern utf8 =>
      match Intern_UTF8_Managed st utf8 with
      | Ok (st', _) => Ok st'
      | Fail_Size_Limit n => Fail_Size_Limit n
      | Stuck => Stuck
      end
  | Op_Kill s => GC_Kill_String st s
  | Op_Startup_Symbols words =>
      match Startup_Symbols st words with
      | Ok (st', _) => Ok st'
      | Fail_Size_Limit n => Fail_Size_Limit n
      | Stuck => Stuck
      end
  end.

Fixpoint run (st : interner) (ops : list interner_op) : outcome interner :=
  match ops with
  | [] => Ok st
  | o :: rest =>
      match step st o with
      | Ok st' => run st' rest
      | Fail_Size_Limit n => Fail_Size_Limit n
      | Stuck => Stuck
      end
  end.

End Interner.

(** A concrete string layer for examples: ASCII case folding, the sum of
    the folded bytes as hash, and plain linear probing from
    [hash mod num_slots]. *)
Definition ascii_lower (b : Byte.byte) : Byte.byte :=
  let n := Byte.to_nat b in
  if (65 <=? n) && (n <=? 90) then
    match Byte.of_nat (n + 32) with Some b' => b' | None => b end
  else b.

Definition fold_ascii (s : list Byte.byte) : list Byte.byte := map ascii_lower s.

Definition hash_sum (s : list Byte.byte) : nat := foldr (fun b acc => Byte.to_nat b + acc) 0 s.

Definition linear_first_slot (hash num_slots : nat) : nat * nat :=
  (hash mod num_slots, 1).

(** The slot loop of Shutdown_Interning: the first canon of the table
    that is neither NULL nor DELETED_CANON. *)
Fixpoint first_live_canon (tbl : list canon_slot) : option nat :=
  match tbl with
  | [] => None
  | Canon c :: _ => Some c
  | _ :: rest => first_live_canon rest
  end.

(** Shutdown_Interning: in a debug build ([ndebug = false]), a nonzero
    PG_Num_Canon_Slots_In_Use - PG_Num_Canon_Deleteds (an unsigned
    difference, so nonzero exactly when the counts differ) reports leaked
    canons and panics on the first live canon of the table.  [Some c] is
    panic (c); [None] is freeing the table and returning. *)
Definition Shutdown_Interning (ndebug : bool) (st : interner) : option nat :=
  if negb ndebug && negb (Nat.eqb (PG_Num_Canon_Slots_In_Use st) (PG_Num_Canon_Deleteds st))
  then first_live_canon (PG_Canons_By_Hash st)
  else None.


End Interning.

(* ===================================================================== *)
(* The interner's representation invariant                               *)
(* ===================================================================== *)

Module InterningInv.
Import Interning.

Section Inv.

Variable fold : list Byte.byte -> list Byte.byte.
Variable hash_folded : list Byte.byte -> nat.
Variable First_Hash_Candidate_Slot : nat -> nat -> nat * nat.

Definition dummy_str : REBSTR := mk_REBSTR [] false 0 0.

(** The series of a node identity (a dummy for a freed identity). *)
Definition get (pool : gmap nat REBSTR) (x : nat) : REBSTR :=
  default dummy_str (pool !! x).

(** Member [q] of a synonym ring listed from its canon; past the end the
    ring closes on the canon. *)
Definition node (r : list nat) (q : nat) : nat := default (hd 0 r) (r !! q).

(** A synonym ring [c :: ms]: [c] is the only member flagged canon, each
    member's LINK().synonym is the next member, the spellings are
    case-insensitively equal, pairwise distinct and share one SYM_XXX. *)
Definition ring_ok (pool : gmap nat REBSTR) (r : list nat) : Prop :=
  match r with
  | [] => False
  | c :: ms =>
      str_canon (get pool c) = true /\
      Forall (fun m => str_canon (get pool m) = false) ms /\
      (forall i x, r !! i = Some x -> str_synonym (get pool x) = node r (S i)) /\
      Forall (fun x => fold (str_utf8 (get pool x)) = fold (str_utf8 (get pool c))) r /\
      Forall (fun x => str_symbol (get pool x) = str_symbol (get pool c)) r /\
      NoDup (map (fun x => str_utf8 (get pool x)) r)
  end.

(** The canon in slot [i] is reached by the probe for its hash: it sits
    [k] steps along the probe sequence, and no earlier slot of the
    sequence is NULL. *)
Definition slot_path_ok (pool : gmap nat REBSTR) (tbl : list canon_slot) (i c : nat) : Prop :=
  let n := length tbl in
  let fs := First_Hash_Candidate_Slot (Hash_String fold hash_folded (get pool c)) n in
  exists k, k < n /\ probe_pos n (snd fs) (fst fs) k = i /\
    forall j, j < k -> exists v, tbl !! probe_pos n (snd fs) (fst fs) j = Some v /\ v <> Vacant.

Definition canon_fold (pool : gmap nat REBSTR) (c : nat) : list Byte.byte :=
  fold (str_utf8 (get pool c)).

(** The invariant, with the synonym rings as ghost state. *)
Record interner_inv (st : interner) (rings : list (list nat)) : Prop := {
  inv_rings : Forall (ring_ok (strings st)) rings;
  inv_nodup : NoDup (concat rings);
  inv_dom : forall x, is_Some (strings st !! x) <-> x ∈ concat rings;
  inv_fresh : forall x, is_Some (strings st !! x) -> x < next_node st;
  inv_heads : table_canons (PG_Canons_By_Hash st) ≡ₚ map (hd 0) rings;
  inv_folds : NoDup (map (canon_fold (strings st)) (table_canons (PG_Canons_By_Hash st)));
  inv_paths : forall i c, PG_Canons_By_Hash st !! i = Some (Canon c) ->
                slot_path_ok (strings st) (PG_Canons_By_Hash st) i c;
  inv_in_use : PG_Num_Canon_Slots_In_Use st =
                 length (table_canons (PG_Canons_By_Hash st)) + count_deleted (PG_Canons_By_Hash st);
  inv_deleteds : PG_Num_Canon_Deleteds st = count_deleted (PG_Canons_By_Hash st)
}.

(** Auxiliary predicates of the proofs. *)

(** A slot the probe loop of Intern_UTF8_Managed steps over: a tombstone,
    or a canon of another case-folded spelling. *)
Definition scanned (T : list canon_slot) (P : gmap nat REBSTR) (u : list Byte.byte) (p : nat) : Prop :=
  T !! p = Some DELETED_CANON \/
  exists c, T !! p = Some (Canon c) /\ is_Some (P !! c) /\ fold (str_utf8 (get P c)) <> fold u.

(** What each exit of the probe loop tells about the slot it stopped at. *)
Definition probe_res_ok (T : list canon_slot) (P : gmap nat REBSTR) (u : list Byte.byte)
    (pos : nat -> nat) (m : nat) (res : probe_exit) : Prop :=
  match res with
  | Probe_Match c => T !! pos m = Some (Canon c) /\ is_Some (P !! c) /\ str_utf8 (get P c) = u
  | Probe_Synonym c => T !! pos m = Some (Canon c) /\ is_Some (P !! c) /\
      str_utf8 (get P c) <> u /\ fold (str_utf8 (get P c)) = fold u
  | Probe_Vacant s d' => s = pos m /\ T !! s = Some Vacant /\
      (d' = None \/ exists j, j < m /\ d' = Some (pos j) /\ T !! pos j = Some DELETED_CANON)
  end.

Definition slot_canons (v : canon_slot) : list nat :=
  match v with Canon c => [c] | _ => [] end.

Definition slot_del (v : canon_slot) : nat :=
  match v with DELETED_CANON => 1 | _ => 0 end.

(** The accumulated table of Expand_Word_Table stays tombstone-free and
    every canon in it is reachable by its probe. *)
Definition rehash_ok (P : gmap nat REBSTR) (N : nat) (T : list canon_slot) : Prop :=
  length T = N /\ count_deleted T = 0 /\
  forall i c, T !! i = Some (Canon c) -> slot_path_ok P T i c.

(** [P'] is [P] with the SYM_XXX number of the members of [l] set to [sym]. *)
Definition tagged (P P' : gmap nat REBSTR) (l : list nat) (sym : nat) : Prop :=
  forall y, P' !! y = if decide (y ∈ l) then (fun s => set_symbol s sym) <$> P !! y else P !! y.

Definition Inv (st : interner) : Prop := exists rings, interner_inv st rings.

End Inv.

End InterningInv.

(* ===================================================================== *)
(* A concrete interner: ASCII folding, byte-sum hash, linear probing      *)
(* ===================================================================== *)

Module InterningExamples.
Import Interning.

Definition bytes (s : string) : list Byte.byte := String.list_byte_of_string s.

Definition ok_or {A} (d : A) (o : outcome A) : A :=
  match o with Ok a => a | _ => d end.

(** A debug build's interner, whose table starts with a single slot. *)
Definition ex_boot : interner := Startup_Interning false.

Definition ex_run (ops : list interner_op) : interner :=
  ok_or ex_boot (run fold_ascii hash_sum linear_first_slot ex_boot ops).

Definition ex_intern (st : interner) (s : string) : interner * nat :=
  ok_or (st, 0) (Intern_UTF8_Managed fold_ascii hash_sum linear_first_slot st (bytes s)).

Definition ex_kill (st : interner) (x : nat) : interner :=
  ok_or st (GC_Kill_Interning fold_ascii hash_sum linear_first_slot st x).

Definition ex_abcd : list interner_op :=
  [Op_Intern (bytes "a"); Op_Intern (bytes "b"); Op_Intern (bytes "c"); Op_Intern (bytes "d")].

(** "a", "h" and "o" all hash to slot 6 of a 7-slot table. *)
Definition ex_aho : list interner_op :=
  [Op_Intern (bytes "a"); Op_Intern (bytes "h"); Op_Intern (bytes "o")].

Definition ex_Foo_foo : list interner_op :=
  [Op_Intern (bytes "Foo"); Op_Intern (bytes "foo")].

Definition ex_st : interner := ex_run ex_abcd.
Definition ex_st1 : interner := fst (ex_intern ex_st "Foo").
Definition ex_a : nat := snd (ex_intern ex_st "Foo").
Definition ex_st2 : interner := fst (ex_intern ex_st1 "foo").
Definition ex_b : nat := snd (ex_intern ex_st1 "foo").
Definition ex_st5 : interner := fst (ex_intern ex_st "e").
Definition ex_x5 : nat := snd (ex_intern ex_st "e").
Definition ex_chain : interner := ex_run ex_aho.
Definition ex_syn : interner := ex_run ex_Foo_foo.
Definition ex_tagged : interner := ex_run (ex_Foo_foo ++ [Op_Startup_Symbols [1]]).

End InterningExamples.

(* ===================================================================== *)
(* Garbage collector: mark phase and Sweep_Series (m-gc.c)                *)
(* ===================================================================== *)

Module GC.

(** The first byte of a series node header.  Its four leftmost bits are
    the NODE_FLAG_NODE, NODE_FLAG_FREE, NODE_FLAG_MANAGED and
    NODE_FLAG_MARKED bits: Sweep_Series switches on [FIRST_BYTE >> 4], in
    which they are 0x8, 0x4, 0x2 and 0x1. *)
Definition NODE_FLAG_NODE : Z := 128.
Definition NODE_FLAG_FREE : Z := 64.
Definition NODE_FLAG_MANAGED : Z := 32.
Definition NODE_FLAG_MARKED : Z := 16.

(** A node of the series pool: its header byte and the nodes its
    content references (what the marking propagates through). *)
Record gc_node := mk_gc_node {
  first_byte : Z;
  node_refs : list nat
}.

Definition IS_MANAGED (s : gc_node) : bool := Z.testbit (first_byte s) 5.
Definition IS_MARKED (s : gc_node) : bool := Z.testbit (first_byte s) 4.

(** A freed node: Free_Node and GC_Kill_Series leave the illegal UTF-8
    byte FREED_SERIES_BYTE (0x8 + 0x4 in the high nibble, as the case-12
    branch of Sweep_Series checks) and no content. *)
Definition FREED_SERIES_BYTE : Z := 192.
Definition freed_node : gc_node := mk_gc_node FREED_SERIES_BYTE [].

(** One node of the sweep loop: [None] is panic (s); otherwise the node
    afterwards and whether it was counted as freed. *)
Definition sweep_node (s : gc_node) : option (gc_node * nat) :=
  match Z.to_nat (Z.shiftr (first_byte s) 4) with
  | 8 => Some (s, 0)
  | 10 => Some (freed_node, 1)
  | 11 => Some (mk_gc_node (Z.land (first_byte s) (Z.lnot NODE_FLAG_MARKED)) (node_refs s), 0)
  | 12 => Some (s, 0)
  | _ => None
  end.

(** Sweep_Series over the nodes of the series pool, returning the count. *)
Fixpoint Sweep_Series (pool : list gc_node) : option (list gc_node * nat) :=
  match pool with
  | [] => Some ([], 0)
  | s :: rest =>
      match sweep_node s with
      | None => None
      | Some (s', c) =>
          match Sweep_Series rest with
          | None => None
          | Some (rest', n) => Some (s' :: rest', c + n)
          end
      end
  end.



(** The marking phase of Recycle_Core (Reify_Any_C_Valist_Frames,
    Mark_Root_Series, Mark_Natives, Mark_Symbol_Series, Mark_Data_Stack,
    Mark_Guarded_Nodes, Mark_Frame_Stack_Deep, Propagate_All_GC_Marks and
    Mark_Devices_Deep) starts from the whole interpreter state: frames,
    data stack, guarded nodes, API handles, natives, symbols and devices.
    None of these is part of this model, so the marking phase is a
    parameter: the series pool after it, from the pool before it (it may
    also kill series, as Mark_Root_Series does for the API handles of
    expired frames). *)
Section Recycle.

Variable mark_phase : list gc_node -> list gc_node.


End Recycle.

(** One node of Fill_Sweeplist (debug build), node [n] of the pool:
    cases 9 and 11 assert IS_SERIES_MANAGED ([None] is the failed assert),
    then clear MARKED or append the node to the sweeplist; the other
    cases leave the node alone. *)
Definition fill_node (n : nat) (s : gc_node) (sweeplist : list nat) (count : nat)
    : option (gc_node * list nat * nat) :=
  match Z.to_nat (Z.shiftr (first_byte s) 4) with
  | 9 | 11 =>
      if negb (IS_MANAGED s) then None
      else if IS_MARKED s
      then Some (mk_gc_node (Z.land (first_byte s) (Z.lnot NODE_FLAG_MARKED)) (node_refs s),
                 sweeplist, count)
      else Some (s, sweeplist ++ [n], S count)
  | _ => Some (s, sweeplist, count)
  end.

Fixpoint Fill_Sweeplist_from (n : nat) (pool : list gc_node) (sweeplist : list nat) (count : nat)
    : option (list gc_node * list nat * nat) :=
  match pool with
  | [] => Some ([], sweeplist, count)
  | s :: rest =>
      match fill_node n s sweeplist count with
      | None => None
      | Some (s', sweeplist', count') =>
          match Fill_Sweeplist_from (S n) rest sweeplist' count' with
          | None => None
          | Some (rest', sweeplist'', count'') => Some (s' :: rest', sweeplist'', count'')
          end
      end
  end.

(** Fill_Sweeplist on an empty sweeplist: the pool afterwards, the
    sweeplist (node positions) and the count returned. *)
Definition Fill_Sweeplist (pool : list gc_node) : option (list gc_node * list nat * nat) :=
  Fill_Sweeplist_from 0 pool [] 0.


End GC.


Module GCExamples.

Import GC.

(** Four nodes: node 0 (managed) references node 1 (managed); node 2 is
    managed and unreferenced; node 3 is unmanaged. *)
Definition ex_pool : list gc_node :=
  [mk_gc_node 160 [1]; mk_gc_node 160 []; mk_gc_node 160 []; mk_gc_node 128 [2]].

(** A marking phase for the examples: the managed nodes among the first
    two (what the root node 0 reaches in [ex_pool]) get NODE_FLAG_MARKED. *)
Definition ex_mark (pool : list gc_node) : list gc_node :=
  imap (fun j s =>
          if (j <? 2) && IS_MANAGED s
          then mk_gc_node (Z.lor (first_byte s) NODE_FLAG_MARKED) (node_refs s)
          else s) pool.

End GCExamples.


(* ===================================================================== *)
(* Returner and Chainer dispatchers (c-function.c)                       *)
(* ===================================================================== *)

Module Dispatch.

(** FLAGIT_KIND and ALL_64 (defined outside src/): the typeset bit of a
    datatype kind, and the typeset with all 64 bits set. *)
Definition FLAGIT_KIND (k : nat) : Z := Z.shiftl 1 (Z.of_nat k).
Definition ALL_64 : Z := Z.ones 64.

(** TYPE_CHECK (sys-typeset.h) on the bits of a typeset. *)
Definition TYPE_CHECK (bits : Z) (k : nat) : bool :=
  negb (Z.eqb (Z.land bits (FLAGIT_KIND k)) 0).

(** A value, as far as the dispatchers look at it: its datatype kind
    (VAL_TYPE) and an opaque payload. *)
Record value := mk_value { VAL_TYPE : nat; payload : Z }.

(** Parameters of a function: the typeset bits of each (FUNC_PARAM is
    1-based; the last one is FUNC_PARAM (phase, FUNC_NUM_PARAMS)). *)
Record func := mk_func {
  func_id : nat;
  func_params : list Z;
  func_binding : nat
}.

Inductive error := Error_Bad_Return_Type (kind : nat).

(** Dispatcher results: the R_XXX codes used here, and a failure raised
    with fail (). *)
Inductive REB_R :=
| R_OUT
| R_OUT_IS_THROWN
| R_REDO_UNCHECKED
| R_FAIL (e : error).

(** What Do_At_Throws leaves in the output cell and whether it threw. *)
Inductive do_result := Do_Normal (v : value) | Do_Thrown (v : value).

Section Returner.

(** The evaluator, run on a body block (an opaque handle here). *)
Variable body_block : Type.
Variable Do_At_Throws : body_block -> do_result.

Record returner_frame := mk_returner_frame {
  f_phase : func;
  f_body : body_block;
  f_out : option value
}.

(** Returner_Dispatcher: evaluate the body into [f->out], propagate a
    throw, else check the result's kind against the last parameter. *)
Definition Returner_Dispatcher (f : returner_frame) : returner_frame * REB_R :=
  match Do_At_Throws (f_body f) with
  | Do_Thrown v => (mk_returner_frame (f_phase f) (f_body f) (Some v), R_OUT_IS_THROWN)
  | Do_Normal v =>
      let f' := mk_returner_frame (f_phase f) (f_body f) (Some v) in
      let typeset := default 0%Z (last (func_params (f_phase f))) in
      if negb (TYPE_CHECK typeset (VAL_TYPE v))
      then (f', R_FAIL (Error_Bad_Return_Type (VAL_TYPE v)))
      else (f', R_OUT)
  end.

End Returner.

Arguments mk_returner_frame {body_block} f_phase f_body f_out.
Arguments f_phase {body_block} r.
Arguments f_body {body_block} r.
Arguments f_out {body_block} r.
Arguments Returner_Dispatcher {body_block} Do_At_Throws f.

(** A frame running a chain: its phase and binding; the pipeline is the
    body of the chain's phase, a block of FUNCTION! values. *)
Record chain_frame := mk_chain_frame {
  c_phase : func;
  c_binding : nat
}.

(** The loop of Chainer_Dispatcher: [value] walks from ARR_LAST down to
    (excluding) the head, pushing each onto the data stack (top first). *)
Fixpoint chain_push (pipeline : list func) (value : nat) (ds : list func) : list func :=
  match value with
  | 0 => ds
  | S v =>
      chain_push pipeline v
        (match pipeline !! (S v) with Some a => a :: ds | None => ds end)
  end.

Definition Chainer_Dispatcher (pipeline : list func) (f : chain_frame) (ds : list func)
    : chain_frame * list func * REB_R :=
  let ds' := chain_push pipeline (length pipeline - 1) ds in
  match pipeline !! 0 with
  | Some head => (mk_chain_frame head (func_binding head), ds', R_REDO_UNCHECKED)
  | None => (f, ds', R_REDO_UNCHECKED)
  end.

(** Modelled from the spec: once the phase returns, the evaluator pops the
    functions pushed above the chain's stack base one at a time and runs
    each on the output.  [apply a x] is running function [a] on [x]. *)
Fixpoint chain_post_process {V} (apply : func -> V -> V) (n : nat) (ds : list func) (out : V)
    : list func * V :=
  match n, ds with
  | S n', a :: ds' => chain_post_process apply n' ds' (apply a out)
  | _, _ => (ds, out)
  end.

End Dispatch.


Module DispatchExamples.

Import Dispatch.

(** A function whose only parameter (its RETURN) accepts kind 3 only; the
    body block is represented by the result of evaluating it. *)
Definition ex_return_typeset : Z := FLAGIT_KIND 3.
Definition ex_phase : func := mk_func 7 [ex_return_typeset] 0.
Definition ex_body_int : do_result := Do_Normal (mk_value 3 1).
Definition ex_body_str : do_result := Do_Normal (mk_value 4 0).
Definition ex_returner (body : do_result) : returner_frame do_result :=
  mk_returner_frame ex_phase body None.

End DispatchExamples.


(* ===================================================================== *)
(* Paramlist construction: Make_Paramlist_Managed_May_Fail (c-function.c) *)
(* ===================================================================== *)

Module Paramlist.

Import Dispatch.

Inductive word_kind :=
| REB_WORD | REB_SET_WORD | REB_GET_WORD | REB_LIT_WORD | REB_REFINEMENT | REB_ISSUE.

Definition word_kind_eqb (a b : word_kind) : bool :=
  match a, b with
  | REB_WORD, REB_WORD | REB_SET_WORD, REB_SET_WORD | REB_GET_WORD, REB_GET_WORD
  | REB_LIT_WORD, REB_LIT_WORD | REB_REFINEMENT, REB_REFINEMENT
  | REB_ISSUE, REB_ISSUE => true
  | _, _ => false
  end.

(** An ANY-WORD! of the spec: its kind, VAL_WORD_SPELLING, VAL_WORD_CANON
    and STR_SYMBOL of the canon (symbols are interned string nodes). *)
Record word := mk_word {
  word_type : word_kind;
  VAL_WORD_SPELLING : nat;
  VAL_WORD_CANON : nat;
  canon_symbol : nat
}.

(** A TAG! of the spec, by the outcome of the case-insensitive comparison
    with Root_With_Tag and Root_Local_Tag. *)
Inductive tag := Tag_With | Tag_Local | Tag_Other.

Inductive spec_item :=
| Spec_String (s : string)
| Spec_Tag (t : tag)
| Spec_Block (types : list nat)
| Spec_Word (w : word)
| Spec_Other.

Inductive param_class :=
| PARAM_CLASS_NORMAL | PARAM_CLASS_LOCAL | PARAM_CLASS_HARD_QUOTE
| PARAM_CLASS_SOFT_QUOTE | PARAM_CLASS_REFINEMENT | PARAM_CLASS_TIGHT
| PARAM_CLASS_RETURN | PARAM_CLASS_LEAVE.

(** A parameter TYPESET!: its bits, the spelling it was made with, that
    spelling's canon (VAL_PARAM_CANON), its symbol (VAL_PARAM_SYM) and
    its class. *)
Record typeset := mk_typeset {
  ts_bits : Z;
  ts_spelling : nat;
  ts_canon : nat;
  ts_symbol : nat;
  ts_class : param_class
}.

Definition set_class (c : param_class) (t : typeset) : typeset :=
  mk_typeset (ts_bits t) (ts_spelling t) (ts_canon t) (ts_symbol t) c.

Definition set_bits (b : Z) (t : typeset) : typeset :=
  mk_typeset b (ts_spelling t) (ts_canon t) (ts_symbol t) (ts_class t).

(** Data stack cells.  [DS_Block None] is EMPTY_BLOCK (whose array is
    EMPTY_ARRAY); [DS_Block (Some types)] a copied block of types. *)
Inductive ds_cell :=
| DS_Blank
| DS_Typeset (t : typeset)
| DS_Block (copy : option (list nat))
| DS_String (s : string).

Record mkf := mk_mkf {
  MKF_RETURN : bool;
  MKF_LEAVE : bool;
  MKF_FAKE_RETURN : bool;
  MKF_ANY_VALUE : bool;
  MKF_KEYWORDS : bool
}.

Inductive spec_mode := SPEC_MODE_NORMAL | SPEC_MODE_LOCAL | SPEC_MODE_WITH.

Definition spec_mode_eqb (a b : spec_mode) : bool :=
  match a, b with
  | SPEC_MODE_NORMAL, SPEC_MODE_NORMAL | SPEC_MODE_LOCAL, SPEC_MODE_LOCAL
  | SPEC_MODE_WITH, SPEC_MODE_WITH => true
  | _, _ => false
  end.

(** The locals of the gathering loop.  The data stack above dsp_orig is
    [ds], bottom first, so DS_AT (dsp_orig + i) is [ds !! (i - 1)] and
    DSP - dsp_orig is [length ds]. *)
Record pl_state := mk_pl_state {
  ds : list ds_cell;
  flags : mkf;
  mode : spec_mode;
  refinement_seen : bool;
  has_description : bool;
  has_types : bool;
  has_notes : bool;
  definitional_return_dsp : nat;
  definitional_leave_dsp : nat
}.

Definition set_ds (d : list ds_cell) (st : pl_state) : pl_state :=
  mk_pl_state d (flags st) (mode st) (refinement_seen st) (has_description st)
    (has_types st) (has_notes st) (definitional_return_dsp st) (definitional_leave_dsp st).

Inductive mk_error :=
| Error_Bad_Func_Def (item : spec_item)
| Error_Refinement_Arg_Opt
| Error_Dup_Vars (spelling : nat)
(** an assert of the debug build that does not hold (the C code crashes) *)
| Debug_Assert_Failed.

Inductive fallible (A : Type) := Done (a : A) | Fail (e : mk_error).
Arguments Done {A} a.
Arguments Fail {A} e.

Definition DS_TOP (d : list ds_cell) : option ds_cell := last d.

Definition IS_TYPESET (c : option ds_cell) : bool :=
  match c with Some (DS_Typeset _) => true | _ => false end.
Definition IS_BLOCK (c : option ds_cell) : bool :=
  match c with Some (DS_Block _) => true | _ => false end.

(** [if (IS_TYPESET (DS_TOP)) DS_PUSH (EMPTY_BLOCK);
     if (IS_BLOCK (DS_TOP)) DS_PUSH (EMPTY_STRING);] *)
Definition pad_block (d : list ds_cell) : list ds_cell :=
  if IS_TYPESET (DS_TOP d) then d ++ [DS_Block None] else d.
Definition pad_string (d : list ds_cell) : list ds_cell :=
  if IS_BLOCK (DS_TOP d) then d ++ [DS_String EmptyString] else d.
Definition pad_triple (d : list ds_cell) : list ds_cell := pad_string (pad_block d).

(** Apply [f] to the typeset at DS_AT (dsp_orig + p). *)
Definition update_typeset (f : typeset -> typeset) (p : nat) (d : list ds_cell) : list ds_cell :=
  match d !! (p - 1) with
  | Some (DS_Typeset t) => <[p - 1 := DS_Typeset (f t)]> d
  | _ => d
  end.

(** Update_Typeset_Bits_Core: clear the bits, then TYPE_SET each kind. *)
Definition Update_Typeset_Bits_Core (types : list nat) : Z :=
  fold_left (fun b k => Z.lor b (FLAGIT_KIND k)) types 0%Z.


Section Make_Paramlist.

(** The datatype kinds and the well-known symbols the builder uses, and
    the canons Canon (SYM_RETURN) and Canon (SYM_LEAVE). *)
Variables REB_MAX_VOID REB_FUNCTION : nat.
Variables SYM_RETURN SYM_LEAVE : nat.
Variables canon_return canon_leave : nat.
(** NDEBUG: set in a release build, where the asserts are compiled out. *)
Variable ndebug : bool.

Definition default_param_bits (fl : mkf) : Z :=
  if MKF_ANY_VALUE fl then ALL_64
  else Z.land ALL_64 (Z.lnot (Z.lor (FLAGIT_KIND REB_MAX_VOID) (FLAGIT_KIND REB_FUNCTION))).

(** STRING! for the description or a parameter note. *)
Definition string_step (st : pl_state) (s : string) : pl_state :=
  if spec_mode_eqb (mode st) SPEC_MODE_WITH then st
  else
    let d1 := pad_block (ds st) in
    let d2 := if IS_BLOCK (DS_TOP d1) then d1 ++ [DS_String s]
              else <[length d1 - 1 := DS_String s]> d1 in
    let top_is_description := Nat.eqb (length d2) 3 in
    mk_pl_state d2 (flags st) (mode st) (refinement_seen st)
      (has_description st || top_is_description) (has_types st)
      (has_notes st || negb top_is_description)
      (definitional_return_dsp st) (definitional_leave_dsp st).

(** TAG! keywords <with> and <local>. *)
Definition tag_step (st : pl_state) (item : spec_item) (t : tag) : fallible pl_state :=
  if MKF_KEYWORDS (flags st) then
    match t with
    | Tag_With =>
        Done (mk_pl_state (ds st) (flags st) SPEC_MODE_WITH (refinement_seen st)
                (has_description st) (has_types st) (has_notes st)
                (definitional_return_dsp st) (definitional_leave_dsp st))
    | Tag_Local =>
        Done (mk_pl_state (ds st) (flags st) SPEC_MODE_LOCAL (refinement_seen st)
                (has_description st) (has_types st) (has_notes st)
                (definitional_return_dsp st) (definitional_leave_dsp st))
    | Tag_Other => Fail (Error_Bad_Func_Def item)
    end
  else Fail (Error_Bad_Func_Def item).

(** BLOCK! of types for the parameter just named.  The typeset sits at
    DS_AT (dsp_orig + tpos). *)
Definition block_step (st : pl_state) (item : spec_item) (types : list nat) : fallible pl_state :=
  let d := ds st in
  let n := length d in
  if IS_BLOCK (DS_TOP d) then Fail (Error_Bad_Func_Def item)
  else if negb (spec_mode_eqb (mode st) SPEC_MODE_NORMAL) then Fail (Error_Bad_Func_Def item)
  else
    let placed :=
      if IS_TYPESET (DS_TOP d) then Done (d ++ [DS_Block (Some types)], n)
      else
        match d !! (n - 3) with
        | Some DS_Blank => Fail (Error_Bad_Func_Def item)
        | _ =>
            match d !! (n - 2) with
            | Some (DS_Block None) => Done (<[n - 2 := DS_Block (Some types)]> d, n - 2)
            | _ => Fail (Error_Bad_Func_Def item)
            end
        end in
    match placed with
    | Fail e => Fail e
    | Done (d1, tpos) =>
        let d2 := update_typeset (set_bits (Update_Typeset_Bits_Core types)) tpos d1 in
        let opt_ok :=
          match d2 !! (tpos - 1) with
          | Some (DS_Typeset t) => negb (TYPE_CHECK (ts_bits t) REB_MAX_VOID)
          | _ => true
          end in
        if refinement_seen st && negb opt_ok then Fail Error_Refinement_Arg_Opt
        else Done (mk_pl_state d2 (flags st) (mode st) (refinement_seen st)
                     (has_description st) true (has_notes st)
                     (definitional_return_dsp st) (definitional_leave_dsp st))
    end.

(** The mode after a word in <local> or <with> mode. *)
Definition word_mode (m : spec_mode) (item : spec_item) (k : word_kind) : fallible spec_mode :=
  if spec_mode_eqb m SPEC_MODE_NORMAL then Done m
  else if word_kind_eqb k REB_REFINEMENT then Done SPEC_MODE_NORMAL
  else if word_kind_eqb k REB_WORD || word_kind_eqb k REB_SET_WORD then Done m
  else Fail (Error_Bad_Func_Def item).

(** The RETURN / LEAVE check on a word pushed at DSP = [dsp]: the flags and
    the definitional_return_dsp and definitional_leave_dsp afterwards. *)
Definition return_leave_check (fl : mkf) (rdsp ldsp dsp : nat) (w : word) : mkf * nat * nat :=
  let is_set := word_kind_eqb (word_type w) REB_SET_WORD in
  if Nat.eqb (canon_symbol w) SYM_RETURN && negb (MKF_LEAVE fl) then
    if is_set then (fl, dsp, ldsp)
    else (mk_mkf false (MKF_LEAVE fl) false (MKF_ANY_VALUE fl) (MKF_KEYWORDS fl), rdsp, ldsp)
  else if Nat.eqb (canon_symbol w) SYM_LEAVE
          && negb (MKF_RETURN fl || MKF_FAKE_RETURN fl) then
    if is_set then (fl, rdsp, dsp)
    else (mk_mkf (MKF_RETURN fl) false (MKF_FAKE_RETURN fl) (MKF_ANY_VALUE fl) (MKF_KEYWORDS fl),
          rdsp, ldsp)
  else (fl, rdsp, ldsp).

(** The asserts of the RETURN and LEAVE branches:
    [assert(definitional_return_dsp == 0)] and
    [assert(definitional_leave_dsp == 0)]. *)
Definition return_leave_assert (fl : mkf) (rdsp ldsp : nat) (w : word) : bool :=
  if Nat.eqb (canon_symbol w) SYM_RETURN && negb (MKF_LEAVE fl) then Nat.eqb rdsp 0
  else if Nat.eqb (canon_symbol w) SYM_LEAVE
          && negb (MKF_RETURN fl || MKF_FAKE_RETURN fl) then Nat.eqb ldsp 0
  else true.

Definition word_class (m : spec_mode) (k : word_kind) : param_class :=
  match k with
  | REB_WORD => if spec_mode_eqb m SPEC_MODE_LOCAL then PARAM_CLASS_LOCAL else PARAM_CLASS_NORMAL
  | REB_GET_WORD => PARAM_CLASS_HARD_QUOTE
  | REB_LIT_WORD => PARAM_CLASS_SOFT_QUOTE
  | REB_REFINEMENT => PARAM_CLASS_REFINEMENT
  | REB_SET_WORD => PARAM_CLASS_LOCAL
  | REB_ISSUE => PARAM_CLASS_TIGHT
  end.

(** ANY-WORD! parameter: push a typeset (dropped again for a non-set-word
    under <with>) and classify it.  In a debug build the asserts of the
    RETURN / LEAVE check must hold. *)
Definition word_step (st : pl_state) (item : spec_item) (w : word) : fallible pl_state :=
  let k := word_type w in
  match word_mode (mode st) item k with
  | Fail e => Fail e
  | Done m =>
      if negb ndebug && negb (return_leave_assert (flags st) (definitional_return_dsp st)
                                (definitional_leave_dsp st) w)
      then Fail Debug_Assert_Failed else
      let d1 := pad_triple (ds st) in
      let t := mk_typeset (default_param_bits (flags st)) (VAL_WORD_SPELLING w)
                 (VAL_WORD_CANON w) (canon_symbol w) PARAM_CLASS_NORMAL in
      let '(fl, rdsp, ldsp) :=
        return_leave_check (flags st) (definitional_return_dsp st)
          (definitional_leave_dsp st) (S (length d1)) w in
      if spec_mode_eqb m SPEC_MODE_WITH && negb (word_kind_eqb k REB_SET_WORD) then
        Done (mk_pl_state d1 fl m (refinement_seen st) (has_description st)
                (has_types st) (has_notes st) rdsp ldsp)
      else
        Done (mk_pl_state (d1 ++ [DS_Typeset (set_class (word_class m k) t)]) fl m
                (refinement_seen st || word_kind_eqb k REB_REFINEMENT)
                (has_description st) (has_types st) (has_notes st) rdsp ldsp)
  end.

Definition spec_step (st : pl_state) (item : spec_item) : fallible pl_state :=
  match item with
  | Spec_String s => Done (string_step st s)
  | Spec_Tag t => tag_step st item t
  | Spec_Block types => block_step st item types
  | Spec_Word w => word_step st item w
  | Spec_Other => Fail (Error_Bad_Func_Def item)
  end.

Fixpoint spec_loop (st : pl_state) (items : list spec_item) : fallible pl_state :=
  match items with
  | [] => Done st
  | item :: rest =>
      match spec_step st item with
      | Fail e => Fail e
      | Done st' => spec_loop st' rest
      end
  end.


(** The debug build turns MKF_FAKE_RETURN into MKF_RETURN. *)
Definition entry_flags (ndebug : bool) (fl : mkf) : mkf :=
  if negb ndebug && MKF_FAKE_RETURN fl
  then mk_mkf true (MKF_LEAVE fl) false (MKF_ANY_VALUE fl) (MKF_KEYWORDS fl)
  else fl.

(** The unreadable blank, EMPTY_BLOCK and EMPTY_STRING pushed first. *)
Definition initial_state (fl : mkf) : pl_state :=
  mk_pl_state [DS_Blank; DS_Block None; DS_String EmptyString] fl SPEC_MODE_NORMAL
    false false false false 0 0.

(** After the loop: complete the last triple, then install the definitional
    LEAVE and RETURN.  Returns the stack and definitional_return_dsp. *)
Definition finish (st : pl_state) : list ds_cell * nat :=
  let fl := flags st in
  let d0 := pad_triple (ds st) in
  let d1 :=
    if MKF_LEAVE fl then
      if Nat.eqb (definitional_leave_dsp st) 0 then
        d0 ++ [DS_Typeset (mk_typeset (FLAGIT_KIND REB_MAX_VOID) canon_leave canon_leave
                             SYM_LEAVE PARAM_CLASS_LEAVE);
               DS_Block None; DS_String EmptyString]
      else update_typeset (set_class PARAM_CLASS_LEAVE) (definitional_leave_dsp st) d0
    else d0 in
  if MKF_RETURN fl then
    if Nat.eqb (definitional_return_dsp st) 0 then
      let bits :=
        if MKF_ANY_VALUE fl || negb (has_description st || has_types st || has_notes st)
        then ALL_64
        else Z.land ALL_64 (Z.lnot (Z.lor (FLAGIT_KIND REB_MAX_VOID) (FLAGIT_KIND REB_FUNCTION))) in
      (d1 ++ [DS_Typeset (mk_typeset bits canon_return canon_return SYM_RETURN PARAM_CLASS_RETURN);
              DS_Block None; DS_String EmptyString], S (length d1))
    else (update_typeset (set_class PARAM_CLASS_RETURN) (definitional_return_dsp st) d1,
          definitional_return_dsp st)
  else (d1, definitional_return_dsp st).

End Make_Paramlist.

(** Modelled from the spec: the transient binder (sys-bind.h is not in
    src/) is a map from canon spellings to indexes.  Try_Add_Binder_Index
    refuses a canon already present; Remove_Binder_Index_Else_0 removes a
    canon's index, giving 0 when there is none. *)
Abbreviation binder := (gmap nat nat).

Definition Try_Add_Binder_Index (b : binder) (canon idx : nat) : bool * binder :=
  match b !! canon with
  | Some _ => (false, b)
  | None => (true, <[canon := idx]> b)
  end.

Definition Remove_Binder_Index_Else_0 (b : binder) (canon : nat) : nat * binder :=
  match b !! canon with
  | Some i => (i, delete canon b)
  | None => (0, b)
  end.

(** The first loop over the typesets DS_AT (dsp_orig + 4), +7, ...: add each
    canon to the binder, noting a duplicate, and copy every typeset but the
    definitional return.  [p] is the position of the cell at the head. *)
Fixpoint copy_params (p : nat) (cells : list ds_cell) (rdsp : nat) (b : binder)
    (duplicate : option nat) (dest : list typeset) : binder * option nat * list typeset :=
  match cells with
  | DS_Typeset t :: _ :: _ :: rest =>
      let '(ok, b') := Try_Add_Binder_Index b (ts_canon t) 1020 in
      let duplicate' := if ok then duplicate else Some (ts_spelling t) in
      let dest' := if negb (Nat.eqb rdsp 0) && Nat.eqb p rdsp then dest else dest ++ [t] in
      copy_params (p + 3) rest rdsp b' duplicate' dest'
  | _ => (b, duplicate, dest)
  end.

(** The second loop: remove the binder index of every typeset's canon. *)
Fixpoint remove_params (cells : list ds_cell) (b : binder) : binder :=
  match cells with
  | DS_Typeset t :: _ :: _ :: rest =>
      remove_params rest (snd (Remove_Binder_Index_Else_0 b (ts_canon t)))
  | _ => b
  end.

(** The typesets both loops visit. *)
Fixpoint param_typesets (cells : list ds_cell) : list typeset :=
  match cells with
  | DS_Typeset t :: _ :: _ :: rest => t :: param_typesets rest
  | _ => []
  end.

(** Copying the paramlist off the stack: the binder at SHUTDOWN_BINDER, the
    duplicate found, and the parameters after the canon function value. *)
Definition Copy_Paramlist (cells : list ds_cell) (rdsp : nat) (fl : mkf)
    : binder * option nat * list typeset :=
  let '(b1, duplicate, dest) := copy_params 4 (drop 3 cells) rdsp ∅ None [] in
  let dest' :=
    if Nat.eqb rdsp 0 then dest
    else if MKF_FAKE_RETURN fl then dest
    else match cells !! (rdsp - 1) with
         | Some (DS_Typeset t) => dest ++ [t]
         | _ => dest
         end in
  (remove_params (drop 3 cells) b1, duplicate, dest').

(** The paramlist (without its canon function value in slot 0) and the
    FUNC_FLAG_RETURN and FUNC_FLAG_LEAVE header bits. *)
Record paramlist := mk_paramlist {
  params : list typeset;
  FUNC_FLAG_RETURN : bool;
  FUNC_FLAG_LEAVE : bool
}.

Definition Make_Paramlist_Managed_May_Fail
    (REB_MAX_VOID REB_FUNCTION SYM_RETURN SYM_LEAVE canon_return canon_leave : nat)
    (ndebug : bool) (fl : mkf) (spec : list spec_item) : fallible paramlist :=
  match spec_loop REB_MAX_VOID REB_FUNCTION SYM_RETURN SYM_LEAVE ndebug
          (initial_state (entry_flags ndebug fl)) spec with
  | Fail e => Fail e
  | Done st =>
      let '(cells, rdsp) :=
        finish REB_MAX_VOID REB_FUNCTION SYM_RETURN SYM_LEAVE canon_return canon_leave st in
      let '(_, duplicate, ps) := Copy_Paramlist cells rdsp (flags st) in
      match duplicate with
      | Some sp => Fail (Error_Dup_Vars sp)
      | None => Done (mk_paramlist ps (MKF_RETURN (flags st)) (MKF_LEAVE (flags st)))
      end
  end.

(** List_Func_Words: a word per parameter, of the kind its class stands
    for, with the parameter's spelling (VAL_PARAM_SPELLING).  Locals and
    the definitional RETURN and LEAVE are skipped unless [pure_locals],
    which lists them as SET-WORD!s. *)
Fixpoint List_Func_Words (ps : list typeset) (pure_locals : bool) : list (word_kind * nat) :=
  match ps with
  | [] => []
  | param :: rest =>
      let kind :=
        match ts_class param with
        | PARAM_CLASS_NORMAL => Some REB_WORD
        | PARAM_CLASS_TIGHT => Some REB_ISSUE
        | PARAM_CLASS_REFINEMENT => Some REB_REFINEMENT
        | PARAM_CLASS_HARD_QUOTE => Some REB_GET_WORD
        | PARAM_CLASS_SOFT_QUOTE => Some REB_LIT_WORD
        | PARAM_CLASS_LOCAL | PARAM_CLASS_RETURN | PARAM_CLASS_LEAVE =>
            if pure_locals then Some REB_SET_WORD else None
        end in
      match kind with
      | None => List_Func_Words rest pure_locals
      | Some k => (k, ts_spelling param) :: List_Func_Words rest pure_locals
      end
  end.

(** The loop of Find_Param_Index over the parameters from index [n]: the
    first one with the same spelling or the same canon. *)
Fixpoint find_param_from (n : nat) (ps : list typeset) (spelling canon : nat) : nat :=
  match ps with
  | [] => 0
  | param :: rest =>
      if Nat.eqb spelling (ts_spelling param) || Nat.eqb canon (ts_canon param) then n
      else find_param_from (S n) rest spelling canon
  end.

(** Find_Param_Index: [STR_CANON_of] is STR_CANON on spellings; the
    parameters start at index 1 of the paramlist, 0 is "not found". *)
Definition Find_Param_Index (STR_CANON_of : nat -> nat) (ps : list typeset) (spelling : nat) : nat :=
  find_param_from 1 ps spelling (STR_CANON_of spelling).


End Paramlist.


Module ParamlistExamples.

Import Dispatch Paramlist.

(** Kinds REB_MAX_VOID = 0 and REB_FUNCTION = 1; symbols and canons
    SYM_RETURN = 50 and SYM_LEAVE = 51.  A word's spelling, canon and
    symbol are one number. *)
Definition ex_make : bool -> mkf -> list spec_item -> fallible paramlist :=
  Make_Paramlist_Managed_May_Fail 0 1 50 51 50 51.
Definition ex_word (k : word_kind) (sp : nat) : word := mk_word k sp sp sp.

(** FUNC's flags: MKF_RETURN and MKF_KEYWORDS. *)
Definition ex_flags : mkf := mk_mkf true false false false true.

Definition ex_spec_local_return : list spec_item :=
  [Spec_Word (ex_word REB_WORD 3); Spec_Word (ex_word REB_SET_WORD 50)].
Definition ex_spec_plain_return : list spec_item := [Spec_Word (ex_word REB_WORD 50)].

End ParamlistExamples.

(* ===================================================================== *)
(* Theorems                                                              *)
(* ===================================================================== *)

Module QuotingFacts.
Import Quoting.

Example quotify_word_1 : Quotify (Plain REB_WORD 0) 1 = Plain (REB_WORD + 64) 0.
Proof. reflexivity. Qed.

Example quotify_word_5 : Quotify (Plain REB_WORD 0) 5 = QuotedCell 5 (Plain REB_WORD 0).
Proof. reflexivity. Qed.

Lemma Unquotify_Quotify (v : cell) (d : nat) :
  wf_cell v = true -> Unquotify (Quotify v d) d = v.
Proof.
  intros Hwf. destruct v as [kb data | D inner].
  - simpl in Hwf. apply andb_true_iff in Hwf as [Hkb _].
    apply Nat.ltb_lt in Hkb.
    pose proof (Nat.div_mod kb 64 ltac:(lia)) as Hdm.
    pose proof (Nat.mod_upper_bound kb 64 ltac:(lia)) as Hmb.
    assert (Hq : kb / 64 <= 3) by lia.
    unfold Quotify, REB_64.
    destruct (Nat.leb_spec (d + kb / 64) 3) as [Ht|Ht];
      unfold Unquotify, REB_64; destruct (Nat.eqb_spec d 0) as [Hd|Hd];
      try lia; try (f_equal; lia).
    replace (d + kb / 64 - d) with (kb / 64) by lia.
    destruct (Nat.ltb_spec 3 (kb / 64)); [lia|]. f_equal; lia.
  - unfold Quotify, Unquotify.
    destruct inner as [kb data | d0 i0]; [|discriminate].
    simpl in Hwf. apply andb_true_iff in Hwf as [Hwf _].
    apply andb_true_iff in Hwf as [HD _]. apply Nat.ltb_lt in HD.
    destruct (Nat.eqb_spec d 0) as [->|Hd]; [rewrite Nat.add_0_r; reflexivity|].
    replace (D + d - d) with D by lia.
    destruct (3 <? D) eqn:H3; [reflexivity|]. apply Nat.ltb_ge in H3. lia.
Qed.

Lemma Unquotify_Quotify_all (v : cell) (d : nat) :
  wf_cell v = true ->
  Unquotify (Quotify v d) (d + VAL_NUM_QUOTES v) = Unquotify v (VAL_NUM_QUOTES v).
Proof.
  intros Hwf. destruct v as [kb data | D inner].
  - simpl in Hwf. apply andb_true_iff in Hwf as [Hkb _].
    apply Nat.ltb_lt in Hkb.
    pose proof (Nat.div_mod kb 64 ltac:(lia)) as Hdm.
    pose proof (Nat.mod_upper_bound kb 64 ltac:(lia)) as Hmb.
    assert (Hq : kb / 64 <= 3) by lia.
    unfold VAL_NUM_QUOTES, Quotify, REB_64.
    destruct (Nat.leb_spec (d + kb / 64) 3) as [Ht|Ht];
      unfold Unquotify, REB_64;
      destruct (Nat.eqb_spec (d + kb / 64) 0) as [H0|H0];
      destruct (Nat.eqb_spec (kb / 64) 0) as [H1|H1];
      try lia; try (f_equal; lia).
    all: replace (d + kb / 64 - (d + kb / 64)) with 0 by lia.
    all: destruct (Nat.ltb_spec 3 0); [lia|]; f_equal; lia.
  - destruct inner as [kb data | d0 i0]; [|discriminate].
    simpl in Hwf. apply andb_true_iff in Hwf as [Hwf _].
    apply andb_true_iff in Hwf as [HD _]. apply Nat.ltb_lt in HD.
    unfold VAL_NUM_QUOTES, Quotify, Unquotify.
    destruct (Nat.eqb_spec (d + D) 0) as [H0|H0]; [lia|].
    destruct (Nat.eqb_spec D 0) as [H1|H1]; [lia|].
    replace (D + d - (d + D)) with 0 by lia. rewrite Nat.sub_diag.
    reflexivity.
Qed.

(** C1 (as stated, refuted): quoting an already-quoted value by [d] levels
    does not give a value of quote depth [d], and DEQUOTE of the result
    does not restore the original value.  Here [v] is the lit-word 'x
    (one in-cell quote level) and [d] is 1. *)
Lemma uneval_depth_counterexample :
  ~ (forall (v : cell) (d : Z), wf_cell v = true -> (0 <= d <= 255)%Z ->
       exists q, uneval v (Some d) = NOut q /\
                 Unquotify q (Z.to_nat d) = v /\
                 VAL_NUM_QUOTES q = Z.to_nat d /\
                 dequote q = NOut v).
Proof.
  intros H. destruct (H (Plain (REB_WORD + 64) 0) 1%Z eq_refl ltac:(lia))
    as (q & Hq & _ & Hd & _).
  vm_compute in Hq. injection Hq as <-. vm_compute in Hd. discriminate.
Qed.

Lemma VAL_INT32_small (d : Z) : (0 <= d <= 255)%Z -> VAL_INT32 d = d.
Proof.
  intros Hd. unfold VAL_INT32. rewrite Z.mod_small by lia. lia.
Qed.

(** C1 (amended): for every well-formed value [v] and depth [d] in
    [0,255], UNEVAL/DEPTH [d] succeeds; unquoting [d] levels gives back [v]; the
    quote depth of the result is the depth of [v] plus [d] (so it is [d]
    exactly when [v] is unquoted); DEQUOTE of the result equals DEQUOTE
    of [v], i.e. it restores [v] exactly when [v] is unquoted. *)
Theorem uneval_dequote_roundtrip (v : cell) (d : Z) :
  wf_cell v = true -> (0 <= d <= 255)%Z ->
  exists q, uneval v (Some d) = NOut q /\
            Unquotify q (Z.to_nat d) = v /\
            VAL_NUM_QUOTES q = VAL_NUM_QUOTES v + Z.to_nat d /\
            dequote q = dequote v /\
            (VAL_NUM_QUOTES v = 0 ->
               VAL_NUM_QUOTES q = Z.to_nat d /\ dequote q = NOut v).
Proof.
  intros Hwf Hd. exists (Quotify v (Z.to_nat d)).
  assert (Hdepth : VAL_NUM_QUOTES (Quotify v (Z.to_nat d))
                   = VAL_NUM_QUOTES v + Z.to_nat d).
  { destruct v as [kb data | D inner]; unfold Quotify, VAL_NUM_QUOTES, REB_64.
    - simpl in Hwf. apply andb_true_iff in Hwf as [Hkb _].
      apply Nat.ltb_lt in Hkb.
      pose proof (Nat.div_mod kb 64 ltac:(lia)) as Hdm.
      pose proof (Nat.mod_upper_bound kb 64 ltac:(lia)) as Hmb.
      destruct (Nat.leb_spec (Z.to_nat d + kb / 64) 3).
      + rewrite Nat.mul_comm, Nat.div_add by lia.
        rewrite Nat.div_small by lia. lia.
      + lia.
    - lia. }
  assert (Hdq : dequote (Quotify v (Z.to_nat d)) = dequote v).
  { unfold dequote. rewrite Hdepth, Nat.add_comm.
    rewrite Unquotify_Quotify_all by exact Hwf. reflexivity. }
  split; [unfold uneval; rewrite VAL_INT32_small by exact Hd;
         destruct (Z.ltb_spec d 0); [lia|reflexivity]|].
  split; [apply Unquotify_Quotify, Hwf|].
  split; [exact Hdepth|]. split; [exact Hdq|].
  intros H0. split; [lia|]. rewrite Hdq. unfold dequote. rewrite H0.
  reflexivity.
Qed.

(** Witness: the amended C1 theorem at the word [x] quoted five levels. *)
Lemma uneval_dequote_roundtrip_witness :
  wf_cell (Plain REB_WORD 7) = true /\ (0 <= 5 <= 255)%Z /\
  exists q, uneval (Plain REB_WORD 7) (Some 5%Z) = NOut q /\
            Unquotify q (Z.to_nat 5) = Plain REB_WORD 7 /\
            VAL_NUM_QUOTES q = VAL_NUM_QUOTES (Plain REB_WORD 7) + Z.to_nat 5 /\
            dequote q = dequote (Plain REB_WORD 7) /\
            (VAL_NUM_QUOTES (Plain REB_WORD 7) = 0 ->
               VAL_NUM_QUOTES q = Z.to_nat 5 /\ dequote q = NOut (Plain REB_WORD 7)).
Proof.
  split; [reflexivity|]. split; [lia|].
  apply (uneval_dequote_roundtrip (Plain REB_WORD 7) 5%Z); [reflexivity|lia].
Defined.

End QuotingFacts.

(* ===================================================================== *)
(* The interner                                                          *)
(* ===================================================================== *)

Module InterningFacts.
Import Interning InterningInv InterningExamples.

Lemma Get_Hash_Prime_From_in ps size :
  Get_Hash_Prime_From ps size = 0%N \/ Get_Hash_Prime_From ps size ∈ ps.
Proof.
  induction ps as [|p ps IH]; simpl; [left; reflexivity|].
  destruct (N.eqb p 0); [left; reflexivity|].
  destruct (N.ltb p size); [|right; left].
  destruct IH as [H|H]; [left; exact H|right; right; exact H].
Qed.

Lemma Primes_REBCNT : Forall (fun q => (q < 2^32)%N) Primes.
Proof. apply (bool_decide_eq_true_1 (Forall _ Primes)). vm_compute. reflexivity. Qed.

Lemma Get_Hash_Prime_From_small size : (Get_Hash_Prime_From Primes size < 2^32)%N.
Proof.
  destruct (Get_Hash_Prime_From_in Primes size) as [->|H]; [reflexivity|].
  exact (proj1 (Forall_forall _ _) Primes_REBCNT _ H).
Qed.

Lemma to_REBCNT_to_REBINT n : (n < 2^32)%N -> to_REBCNT (to_REBINT n) = n.
Proof.
  intros Hn. unfold to_REBCNT, to_REBINT.
  assert (Hz : (0 <= Z.of_N n < 2^32)%Z)
    by (split; [apply N2Z.is_nonneg|change (2^32)%Z with (Z.of_N (2^32)%N); apply N2Z.inj_lt, Hn]).
  rewrite (Z.mod_small (Z.of_N n)) by exact Hz.
  destruct (Z.ltb_spec (Z.of_N n) (2^31)).
  - rewrite Z.mod_small by lia. apply N2Z.id.
  - replace (Z.of_N n - 2^32)%Z with (Z.of_N n + (-1) * 2^32)%Z by lia.
    rewrite Z.mod_add, Z.mod_small by lia. apply N2Z.id.
Qed.

(** Expand_Word_Table stores the REBINT of Get_Hash_Prime in a REBCNT:
    that gives back the prime of the table. *)
Lemma Get_Hash_Prime_REBCNT size :
  to_REBCNT (Get_Hash_Prime size) = Get_Hash_Prime_From Primes size.
Proof. unfold Get_Hash_Prime. apply to_REBCNT_to_REBINT, Get_Hash_Prime_From_small. Qed.

Section InternProofs.
Context (fold : list Byte.byte -> list Byte.byte) (hash_folded : list Byte.byte -> nat)
        (FHCS : nat -> nat -> nat * nat).

Local Abbreviation scanned := (scanned fold).
Local Abbreviation probe_res_ok := (probe_res_ok fold).
Local Abbreviation rehash_ok := (rehash_ok fold hash_folded FHCS).

Lemma Compare_UTF8_cases (a b : list Byte.byte) :
  (Compare_UTF8 fold a b = 0%Z /\ a = b) \/
  (Compare_UTF8 fold a b = 1%Z /\ a <> b /\ fold a = fold b) \/
  (Compare_UTF8 fold a b = (-1)%Z /\ fold a <> fold b).
Proof.
  unfold Compare_UTF8. destruct (decide (a = b)) as [->|Hne]; [left; auto|].
  destruct (decide (fold a = fold b)); [right; left; auto | right; right; auto].
Qed.

Lemma probe_sound (T : list canon_slot) (P : gmap nat REBSTR) (u : list Byte.byte)
    (n skip s0 : nat) :
  forall fuel j0 d res,
  probe fold fuel n skip (probe_pos n skip s0 j0) d T P u = Some res ->
  (forall j, j < j0 -> scanned T P u (probe_pos n skip s0 j)) ->
  (d = None \/ exists j, j < j0 /\ d = Some (probe_pos n skip s0 j) /\
                          T !! probe_pos n skip s0 j = Some DELETED_CANON) ->
  exists m, j0 <= m < j0 + fuel /\
    (forall j, j < m -> scanned T P u (probe_pos n skip s0 j)) /\
    probe_res_ok T P u (probe_pos n skip s0) m res.
Proof.
  induction fuel as [|f IH]; intros j0 d res Hp Hscan Hd; [discriminate|].
  simpl in Hp.
  destruct (T !! probe_pos n skip s0 j0) as [v|] eqn:Hv; [|discriminate].
  destruct v as [| |c].
  - injection Hp as <-. exists j0. split; [lia|]. split; [exact Hscan|].
    simpl. split; [reflexivity|]. split; [exact Hv|].
    destruct Hd as [->|(j & Hj & -> & HT)]; [left; reflexivity|].
    right. exists j. auto.
  - change (next_slot n skip (probe_pos n skip s0 j0)) with (probe_pos n skip s0 (S j0)) in Hp.
    destruct (IH (S j0) _ _ Hp) as (m & Hm & Hs & Hr).
    + intros j Hj. destruct (decide (j = j0)) as [->|]; [left; exact Hv|].
      apply Hscan. lia.
    + right. exists j0. split; [lia|]. auto.
    + exists m. split; [lia|]. auto.
  - destruct (P !! c) as [r|] eqn:Hc; [|discriminate].
    assert (Hg : get P c = r) by (unfold get; rewrite Hc; reflexivity).
    destruct (Compare_UTF8_cases (str_utf8 r) u) as [(Hcmp & Heq)|[(Hcmp & Hne & Hf)|(Hcmp & Hf)]];
      rewrite Hcmp in Hp; simpl in Hp.
    + injection Hp as <-. exists j0. split; [lia|]. split; [exact Hscan|].
      simpl. rewrite Hg. split; [exact Hv|]. split; [eauto|exact Heq].
    + injection Hp as <-. exists j0. split; [lia|]. split; [exact Hscan|].
      simpl. rewrite Hg. split; [exact Hv|]. split; [eauto|auto].
    + change (next_slot n skip (probe_pos n skip s0 j0)) with (probe_pos n skip s0 (S j0)) in Hp.
      destruct (IH (S j0) _ _ Hp) as (m & Hm & Hs & Hr).
      * intros j Hj. destruct (decide (j = j0)) as [->|]; [|apply Hscan; lia].
        right. exists c. rewrite Hg. split; [exact Hv|]. split; [eauto|exact Hf].
      * destruct Hd as [->|(j & Hj & -> & HT)]; [left; reflexivity|].
        right. exists j. split; [lia|]. auto.
      * exists m. split; [lia|]. auto.
Qed.

Lemma NoDup_map_inj_in {A B} (f : A -> B) (l : list A) (a b : A) :
  NoDup (map f l) -> a ∈ l -> b ∈ l -> f a = f b -> a = b.
Proof.
  induction l as [|y l IH]; intros Hnd Ha Hb Hf; [inversion Ha|].
  simpl in Hnd. apply NoDup_cons in Hnd as [Hy Hnd].
  apply elem_of_cons in Ha, Hb.
  destruct Ha as [->|Ha], Hb as [->|Hb]; auto.
  - exfalso. apply Hy. rewrite Hf. apply list_elem_of_fmap_2. exact Hb.
  - exfalso. apply Hy. rewrite <- Hf. apply list_elem_of_fmap_2. exact Ha.
Qed.

Lemma NoDup_concat_same {A} (rings : list (list A)) (r1 r2 : list A) (x : A) :
  NoDup (concat rings) -> r1 ∈ rings -> r2 ∈ rings -> x ∈ r1 -> x ∈ r2 -> r1 = r2.
Proof.
  induction rings as [|r rs IH]; intros Hnd H1 H2 Hx1 Hx2; [inversion H1|].
  simpl in Hnd. apply NoDup_app in Hnd as (Hr & Hdis & Hrs).
  apply elem_of_cons in H1, H2.
  destruct H1 as [->|H1], H2 as [->|H2]; auto.
  - exfalso. apply (Hdis x Hx1). apply list_elem_of_In, in_concat.
    exists r2. split; apply list_elem_of_In; auto.
  - exfalso. apply (Hdis x Hx2). apply list_elem_of_In, in_concat.
    exists r1. split; apply list_elem_of_In; auto.
Qed.

Lemma NoDup_bounded_length (l : list nat) (n : nat) :
  NoDup l -> (forall x, x ∈ l -> x < n) -> length l <= n.
Proof.
  intros Hnd Hb. rewrite <- (length_seq n 0).
  apply NoDup_incl_length; [apply NoDup_ListNoDup; exact Hnd|].
  intros x Hx. apply in_seq. apply list_elem_of_In in Hx. specialize (Hb x Hx). lia.
Qed.

Lemma node_head (c : nat) (ms : list nat) : node (c :: ms) 0 = c.
Proof. reflexivity. Qed.

Lemma node_end (r : list nat) : node r (length r) = hd 0 r.
Proof. unfold node. rewrite lookup_ge_None_2 by lia. reflexivity. Qed.

Lemma canon_walk_ring (P : gmap nat REBSTR) (r : list nat) :
  ring_ok fold P r -> NoDup r -> (forall x, x ∈ r -> is_Some (P !! x)) ->
  forall f q, q < length r -> (q = 0 -> 1 <= f) -> (1 <= q -> length r - q + 1 <= f) ->
  canon_walk f P (node r q) = Some (hd 0 r).
Proof.
  intros Hok Hnd Hdom. destruct r as [|c ms]; [contradiction|].
  destruct Hok as (Hc & Hms & Hl & _).
  induction f as [|f IH]; intros q Hq H0 H1.
  - destruct q; [specialize (H0 eq_refl)|]; lia.
  - destruct q as [|q].
    + cbn [canon_walk]. rewrite node_head. unfold get in Hc.
      destruct (P !! c) as [rc|]; [|discriminate]. simpl in Hc. rewrite Hc. reflexivity.
    + simpl in Hq.
      assert (Hx : (c :: ms) !! S q = Some (node (c :: ms) (S q))).
      { unfold node. destruct ((c :: ms) !! S q) eqn:E; [reflexivity|].
        apply lookup_ge_None_1 in E. simpl in E. lia. }
      assert (Hm : str_canon (get P (node (c :: ms) (S q))) = false).
      { rewrite Forall_forall in Hms. apply Hms. simpl in Hx. apply list_elem_of_lookup_2 in Hx. exact Hx. }
      specialize (Hl _ _ Hx).
      simpl. unfold get in Hm, Hl.
      destruct (P !! node (c :: ms) (S q)) as [rx|] eqn:Hrx.
      * simpl in Hm, Hl. rewrite Hm. rewrite Hl.
        destruct (decide (S (S q) = length (c :: ms))) as [Heq|Hne].
        -- rewrite Heq, node_end. simpl. destruct f; [simpl in H1; lia|].
           simpl. destruct (P !! c) as [rc|] eqn:Hpc; [|unfold get in Hc; rewrite Hpc in Hc; discriminate].
           unfold get in Hc. rewrite Hpc in Hc. simpl in Hc. rewrite Hc. reflexivity.
        -- apply IH; simpl in *; lia.
      * exfalso. assert (Hs : is_Some (P !! node (c :: ms) (S q))).
        { apply Hdom. apply list_elem_of_lookup_2 in Hx. exact Hx. }
        rewrite Hrx in Hs. destruct Hs as [? Hs]. discriminate.
Qed.

Section WithInv.
Variable st : interner.
Variable rings : list (list nat).
Hypothesis HI : interner_inv fold hash_folded FHCS st rings.

Lemma inv_ring_of x : is_Some (strings st !! x) -> exists r, r ∈ rings /\ x ∈ r.
Proof.
  intros Hx. apply (inv_dom _ _ _ _ _ HI) in Hx.
  apply list_elem_of_In, in_concat in Hx as (r & Hr & Hx).
  exists r. split; apply list_elem_of_In; assumption.
Qed.

Lemma inv_ring_ok r : r ∈ rings -> ring_ok fold (strings st) r.
Proof. intros Hr. pose proof (inv_rings _ _ _ _ _ HI) as H. rewrite Forall_forall in H. auto. Qed.

Lemma inv_ring_dom r x : r ∈ rings -> x ∈ r -> is_Some (strings st !! x).
Proof.
  intros Hr Hx. apply (inv_dom _ _ _ _ _ HI).
  apply list_elem_of_In, in_concat. exists r. split; apply list_elem_of_In; assumption.
Qed.

Lemma inv_ring_nodup r : r ∈ rings -> NoDup r.
Proof.
  intros Hr. pose proof (inv_nodup _ _ _ _ _ HI) as Hnd.
  apply list_elem_of_split in Hr as (l1 & l2 & ->).
  rewrite concat_app in Hnd. apply NoDup_app in Hnd as (_ & _ & Hnd).
  simpl in Hnd. apply NoDup_app in Hnd as (Hnd & _). exact Hnd.
Qed.

Lemma inv_ring_length r : r ∈ rings -> length r <= next_node st.
Proof.
  intros Hr. apply NoDup_bounded_length; [apply inv_ring_nodup; exact Hr|].
  intros x Hx. apply (inv_fresh _ _ _ _ _ HI). eapply inv_ring_dom; eauto.
Qed.

Lemma inv_STR_CANON r x : r ∈ rings -> x ∈ r -> STR_CANON st x = Some (hd 0 r).
Proof.
  intros Hr Hx. apply list_elem_of_lookup_1 in Hx as [q Hq].
  assert (Hn : node r q = x) by (unfold node; rewrite Hq; reflexivity).
  pose proof (lookup_lt_Some _ _ _ Hq) as Hlt.
  pose proof (inv_ring_length r Hr) as Hlen.
  unfold STR_CANON. rewrite <- Hn.
  apply canon_walk_ring; try lia.
  - apply inv_ring_ok; exact Hr.
  - apply inv_ring_nodup; exact Hr.
  - intros y Hy. eapply inv_ring_dom; eauto.
Qed.

Lemma inv_ring_fold r x : r ∈ rings -> x ∈ r ->
  fold (str_utf8 (get (strings st) x)) = canon_fold fold (strings st) (hd 0 r).
Proof.
  intros Hr Hx. pose proof (inv_ring_ok r Hr) as Hok.
  destruct r as [|c ms]; [contradiction|].
  destruct Hok as (_ & _ & _ & Hf & _). rewrite Forall_forall in Hf. apply Hf. exact Hx.
Qed.

Lemma inv_ring_symbol r x : r ∈ rings -> x ∈ r ->
  str_symbol (get (strings st) x) = str_symbol (get (strings st) (hd 0 r)).
Proof.
  intros Hr Hx. pose proof (inv_ring_ok r Hr) as Hok.
  destruct r as [|c ms]; [contradiction|].
  destruct Hok as (_ & _ & _ & _ & Hs & _). rewrite Forall_forall in Hs. apply Hs. exact Hx.
Qed.

Lemma inv_head_in_table r : r ∈ rings -> hd 0 r ∈ table_canons (PG_Canons_By_Hash st).
Proof.
  intros Hr. rewrite (inv_heads _ _ _ _ _ HI). apply list_elem_of_fmap_2. exact Hr.
Qed.

Lemma inv_same_fold r1 r2 : r1 ∈ rings -> r2 ∈ rings ->
  canon_fold fold (strings st) (hd 0 r1) = canon_fold fold (strings st) (hd 0 r2) -> r1 = r2.
Proof.
  intros H1 H2 Hf.
  assert (Hh : hd 0 r1 = hd 0 r2).
  { eapply NoDup_map_inj_in; [apply (inv_folds _ _ _ _ _ HI)| | |exact Hf];
      apply inv_head_in_table; assumption. }
  pose proof (inv_ring_ok r1 H1) as Hok1. pose proof (inv_ring_ok r2 H2) as Hok2.
  apply (NoDup_concat_same rings r1 r2 (hd 0 r1)); [apply (inv_nodup _ _ _ _ _ HI)|exact H1|exact H2| |].
  - destruct r1; [contradiction|]. left.
  - rewrite Hh. destruct r2; [contradiction|]. left.
Qed.

Lemma inv_utf8_unique x y : is_Some (strings st !! x) -> is_Some (strings st !! y) ->
  str_utf8 (get (strings st) x) = str_utf8 (get (strings st) y) -> x = y.
Proof.
  intros Hx Hy Hu.
  destruct (inv_ring_of x Hx) as (rx & Hrx & Hxr).
  destruct (inv_ring_of y Hy) as (ry & Hry & Hyr).
  assert (rx = ry) as <-.
  { apply inv_same_fold; auto.
    rewrite <- (inv_ring_fold rx x), <- (inv_ring_fold ry y) by assumption.
    rewrite Hu. reflexivity. }
  pose proof (inv_ring_ok rx Hrx) as Hok.
  destruct rx as [|c ms]; [contradiction|].
  destruct Hok as (_ & _ & _ & _ & _ & Hnd).
  eapply NoDup_map_inj_in; eauto.
Qed.

End WithInv.

Lemma ring_ok_ext P P' r : (forall x, x ∈ r -> get P' x = get P x) ->
  ring_ok fold P r -> ring_ok fold P' r.
Proof.
  intros Heq Hok. destruct r as [|c ms]; [contradiction|].
  destruct Hok as (Hc & Hms & Hl & Hf & Hs & Hnd).
  assert (Hcc : get P' c = get P c) by (apply Heq; left).
  split; [rewrite Hcc; exact Hc|].
  split; [rewrite Forall_forall in *; intros m Hm; rewrite Heq by (right; exact Hm); auto|].
  split; [intros i x Hx; rewrite Heq by (eapply list_elem_of_lookup_2; eauto); eauto|].
  split; [rewrite Forall_forall in *; intros x Hx; rewrite Heq, Hcc by assumption; auto|].
  split; [rewrite Forall_forall in *; intros x Hx; rewrite Heq, Hcc by assumption; auto|].
  erewrite map_ext_in; [exact Hnd|]. intros x Hx.
  rewrite Heq; [reflexivity|]. apply list_elem_of_In; exact Hx.
Qed.

Lemma table_canons_cons v T : table_canons (v :: T) = slot_canons v ++ table_canons T.
Proof. destruct v; reflexivity. Qed.

Lemma count_deleted_cons v T : count_deleted (v :: T) = slot_del v + count_deleted T.
Proof. destruct v; reflexivity. Qed.

Lemma table_canons_split T p v : T !! p = Some v ->
  table_canons T ≡ₚ slot_canons v ++ table_canons (<[p:=Vacant]> T).
Proof.
  revert p. induction T as [|x T IH]; intros p Hp; [discriminate|].
  destruct p as [|p]; simpl in Hp.
  - injection Hp as ->. change (<[0:=Vacant]> (v :: T)) with (Vacant :: T).
    rewrite !table_canons_cons. reflexivity.
  - change (<[S p:=Vacant]> (x :: T)) with (x :: <[p:=Vacant]> T).
    rewrite !table_canons_cons, (IH p Hp).
    rewrite !app_assoc, (Permutation_app_comm (slot_canons x) (slot_canons v)). reflexivity.
Qed.

Lemma count_deleted_split T p v : T !! p = Some v ->
  count_deleted T = slot_del v + count_deleted (<[p:=Vacant]> T).
Proof.
  revert p. induction T as [|x T IH]; intros p Hp; [discriminate|].
  destruct p as [|p]; simpl in Hp.
  - injection Hp as ->. change (<[0:=Vacant]> (v :: T)) with (Vacant :: T).
    rewrite !count_deleted_cons. reflexivity.
  - change (<[S p:=Vacant]> (x :: T)) with (x :: <[p:=Vacant]> T).
    rewrite !count_deleted_cons, (IH p Hp). lia.
Qed.

Lemma table_canons_insert T p w : p < length T ->
  table_canons (<[p:=w]> T) ≡ₚ slot_canons w ++ table_canons (<[p:=Vacant]> T).
Proof.
  intros Hp. rewrite (table_canons_split (<[p:=w]> T) p w) by (apply list_lookup_insert_eq; exact Hp).
  rewrite list_insert_insert_eq. reflexivity.
Qed.

Lemma count_deleted_insert T p w : p < length T ->
  count_deleted (<[p:=w]> T) = slot_del w + count_deleted (<[p:=Vacant]> T).
Proof.
  intros Hp. rewrite (count_deleted_split (<[p:=w]> T) p w) by (apply list_lookup_insert_eq; exact Hp).
  rewrite list_insert_insert_eq. reflexivity.
Qed.

Lemma table_canon_elem T i c : T !! i = Some (Canon c) -> c ∈ table_canons T.
Proof.
  intros H. rewrite (table_canons_split T i _ H). simpl. left.
Qed.

Lemma inv_table_canon_ring st rings c :
  interner_inv fold hash_folded FHCS st rings ->
  c ∈ table_canons (PG_Canons_By_Hash st) -> exists r, r ∈ rings /\ hd 0 r = c /\ c ∈ r.
Proof.
  intros HI Hc. rewrite (inv_heads _ _ _ _ _ HI) in Hc.
  apply list_elem_of_fmap in Hc as (r & -> & Hr). exists r. split; [exact Hr|]. split; [reflexivity|].
  pose proof (inv_ring_ok st rings HI r Hr) as Hok. destruct r; [contradiction|]. left.
Qed.

Lemma inv_table_canon_dom st rings c :
  interner_inv fold hash_folded FHCS st rings ->
  c ∈ table_canons (PG_Canons_By_Hash st) -> is_Some (strings st !! c).
Proof.
  intros HI Hc. destruct (inv_table_canon_ring st rings c HI Hc) as (r & Hr & _ & Hcr).
  eapply inv_ring_dom; eauto.
Qed.

Lemma path_insert_nonvacant (T : list canon_slot) p w (pos : nat -> nat) k :
  w <> Vacant ->
  (forall j, j < k -> exists v, T !! pos j = Some v /\ v <> Vacant) ->
  forall j, j < k -> exists v, <[p:=w]> T !! pos j = Some v /\ v <> Vacant.
Proof.
  intros Hw Hpath j Hj. destruct (Hpath j Hj) as (v & Hv & Hnv).
  destruct (decide (p = pos j)) as [Heq|Hne].
  - exists w. split; [|exact Hw]. rewrite Heq. apply list_lookup_insert_eq.
    apply lookup_lt_Some in Hv. exact Hv.
  - exists v. rewrite list_lookup_insert_ne by exact Hne. auto.
Qed.

Lemma install_canon_inv st rings u p k s0 skip in_use' del' :
  interner_inv fold hash_folded FHCS st rings ->
  FHCS (Hash_UTF8 fold hash_folded u) (length (PG_Canons_By_Hash st)) = (s0, skip) ->
  (forall c, c ∈ table_canons (PG_Canons_By_Hash st) -> canon_fold fold (strings st) c <> fold u) ->
  k < length (PG_Canons_By_Hash st) ->
  probe_pos (length (PG_Canons_By_Hash st)) skip s0 k = p ->
  (forall j, j < k -> exists v,
      PG_Canons_By_Hash st !! probe_pos (length (PG_Canons_By_Hash st)) skip s0 j = Some v /\ v <> Vacant) ->
  (PG_Canons_By_Hash st !! p = Some Vacant \/ PG_Canons_By_Hash st !! p = Some DELETED_CANON) ->
  in_use' = length (table_canons (<[p:=Canon (next_node st)]> (PG_Canons_By_Hash st)))
            + count_deleted (<[p:=Canon (next_node st)]> (PG_Canons_By_Hash st)) ->
  del' = count_deleted (<[p:=Canon (next_node st)]> (PG_Canons_By_Hash st)) ->
  interner_inv fold hash_folded FHCS
    (mk_interner (<[p:=Canon (next_node st)]> (PG_Canons_By_Hash st)) in_use' del'
       (<[next_node st := mk_REBSTR u true (next_node st) 0]> (strings st)) (S (next_node st)))
    ([next_node st] :: rings).
Proof.
  intros HI Hfs Hnofold Hk Hp Hpath Hfree Hin Hdel.
  destruct st as [T in_use del P id]. simpl in *.
  set (P' := <[id:=mk_REBSTR u true id 0]> P).
  assert (Hfresh : P !! id = None).
  { destruct (P !! id) eqn:E; [|reflexivity]. exfalso.
    assert (id < id); [|lia]. apply (inv_fresh _ _ _ _ _ HI). simpl. rewrite E. eauto. }
  assert (Hne : forall x, is_Some (P !! x) -> x <> id).
  { intros x Hx ->. rewrite Hfresh in Hx. destruct Hx; discriminate. }
  assert (Hget : forall x, x <> id -> get P' x = get P x).
  { intros x Hx. unfold get, P'. rewrite lookup_insert_ne by congruence. reflexivity. }
  assert (Hgetid : get P' id = mk_REBSTR u true id 0).
  { unfold get, P'. rewrite lookup_insert_eq. reflexivity. }
  assert (HpT : p < length T) by (destruct Hfree as [H|H]; apply lookup_lt_Some in H; exact H).
  assert (Htc : table_canons (<[p:=Canon id]> T) ≡ₚ id :: table_canons T).
  { rewrite table_canons_insert by exact HpT.
    destruct Hfree as [H|H]; rewrite (table_canons_split T p _ H); reflexivity. }
  assert (HtcP : forall c, c ∈ table_canons T -> c <> id).
  { intros c Hc. apply Hne. exact (inv_table_canon_dom _ _ c HI Hc). }
  constructor; simpl.
  - constructor.
    + unfold ring_ok.
      split; [rewrite Hgetid; reflexivity|]. split; [constructor|].
      split; [intros [|i] x Hx; [injection Hx as <-; rewrite Hgetid; reflexivity|destruct i; discriminate]|].
      split; [constructor; [reflexivity|constructor]|].
      split; [constructor; [reflexivity|constructor]|].
      apply NoDup_singleton.
    + rewrite Forall_forall. intros r Hr. apply (ring_ok_ext P); [|exact (inv_ring_ok _ _ HI r Hr)].
      intros x Hx. apply Hget, Hne. exact (inv_ring_dom _ _ HI r x Hr Hx).
  - apply NoDup_cons. split; [|exact (inv_nodup _ _ _ _ _ HI)].
    intros H. apply (inv_dom _ _ _ _ _ HI) in H. simpl in H. rewrite Hfresh in H. destruct H; discriminate.
  - intros x. unfold P'. destruct (decide (x = id)) as [->|Hx].
    + rewrite lookup_insert_eq. split; [intros _; left|eauto].
    + rewrite lookup_insert_ne by congruence. rewrite (inv_dom _ _ _ _ _ HI x). simpl.
      rewrite elem_of_cons. split; [intros; right; auto|intros [->|H]; [contradiction|exact H]].
  - intros x Hx. destruct (decide (x = id)) as [->|Hxi]; [lia|].
    unfold P' in Hx. rewrite lookup_insert_ne in Hx by congruence.
    apply (inv_fresh _ _ _ _ _ HI) in Hx. simpl in Hx. lia.
  - rewrite Htc. simpl. apply perm_skip. exact (inv_heads _ _ _ _ _ HI).
  - assert (Hm : map (canon_fold fold P') (table_canons (<[p:=Canon id]> T))
                 ≡ₚ map (canon_fold fold P') (id :: table_canons T)) by (apply Permutation_map; exact Htc).
    rewrite Hm. simpl.
    assert (He : map (canon_fold fold P') (table_canons T) = map (canon_fold fold P) (table_canons T)).
    { apply map_ext_in. intros c Hc. unfold canon_fold. rewrite Hget; [reflexivity|].
      apply HtcP, list_elem_of_In. exact Hc. }
    rewrite He. apply NoDup_cons. split; [|exact (inv_folds _ _ _ _ _ HI)].
    intros Hin'. apply list_elem_of_In, in_map_iff in Hin' as (c & Hc & Hin').
    apply (Hnofold c); [apply list_elem_of_In; exact Hin'|].
    rewrite Hc. unfold canon_fold. rewrite Hgetid. reflexivity.
  - intros i c Hi. unfold slot_path_ok. rewrite length_insert.
    destruct (decide (i = p)) as [->|Hip].
    + rewrite list_lookup_insert_eq in Hi by exact HpT. injection Hi as <-.
      rewrite Hgetid. unfold Hash_String. simpl. rewrite Hfs. simpl.
      exists k. split; [exact Hk|]. split; [exact Hp|].
      apply path_insert_nonvacant; [discriminate|exact Hpath].
    + rewrite list_lookup_insert_ne in Hi by congruence.
      assert (Hci : c <> id) by (apply HtcP; eapply table_canon_elem; eauto).
      rewrite Hget by exact Hci.
      pose proof (inv_paths _ _ _ _ _ HI i c Hi) as Hpo. unfold slot_path_ok in Hpo. simpl in Hpo.
      destruct Hpo as (k' & Hk' & Hp' & Hpath').
      exists k'. split; [exact Hk'|]. split; [exact Hp'|].
      apply path_insert_nonvacant; [discriminate|exact Hpath'].
  - exact Hin.
  - exact Hdel.
Qed.

Lemma node_insert_second c id ms q :
  node (c :: id :: ms) (S (S q)) = node (c :: ms) (S q).
Proof. reflexivity. Qed.

Lemma install_synonym_inv st l1 l2 c ms rc u :
  interner_inv fold hash_folded FHCS st (l1 ++ (c :: ms) :: l2) ->
  strings st !! c = Some rc ->
  fold u = fold (str_utf8 rc) ->
  (forall x, x ∈ c :: ms -> str_utf8 (get (strings st) x) <> u) ->
  interner_inv fold hash_folded FHCS (new_synonym st c rc u)
    (l1 ++ (c :: next_node st :: ms) :: l2).
Proof.
  intros HI Hc Hfu Hnu.
  set (rings := l1 ++ (c :: ms) :: l2) in HI.
  assert (Hr : (c :: ms) ∈ rings) by (apply elem_of_app; right; left).
  destruct st as [T in_use del P id]. unfold new_synonym. simpl in *.
  set (newr := mk_REBSTR u false (str_synonym rc) (str_symbol rc)).
  set (P' := <[c:=set_synonym rc id]> (<[id:=newr]> P)).
  assert (Hfresh : P !! id = None).
  { destruct (P !! id) eqn:E; [|reflexivity]. exfalso.
    assert (id < id); [|lia]. apply (inv_fresh _ _ _ _ _ HI). simpl. rewrite E. eauto. }
  assert (Hne : forall x, is_Some (P !! x) -> x <> id).
  { intros x Hx ->. rewrite Hfresh in Hx. destruct Hx; discriminate. }
  assert (Hcid : c <> id) by (apply Hne; rewrite Hc; eauto).
  assert (Hgc : get P' c = set_synonym rc id).
  { unfold get, P'. rewrite lookup_insert_eq. reflexivity. }
  assert (Hgid : get P' id = newr).
  { unfold get, P'. rewrite lookup_insert_ne by congruence. rewrite lookup_insert_eq. reflexivity. }
  assert (Hgx : forall x, x <> c -> x <> id -> get P' x = get P x).
  { intros x H1 H2. unfold get, P'. rewrite !lookup_insert_ne by congruence. reflexivity. }
  assert (HgPc : get P c = rc) by (unfold get; rewrite Hc; reflexivity).
  assert (Hutf : forall x, x <> id -> str_utf8 (get P' x) = str_utf8 (get P x)).
  { intros x Hx. destruct (decide (x = c)) as [->|Hxc]; [rewrite Hgc, HgPc; reflexivity|].
    rewrite Hgx by assumption. reflexivity. }
  pose proof (inv_nodup _ _ _ _ _ HI) as Hnd. unfold rings in Hnd.
  rewrite concat_app in Hnd. simpl in Hnd.
  apply NoDup_app in Hnd as (Hnd1 & Hdis1 & Hnd2).
  apply NoDup_cons in Hnd2 as (Hcnot & Hnd2).
  apply NoDup_app in Hnd2 as (Hndms & Hdis2 & Hndl2).
  assert (Hcl1 : c ∉ concat l1).
  { intros H. apply (Hdis1 c H). apply elem_of_cons. left. reflexivity. }
  assert (Hcl2 : c ∉ concat l2).
  { intros H. apply Hcnot. apply elem_of_app. right. exact H. }
  assert (Hidr : forall x, x ∈ concat rings -> x <> id).
  { intros x Hx. apply Hne. apply (inv_dom _ _ _ _ _ HI). exact Hx. }
  assert (Hothers : forall r x, r ∈ l1 ++ l2 -> x ∈ r -> x <> c /\ x <> id).
  { intros r x Hr' Hx. split.
    - intros ->. apply elem_of_app in Hr' as [H|H].
      + apply Hcl1. apply list_elem_of_In, in_concat. exists r. split; apply list_elem_of_In; assumption.
      + apply Hcl2. apply list_elem_of_In, in_concat. exists r. split; apply list_elem_of_In; assumption.
    - apply Hidr. apply list_elem_of_In, in_concat. exists r. split; apply list_elem_of_In; [|exact Hx].
      unfold rings. apply elem_of_app in Hr' as [H|H]; apply elem_of_app; [left; exact H|right; right; exact H]. }
  assert (Hms : forall x, x ∈ ms -> x <> c /\ x <> id).
  { intros x Hx. split; [intros ->; apply Hcnot, elem_of_app; left; exact Hx|].
    apply Hidr. apply list_elem_of_In, in_concat. exists (c :: ms).
    split; apply list_elem_of_In; [exact Hr|right; exact Hx]. }
  pose proof (inv_ring_ok _ _ HI _ Hr) as Hok. unfold ring_ok in Hok. cbn [strings] in Hok.
  destruct Hok as (Hcc & Hmsnc & Hl & Hf & Hs & Hndu).
  rewrite HgPc in Hcc. simpl in Hndu. rewrite HgPc in Hndu.
  constructor; simpl.
  - apply Forall_app. pose proof (inv_rings _ _ _ _ _ HI) as Hall. unfold rings in Hall.
    apply Forall_app in Hall as (Hall1 & Hall2). apply Forall_cons in Hall2 as [_ Hall3].
    split; [|constructor].
    + rewrite Forall_forall in *. intros r Hr'. apply (ring_ok_ext P); [|auto].
      intros x Hx. destruct (Hothers r x) as [H1 H2]; [apply elem_of_app; left; exact Hr'|exact Hx|].
      apply Hgx; assumption.
    + split; [rewrite Hgc; exact Hcc|].
      split.
      { constructor; [rewrite Hgid; reflexivity|]. rewrite Forall_forall in *. intros m Hm.
        destruct (Hms m Hm). rewrite Hgx by assumption. auto. }
      split.
      { intros [|[|i]] x Hx.
        - injection Hx as <-. rewrite Hgc. reflexivity.
        - injection Hx as <-. rewrite Hgid. simpl.
          specialize (Hl 0 c eq_refl). rewrite HgPc in Hl. rewrite Hl. destruct ms; reflexivity.
        - simpl in Hx. rewrite node_insert_second.
          assert (Hxm : x ∈ ms) by (eapply list_elem_of_lookup_2; eauto).
          destruct (Hms x Hxm). rewrite Hgx by assumption. apply (Hl (S i)). exact Hx. }
      split.
      { rewrite Forall_forall in *. intros x Hx. rewrite Hgc. simpl.
        apply elem_of_cons in Hx as [->|Hx]; [rewrite Hgc; reflexivity|].
        apply elem_of_cons in Hx as [->|Hx]; [rewrite Hgid; exact Hfu|].
        destruct (Hms x Hx). rewrite Hgx by assumption. rewrite Hf by (right; exact Hx).
        rewrite HgPc. reflexivity. }
      split.
      { rewrite Forall_forall in *. intros x Hx. rewrite Hgc. simpl.
        apply elem_of_cons in Hx as [->|Hx]; [rewrite Hgc; reflexivity|].
        apply elem_of_cons in Hx as [->|Hx]; [rewrite Hgid; reflexivity|].
        destruct (Hms x Hx). rewrite Hgx by assumption. rewrite Hs by (right; exact Hx).
        rewrite HgPc. reflexivity. }
      { simpl. rewrite Hgc, Hgid. simpl.
        assert (Hmap : map (fun x => str_utf8 (get P' x)) ms = map (fun x => str_utf8 (get P x)) ms).
        { apply map_ext_in. intros x Hx. apply list_elem_of_In in Hx. destruct (Hms x Hx).
          rewrite Hgx by assumption. reflexivity. }
        rewrite Hmap. simpl in Hndu. apply NoDup_cons in Hndu as (Hn1 & Hn2).
        apply NoDup_cons. split.
        - intros H. apply elem_of_cons in H as [H|H].
          + apply (Hnu c); [left|]. rewrite HgPc. exact H.
          + apply Hn1. exact H.
        - apply NoDup_cons. split; [|exact Hn2].
          intros H. apply list_elem_of_In, in_map_iff in H as (x & Hx & Hin).
          apply (Hnu x); [right; apply list_elem_of_In; exact Hin|exact Hx]. }
    + rewrite Forall_forall in *. intros r Hr'. apply (ring_ok_ext P); [|auto].
      intros x Hx. destruct (Hothers r x) as [H1 H2]; [apply elem_of_app; right; exact Hr'|exact Hx|].
      apply Hgx; assumption.
  - rewrite concat_app. simpl.
    assert (Hperm : concat l1 ++ c :: id :: ms ++ concat l2 ≡ₚ id :: (concat l1 ++ c :: ms ++ concat l2)).
    { rewrite (Permutation_middle (concat l1) (c :: ms ++ concat l2) id).
      apply Permutation_app_head. apply perm_swap. }
    rewrite Hperm. apply NoDup_cons. split.
    + intros H. refine (Hidr id _ eq_refl). unfold rings. rewrite concat_app. exact H.
    + pose proof (inv_nodup _ _ _ _ _ HI) as Hnd'. unfold rings in Hnd'. rewrite concat_app in Hnd'.
      exact Hnd'.
  - intros x. unfold P'. rewrite concat_app. simpl.
    destruct (decide (x = c)) as [->|Hxc].
    + rewrite lookup_insert_eq. split; [intros _|intros _; eauto].
      apply elem_of_app. right. left.
    + rewrite lookup_insert_ne by congruence.
      destruct (decide (x = id)) as [->|Hxi].
      * rewrite lookup_insert_eq. split; [intros _|intros _; eauto].
        apply elem_of_app. right. right. left.
      * rewrite lookup_insert_ne by congruence. rewrite (inv_dom _ _ _ _ _ HI x). unfold rings.
        rewrite concat_app. simpl. rewrite !elem_of_app, !elem_of_cons.
        split; [intros [H|[H|H]]; auto|intros [H|[H|[H|H]]]; auto; contradiction].
  - intros x Hx. unfold P' in Hx. destruct (decide (x = c)) as [->|Hxc].
    + pose proof (inv_fresh _ _ _ _ _ HI c) as H. simpl in H. rewrite Hc in H. specialize (H ltac:(eauto)). lia.
    + rewrite lookup_insert_ne in Hx by congruence. destruct (decide (x = id)) as [->|Hxi]; [lia|].
      rewrite lookup_insert_ne in Hx by congruence. apply (inv_fresh _ _ _ _ _ HI) in Hx. simpl in Hx. lia.
  - rewrite (inv_heads _ _ _ _ _ HI). unfold rings. rewrite !map_app. reflexivity.
  - assert (Hm : map (canon_fold fold P') (table_canons T) = map (canon_fold fold P) (table_canons T)).
    { apply map_ext_in. intros t Ht. unfold canon_fold. rewrite Hutf; [reflexivity|].
      apply Hne. apply (inv_table_canon_dom _ _ t HI). apply list_elem_of_In. exact Ht. }
    rewrite Hm. exact (inv_folds _ _ _ _ _ HI).
  - intros i t Hi. pose proof (inv_paths _ _ _ _ _ HI i t Hi) as Hpo.
    unfold slot_path_ok, Hash_String in *. simpl in *. rewrite Hutf; [exact Hpo|].
    apply Hne. apply (inv_table_canon_dom _ _ t HI). eapply table_canon_elem; eauto.
  - exact (inv_in_use _ _ _ _ _ HI).
  - exact (inv_deleteds _ _ _ _ _ HI).
Qed.

Lemma table_canons_lookup T c : c ∈ table_canons T -> exists i, T !! i = Some (Canon c).
Proof.
  induction T as [|v T IH]; intros Hc; [inversion Hc|].
  rewrite table_canons_cons in Hc. apply elem_of_app in Hc as [Hc|Hc].
  - destruct v; simpl in Hc; try (inversion Hc; fail).
    apply list_elem_of_singleton in Hc as ->. exists 0. reflexivity.
  - destruct (IH Hc) as [i Hi]. exists (S i). exact Hi.
Qed.

Lemma repeat_vacant_lookup n i v : repeat Vacant n !! i = Some v -> v = Vacant.
Proof.
  revert i. induction n as [|n IH]; intros i Hi; [discriminate|].
  destruct i; simpl in Hi; [congruence|eauto].
Qed.

Lemma repeat_vacant_canons n : table_canons (repeat Vacant n) = [].
Proof. induction n; simpl; auto. Qed.

Lemma repeat_vacant_deleted n : count_deleted (repeat Vacant n) = 0.
Proof. induction n; simpl; auto. Qed.

Lemma find_vacant_sound (T : list canon_slot) (n skip s0 : nat) :
  forall f j0 i,
  find_vacant f n skip (probe_pos n skip s0 j0) T = Some i ->
  (forall j, j < j0 -> exists v, T !! probe_pos n skip s0 j = Some v /\ v <> Vacant) ->
  exists k, j0 <= k < j0 + f /\ probe_pos n skip s0 k = i /\ T !! i = Some Vacant /\
    forall j, j < k -> exists v, T !! probe_pos n skip s0 j = Some v /\ v <> Vacant.
Proof.
  induction f as [|f IH]; intros j0 i Hf Hpath; [discriminate|].
  simpl in Hf. destruct (T !! probe_pos n skip s0 j0) as [v|] eqn:Hv; [|discriminate].
  destruct v.
  - injection Hf as <-. exists j0. split; [lia|]. auto.
  - change (next_slot n skip (probe_pos n skip s0 j0)) with (probe_pos n skip s0 (S j0)) in Hf.
    destruct (IH (S j0) i Hf) as (k & Hk & Hrest).
    + intros j Hj. destruct (decide (j = j0)) as [->|]; [exists DELETED_CANON; split; [exact Hv|discriminate]|].
      apply Hpath. lia.
    + exists k. split; [lia|]. exact Hrest.
  - change (next_slot n skip (probe_pos n skip s0 j0)) with (probe_pos n skip s0 (S j0)) in Hf.
    destruct (IH (S j0) i Hf) as (k & Hk & Hrest).
    + intros j Hj. destruct (decide (j = j0)) as [->|]; [exists (Canon s); split; [exact Hv|discriminate]|].
      apply Hpath. lia.
    + exists k. split; [lia|]. exact Hrest.
Qed.

Lemma rehash_sound P N :
  forall O T in_use del T' in_use' del',
  rehash fold hash_folded FHCS P N O T in_use del = Some (T', in_use', del') ->
  rehash_ok P N T ->
  rehash_ok P N T' /\ table_canons T' ≡ₚ table_canons T ++ table_canons O /\
  in_use' = in_use - count_deleted O /\ del' = del - count_deleted O.
Proof.
  induction O as [|v O IH]; intros T in_use del T' in_use' del' Hr Hok.
  - simpl in Hr. injection Hr as <- <- <-. simpl. rewrite app_nil_r. split; [exact Hok|]. split; [reflexivity|]. lia.
  - destruct v as [| |c]; simpl in Hr.
    + destruct (IH _ _ _ _ _ _ Hr Hok) as (Hok' & Hp & Hu & Hd). split; [exact Hok'|].
      split; [exact Hp|]. simpl. lia.
    + destruct (IH _ _ _ _ _ _ Hr Hok) as (Hok' & Hp & Hu & Hd). split; [exact Hok'|].
      split; [exact Hp|]. simpl. lia.
    + destruct (P !! c) as [rc|] eqn:Hc; [|discriminate].
      destruct (FHCS (Hash_String fold hash_folded rc) N) as [s0 skip] eqn:Hfs.
      destruct (find_vacant N N skip s0 T) as [i|] eqn:Hfv; [|discriminate].
      destruct Hok as (Hlen & Hdel & Hpaths).
      destruct (find_vacant_sound T N skip s0 N 0 i Hfv) as (k & Hk & Hpk & Hvi & Hpath);
        [intros j Hj; lia|].
      assert (HiT : i < length T) by (apply lookup_lt_Some in Hvi; exact Hvi).
      assert (Hid : <[i:=Vacant]> T = T) by (apply list_insert_id'; auto).
      assert (Hok2 : rehash_ok P N (<[i:=Canon c]> T)).
      { split; [rewrite length_insert; exact Hlen|].
        split; [rewrite count_deleted_insert by exact HiT; rewrite Hid; simpl; exact Hdel|].
        intros i' c' Hi'. unfold slot_path_ok. rewrite length_insert.
        destruct (decide (i' = i)) as [->|Hne].
        - rewrite list_lookup_insert_eq in Hi' by exact HiT. injection Hi' as <-.
          assert (Hg : get P c = rc) by (unfold get; rewrite Hc; reflexivity).
          rewrite Hg, Hlen, Hfs. simpl. exists k. split; [lia|]. split; [exact Hpk|].
          apply path_insert_nonvacant; [discriminate|exact Hpath].
        - rewrite list_lookup_insert_ne in Hi' by congruence.
          pose proof (Hpaths i' c' Hi') as Hpo. unfold slot_path_ok in Hpo.
          destruct Hpo as (k' & Hk' & Hp' & Hpath').
          exists k'. split; [exact Hk'|]. split; [exact Hp'|].
          apply path_insert_nonvacant; [discriminate|exact Hpath']. }
      destruct (IH _ _ _ _ _ _ Hr Hok2) as (Hok' & Hp & Hu & Hd).
      split; [exact Hok'|]. split; [|simpl; lia].
      rewrite Hp, table_canons_insert by exact HiT. rewrite Hid. simpl.
      rewrite <- Permutation_middle. reflexivity.
Qed.

Lemma Expand_Word_Table_inv st rings st' :
  interner_inv fold hash_folded FHCS st rings ->
  Expand_Word_Table fold hash_folded FHCS st = Ok st' ->
  interner_inv fold hash_folded FHCS st' rings /\ strings st' = strings st /\
  next_node st' = next_node st.
Proof.
  intros HI He. unfold Expand_Word_Table in He.
  destruct (N.eqb _ 0) eqn:Hz; [discriminate|].
  set (n := N.to_nat (to_REBCNT (Get_Hash_Prime (N.of_nat (length (PG_Canons_By_Hash st)) + 1)))) in He.
  destruct (rehash _ _ _ _ _ _ _ _ _) as [[[T' in_use'] del']|] eqn:Hr; [|discriminate].
  injection He as <-. simpl.
  destruct (rehash_sound _ _ _ _ _ _ _ _ _ Hr) as (Hok & Hp & Hu & Hd).
  { split; [apply repeat_length|]. split; [apply repeat_vacant_deleted|].
    intros i c Hi. apply repeat_vacant_lookup in Hi. discriminate. }
  rewrite repeat_vacant_canons in Hp. simpl in Hp.
  destruct Hok as (Hlen & Hdel & Hpaths).
  split; [|split; reflexivity].
  constructor; simpl.
  - exact (inv_rings _ _ _ _ _ HI).
  - exact (inv_nodup _ _ _ _ _ HI).
  - exact (inv_dom _ _ _ _ _ HI).
  - exact (inv_fresh _ _ _ _ _ HI).
  - rewrite Hp. exact (inv_heads _ _ _ _ _ HI).
  - assert (Hm : map (canon_fold fold (strings st)) (table_canons T')
                 ≡ₚ map (canon_fold fold (strings st)) (table_canons (PG_Canons_By_Hash st)))
      by (apply Permutation_map; exact Hp).
    rewrite Hm. exact (inv_folds _ _ _ _ _ HI).
  - exact Hpaths.
  - rewrite Hu, (inv_in_use _ _ _ _ _ HI), (Permutation_length Hp), Hdel. lia.
  - rewrite Hd, (inv_deleteds _ _ _ _ _ HI), Hdel. lia.
Qed.

Lemma walk_synonyms_found P c u :
  forall f y s, walk_synonyms fold f P c y u = Some (Some s) ->
  is_Some (P !! s) /\ str_utf8 (get P s) = u.
Proof.
  induction f as [|f IH]; intros y s Hw; [discriminate|].
  simpl in Hw. destruct (Nat.eqb y c); [discriminate|].
  destruct (P !! y) as [ry|] eqn:Hy; [|discriminate].
  destruct (Z.eqb (Compare_UTF8 fold (str_utf8 ry) u) 0) eqn:Hcmp.
  - injection Hw as <-. split; [eauto|]. unfold get. rewrite Hy. simpl.
    apply Z.eqb_eq in Hcmp.
    destruct (Compare_UTF8_cases (str_utf8 ry) u) as [(_ & H)|[(H & _)|(H & _)]];
      [exact H|rewrite H in Hcmp; discriminate|rewrite H in Hcmp; discriminate].
  - eapply IH; eauto.
Qed.

Lemma walk_synonyms_none P c ms u :
  ring_ok fold P (c :: ms) -> NoDup (c :: ms) -> (forall x, x ∈ c :: ms -> is_Some (P !! x)) ->
  forall f q, 1 <= q <= length (c :: ms) ->
  walk_synonyms fold f P c (node (c :: ms) q) u = Some None ->
  forall q' y, q <= q' -> (c :: ms) !! q' = Some y -> str_utf8 (get P y) <> u.
Proof.
  intros Hok Hnd Hdom. destruct Hok as (_ & _ & Hl & _).
  induction f as [|f IH]; intros q Hq Hw q' y Hqq Hy; [discriminate|].
  destruct (decide (q = length (c :: ms))) as [Heq|Hne].
  - apply lookup_lt_Some in Hy. lia.
  - assert (Hq2 : q < length (c :: ms)) by lia.
    assert (Hx : (c :: ms) !! q = Some (node (c :: ms) q)).
    { unfold node. destruct ((c :: ms) !! q) eqn:E; [reflexivity|].
      apply lookup_ge_None_1 in E. lia. }
    assert (Hnc : node (c :: ms) q <> c).
    { intros Hc. rewrite Hc in Hx.
      assert (q = 0); [|lia]. eapply NoDup_lookup; [exact Hnd|exact Hx|reflexivity]. }
    simpl in Hw. apply Nat.eqb_neq in Hnc. rewrite Hnc in Hw.
    destruct (P !! node (c :: ms) q) as [rq|] eqn:Hrq; [|discriminate].
    destruct (Z.eqb (Compare_UTF8 fold (str_utf8 rq) u) 0) eqn:Hcmp; [discriminate|].
    assert (Hlink : str_synonym rq = node (c :: ms) (S q)).
    { specialize (Hl q _ Hx). unfold get in Hl. rewrite Hrq in Hl. exact Hl. }
    rewrite Hlink in Hw.
    destruct (decide (q' = q)) as [->|Hq'].
    + rewrite Hx in Hy. injection Hy as <-. unfold get. rewrite Hrq. simpl.
      intros Heq. apply Z.eqb_neq in Hcmp. apply Hcmp. subst u.
      unfold Compare_UTF8. destruct (decide _) as [_|Hn]; [reflexivity|]. contradiction.
    + refine (IH (S q) _ Hw q' y _ Hy); simpl in *; lia.
Qed.

Lemma probe_vacant_nofold st rings u s0 skip m :
  interner_inv fold hash_folded FHCS st rings ->
  FHCS (Hash_UTF8 fold hash_folded u) (length (PG_Canons_By_Hash st)) = (s0, skip) ->
  PG_Canons_By_Hash st !! probe_pos (length (PG_Canons_By_Hash st)) skip s0 m = Some Vacant ->
  (forall j, j < m -> scanned (PG_Canons_By_Hash st) (strings st) u
                        (probe_pos (length (PG_Canons_By_Hash st)) skip s0 j)) ->
  forall c, c ∈ table_canons (PG_Canons_By_Hash st) -> canon_fold fold (strings st) c <> fold u.
Proof.
  intros HI Hfs Hvac Hscan c Hc Hf.
  destruct (table_canons_lookup _ c Hc) as [i Hi].
  pose proof (inv_paths _ _ _ _ _ HI i c Hi) as Hpo. unfold slot_path_ok in Hpo.
  assert (Hh : Hash_String fold hash_folded (get (strings st) c) = Hash_UTF8 fold hash_folded u).
  { unfold Hash_String, Hash_UTF8. unfold canon_fold in Hf. rewrite Hf. reflexivity. }
  rewrite Hh, Hfs in Hpo. simpl in Hpo.
  destruct Hpo as (k & Hk & Hpk & Hpath).
  destruct (lt_eq_lt_dec k m) as [[Hlt| ->]|Hgt].
  - destruct (Hscan k Hlt) as [Hd|(c' & Hc' & _ & Hne)]; rewrite Hpk in *; [congruence|].
    rewrite Hi in Hc'. injection Hc' as <-. apply Hne. exact Hf.
  - rewrite Hpk in Hvac. congruence.
  - destruct (Hpath m Hgt) as (v & Hv & Hnv). congruence.
Qed.

Lemma scanned_nonvacant T P u p : scanned T P u p -> exists v, T !! p = Some v /\ v <> Vacant.
Proof.
  intros [H|(c & H & _)]; eexists; (split; [exact H|discriminate]).
Qed.

Lemma insert_canon_counts (T : list canon_slot) p v c : T !! p = Some v ->
  length (table_canons (<[p:=Canon c]> T)) = S (length (table_canons (<[p:=Vacant]> T))) /\
  count_deleted (<[p:=Canon c]> T) = count_deleted (<[p:=Vacant]> T) /\
  length (table_canons T) = length (slot_canons v) + length (table_canons (<[p:=Vacant]> T)) /\
  count_deleted T = slot_del v + count_deleted (<[p:=Vacant]> T).
Proof.
  intros Hp. assert (Hl : p < length T) by (apply lookup_lt_Some in Hp; exact Hp).
  split; [|split; [|split]].
  - rewrite (Permutation_length (table_canons_insert T p (Canon c) Hl)). reflexivity.
  - rewrite (count_deleted_insert T p (Canon c) Hl). reflexivity.
  - rewrite (Permutation_length (table_canons_split T p v Hp)), length_app. reflexivity.
  - exact (count_deleted_split T p v Hp).
Qed.

Lemma intern_inv st rings u st' x :
  interner_inv fold hash_folded FHCS st rings ->
  Intern_UTF8_Managed fold hash_folded FHCS st u = Ok (st', x) ->
  (exists rings', interner_inv fold hash_folded FHCS st' rings') /\
  is_Some (strings st' !! x) /\ str_utf8 (get (strings st') x) = u /\
  (forall y, is_Some (strings st !! y) ->
     is_Some (strings st' !! y) /\ str_utf8 (get (strings st') y) = str_utf8 (get (strings st) y)).
Proof.
  intros HI H. unfold Intern_UTF8_Managed in H. cbv zeta in H. revert H.
  destruct (if _ <? _ then _ else _) as [st1| |] eqn:Egr; [|discriminate|discriminate].
  assert (HI1 : interner_inv fold hash_folded FHCS st1 rings /\ strings st1 = strings st /\
                next_node st1 = next_node st).
  { destruct (_ <? _); [eapply Expand_Word_Table_inv; eauto|injection Egr as <-; auto]. }
  destruct HI1 as (HI1 & Hs1 & Hn1). clear Egr. rewrite <- Hs1. clear HI Hs1 Hn1.
  destruct (FHCS (Hash_UTF8 fold hash_folded u) (length (PG_Canons_By_Hash st1))) as [s0 skip] eqn:Hfs.
  set (n := length (PG_Canons_By_Hash st1)) in *.
  destruct (probe fold n n skip s0 None (PG_Canons_By_Hash st1) (strings st1) u) as [res|] eqn:Hpr;
    [|discriminate].
  destruct (probe_sound (PG_Canons_By_Hash st1) (strings st1) u n skip s0 n 0 None res Hpr)
    as (m & Hm & Hscan & Hres); [intros j Hj; lia|left; reflexivity|].
  assert (Hpres : forall st2 y, strings st2 = strings st1 ->
            is_Some (strings st1 !! y) ->
            is_Some (strings st2 !! y) /\ str_utf8 (get (strings st2) y) = str_utf8 (get (strings st1) y)).
  { intros st2 y -> Hy. auto. }
  destruct res as [c|c|slot d]; simpl in Hres.
  - intros H. injection H as <- <-. destruct Hres as (_ & Hc & Hu).
    split; [exists rings; exact HI1|]. split; [exact Hc|]. split; [exact Hu|]. intros y Hy; auto.
  - destruct Hres as (Hc & Hcs & Hne & Hf).
    destruct (strings st1 !! c) as [rc|] eqn:Hrc; [|discriminate].
    assert (Hgc : get (strings st1) c = rc) by (unfold get; rewrite Hrc; reflexivity).
    rewrite Hgc in Hne, Hf.
    destruct (walk_synonyms fold (next_node st1) (strings st1) c (str_synonym rc) u)
      as [[s'|]|] eqn:Hw; [| |discriminate].
    + intros H. injection H as <- <-. apply walk_synonyms_found in Hw as (Hs' & Hu).
      split; [exists rings; exact HI1|]. split; [exact Hs'|]. split; [exact Hu|]. intros y Hy; auto.
    + intros H. injection H as <- <-.
      destruct (inv_table_canon_ring st1 rings c HI1) as (r & Hr & Hhd & Hcr);
        [eapply table_canon_elem; exact Hc|].
      destruct r as [|c' ms]; [inversion Hcr|]. simpl in Hhd. subst c'.
      pose proof (inv_ring_ok _ _ HI1 _ Hr) as Hok.
      pose proof (inv_ring_nodup _ _ HI1 _ Hr) as Hnd.
      assert (Hdom : forall y, y ∈ c :: ms -> is_Some (strings st1 !! y))
        by (intros y Hy; exact (inv_ring_dom _ _ HI1 _ y Hr Hy)).
      assert (Hlink : str_synonym rc = node (c :: ms) 1).
      { destruct Hok as (_ & _ & Hl & _). specialize (Hl 0 c eq_refl). rewrite Hgc in Hl. exact Hl. }
      rewrite Hlink in Hw.
      pose proof (walk_synonyms_none _ c ms u Hok Hnd Hdom _ 1 ltac:(simpl; lia) Hw) as Hnone.
      apply list_elem_of_split in Hr as (l1 & l2 & ->).
      split.
      { eexists. apply install_synonym_inv; [exact HI1|exact Hrc|symmetry; exact Hf|].
        intros y Hy. apply list_elem_of_lookup_1 in Hy as [q Hq].
        destruct q as [|q].
        - injection Hq as <-. rewrite Hgc. intros E. apply Hne. exact E.
        - apply (Hnone (S q) y); [lia|exact Hq]. }
      assert (Hfresh : strings st1 !! next_node st1 = None).
      { destruct (strings st1 !! next_node st1) eqn:E; [|reflexivity]. exfalso.
        assert (next_node st1 < next_node st1); [|lia]. apply (inv_fresh _ _ _ _ _ HI1). rewrite E. eauto. }
      assert (Hcid : c <> next_node st1) by congruence.
      unfold new_synonym. simpl.
      split; [rewrite lookup_insert_ne by congruence; rewrite lookup_insert_eq; eauto|].
      split; [unfold get; rewrite lookup_insert_ne by congruence; rewrite lookup_insert_eq; reflexivity|].
      intros y Hy. assert (Hyid : y <> next_node st1) by (intros ->; rewrite Hfresh in Hy; destruct Hy; discriminate).
      destruct (decide (y = c)) as [->|Hyc].
      * split; [rewrite lookup_insert_eq; eauto|]. unfold get at 1. rewrite lookup_insert_eq. simpl.
        rewrite Hgc. reflexivity.
      * unfold get. rewrite !lookup_insert_ne by congruence. split; [exact Hy|reflexivity].
  - destruct Hres as (-> & Hvac & Hd). intros H. injection H as <- <-.
    pose proof (probe_vacant_nofold st1 rings u s0 skip m HI1 Hfs Hvac Hscan) as Hnofold.
    assert (Hfresh : strings st1 !! next_node st1 = None).
    { destruct (strings st1 !! next_node st1) eqn:E; [|reflexivity]. exfalso.
      assert (next_node st1 < next_node st1); [|lia]. apply (inv_fresh _ _ _ _ _ HI1). rewrite E. eauto. }
    assert (Hpool : forall y, is_Some (strings st1 !! y) ->
              is_Some (<[next_node st1 := mk_REBSTR u true (next_node st1) 0]> (strings st1) !! y) /\
              str_utf8 (get (<[next_node st1 := mk_REBSTR u true (next_node st1) 0]> (strings st1)) y)
                = str_utf8 (get (strings st1) y)).
    { intros y Hy. assert (Hyid : y <> next_node st1)
        by (intros ->; rewrite Hfresh in Hy; destruct Hy; discriminate).
      unfold get. rewrite !lookup_insert_ne by congruence. split; [exact Hy|reflexivity]. }
    pose proof (inv_in_use _ _ _ _ _ HI1) as Hiu. pose proof (inv_deleteds _ _ _ _ _ HI1) as Hdl.
    destruct Hd as [->|(j & Hj & -> & Hdel)]; unfold new_canon; simpl.
    + assert (HpT : probe_pos n skip s0 m < length (PG_Canons_By_Hash st1))
        by (apply lookup_lt_Some in Hvac; exact Hvac).
      assert (Hid : <[probe_pos n skip s0 m := Vacant]> (PG_Canons_By_Hash st1) = PG_Canons_By_Hash st1)
        by (apply list_insert_id'; auto).
      destruct (insert_canon_counts _ _ _ (next_node st1) Hvac) as (E1 & E2 & E3 & E4).
      simpl in E3, E4.
      split.
      { eexists. eapply install_canon_inv with (k := m); [exact HI1|exact Hfs|exact Hnofold|lia|reflexivity| | | |].
        - intros j Hj. eapply scanned_nonvacant. apply Hscan. exact Hj.
        - left. exact Hvac.
        - lia.
        - lia. }
      split; [rewrite lookup_insert_eq; eauto|].
      split; [unfold get; rewrite lookup_insert_eq; reflexivity|]. exact Hpool.
    + destruct (insert_canon_counts _ _ _ (next_node st1) Hdel) as (E1 & E2 & E3 & E4).
      simpl in E3, E4.
      split.
      { eexists. eapply install_canon_inv with (k := j); [exact HI1|exact Hfs|exact Hnofold|lia|reflexivity| | | |].
        - intros j' Hj'. eapply scanned_nonvacant. apply Hscan. lia.
        - right. exact Hdel.
        - lia.
        - lia. }
      split; [rewrite lookup_insert_eq; eauto|].
      split; [unfold get; rewrite lookup_insert_eq; reflexivity|]. exact Hpool.
Qed.

Lemma node_lookup r a v : r !! a = Some v -> node r a = v.
Proof. unfold node. intros ->. reflexivity. Qed.

Lemma node_ge r a : length r <= a -> node r a = hd 0 r.
Proof. intros H. unfold node. rewrite lookup_ge_None_2 by lia. reflexivity. Qed.

Lemma hd_default (l : list nat) : hd 0 l = default 0 (l !! 0).
Proof. destruct l; reflexivity. Qed.

Lemma node_idx (r : list nat) a : r <> [] -> a <= length r ->
  r !! (if a <? length r then a else 0) = Some (node r a).
Proof.
  intros Hr Ha. destruct (Nat.ltb_spec a (length r)) as [E|E].
  - destruct (r !! a) as [v|] eqn:Hv.
    + rewrite (node_lookup r a v Hv). reflexivity.
    + apply lookup_ge_None_1 in Hv. lia.
  - rewrite node_ge by lia. destruct r; [congruence|]. reflexivity.
Qed.

Lemma node_elem r a : r <> [] -> node r a ∈ r.
Proof.
  intros Hr. destruct (r !! a) as [v|] eqn:E.
  - rewrite (node_lookup r a v E). eapply list_elem_of_lookup_2; eauto.
  - unfold node. rewrite E. destruct r as [|c ms]; [congruence|]. simpl. left.
Qed.

Lemma node_inj r a b : NoDup r -> 0 < a <= length r -> 0 < b <= length r ->
  node r a = node r b -> a = b.
Proof.
  intros Hnd Ha Hb Heq. assert (Hr : r <> []) by (intros ->; simpl in Ha; lia).
  pose proof (node_idx r a Hr ltac:(lia)) as Ea. pose proof (node_idx r b Hr ltac:(lia)) as Eb.
  rewrite Heq in Ea. pose proof (NoDup_lookup r _ _ _ Hnd Ea Eb) as Hi. revert Hi.
  destruct (Nat.ltb_spec a (length r)), (Nat.ltb_spec b (length r)); lia.
Qed.

Lemma find_link_to_sound P r x : ring_ok fold P r ->
  forall f t temp, t ∈ r -> find_link_to f P x t = Some temp ->
  temp ∈ r /\ str_synonym (get P temp) = x.
Proof.
  intros Hok f. induction f as [|f IH]; intros t temp Ht H; [discriminate|].
  simpl in H. destruct (P !! t) as [rt|] eqn:Hrt; [|discriminate].
  assert (Hg : get P t = rt) by (unfold get; rewrite Hrt; reflexivity).
  destruct (Nat.eqb_spec (str_synonym rt) x) as [E|E].
  - injection H as <-. rewrite Hg. auto.
  - apply (IH _ _) in H; [exact H|].
    apply list_elem_of_lookup_1 in Ht as [j Hj].
    destruct r as [|c ms]; [contradiction|]. destruct Hok as (_ & _ & Hl & _).
    rewrite <- Hg, (Hl j t Hj). apply node_elem. discriminate.
Qed.

(** The predecessor of the node at index [i] of a ring. *)
Lemma ring_pred P c ms i x k temp :
  ring_ok fold P (c :: ms) -> NoDup (c :: ms) -> (c :: ms) !! i = Some x ->
  (c :: ms) !! k = Some temp -> str_synonym (get P temp) = x ->
  (S k = i \/ (S k = length (c :: ms) /\ i = 0)) /\
  (forall j y, (c :: ms) !! j = Some y -> str_synonym (get P y) = x -> j = k).
Proof.
  intros Hok Hnd Hx Hk Ht. pose proof Hok as (_ & _ & Hl & _).
  assert (Hk' : node (c :: ms) (S k) = x) by (rewrite <- (Hl k temp Hk); exact Ht).
  split.
  - destruct (decide (S k < length (c :: ms))) as [Hlt|Hge].
    + left. destruct ((c :: ms) !! S k) as [v|] eqn:Ev; [|apply lookup_ge_None_1 in Ev; lia].
      rewrite (node_lookup _ _ v Ev) in Hk'. subst v.
      exact (NoDup_lookup _ _ _ _ Hnd Ev Hx).
    + right. apply lookup_lt_Some in Hk. split; [lia|].
      rewrite node_ge in Hk' by lia. simpl in Hk'. subst c.
      exact (NoDup_lookup _ _ 0 _ Hnd Hx eq_refl).
  - intros j y Hy Hyx. rewrite (Hl j y Hy) in Hyx. rewrite <- Hk' in Hyx.
    apply lookup_lt_Some in Hy. apply lookup_lt_Some in Hk.
    apply node_inj in Hyx; [lia|exact Hnd|lia|lia].
Qed.

Lemma ring_delete_ok P P' c ms i x temp :
  ring_ok fold P (c :: ms) -> NoDup (c :: ms) -> (c :: ms) !! i = Some x ->
  2 <= length (c :: ms) -> temp ∈ c :: ms -> str_synonym (get P temp) = x ->
  (forall y, y ∈ delete i (c :: ms) -> str_utf8 (get P' y) = str_utf8 (get P y) /\
                                str_symbol (get P' y) = str_symbol (get P y)) ->
  (forall y, y ∈ delete i (c :: ms) -> y <> hd 0 (delete i (c :: ms)) ->
     str_canon (get P' y) = str_canon (get P y)) ->
  str_canon (get P' (hd 0 (delete i (c :: ms)))) = true ->
  (forall y, y ∈ delete i (c :: ms) -> str_synonym (get P' y) =
     if decide (y = temp) then node (c :: ms) (S i) else str_synonym (get P y)) ->
  ring_ok fold P' (delete i (c :: ms)).
Proof.
  intros Hok Hnd Hx Hn2 Htemp Htx Hu Hcan Hhd Hsyn.
  apply list_elem_of_lookup_1 in Htemp as [k Hk].
  destruct (ring_pred P c ms i x k temp Hok Hnd Hx Hk Htx) as [Hki Huniq].
  pose proof Hok as (Hc & Hms & Hl & Hf & Hs & Hnd8).
  set (r := c :: ms) in *. set (r' := delete i r) in *.
  assert (Hperm : r ≡ₚ x :: r') by (apply delete_Permutation; exact Hx).
  assert (Hnd' : NoDup (x :: r')) by (rewrite <- Hperm; exact Hnd).
  apply NoDup_cons in Hnd' as [Hxr' Hndr'].
  assert (Hsub : forall y, y ∈ r' -> y ∈ r) by (intros y Hy; rewrite Hperm; right; exact Hy).
  assert (Hi : i < length r) by (apply lookup_lt_Some in Hx; exact Hx).
  assert (Hlk : forall j, r' !! j = if decide (j < i) then r !! j else r !! S j).
  { intros j. unfold r'. destruct (decide (j < i));
      [apply list_lookup_delete_lt; lia|apply list_lookup_delete_ge; lia]. }
  assert (Hhd' : hd 0 r' = if decide (i = 0) then node r 1 else c).
  { rewrite hd_default, Hlk. destruct (decide (0 < i)), (decide (i = 0)); try lia.
    - reflexivity.
    - subst i. unfold node. destruct (r !! 1) eqn:E; [reflexivity|].
      apply lookup_ge_None_1 in E. lia. }
  assert (Hnotc : forall y, y ∈ r' -> y <> hd 0 r' -> y <> c).
  { intros y Hy Hyh ->. destruct (decide (i = 0)) as [->|Hi0].
    - simpl in Hx. injection Hx as ->. contradiction.
    - rewrite Hhd' in Hyh. destruct (decide (i = 0)); [lia|]. contradiction. }
  assert (Hfold : forall y, y ∈ r' -> fold (str_utf8 (get P' y)) = fold (str_utf8 (get P c))).
  { intros y Hy. rewrite (proj1 (Hu y Hy)). rewrite Forall_forall in Hf. apply Hf, Hsub, Hy. }
  assert (Hsym : forall y, y ∈ r' -> str_symbol (get P' y) = str_symbol (get P c)).
  { intros y Hy. rewrite (proj2 (Hu y Hy)). rewrite Forall_forall in Hs. apply Hs, Hsub, Hy. }
  assert (Hnd8' : NoDup (map (fun y => str_utf8 (get P' y)) r')).
  { assert (Hm : map (fun y => str_utf8 (get P' y)) r' = map (fun y => str_utf8 (get P y)) r').
    { apply map_ext_in. intros y Hy. apply list_elem_of_In in Hy. exact (proj1 (Hu y Hy)). }
    rewrite Hm.
    assert (Hpm : map (fun y => str_utf8 (get P y)) r ≡ₚ map (fun y => str_utf8 (get P y)) (x :: r'))
      by (apply Permutation_map; exact Hperm).
    pose proof Hnd8 as Hnd8x. fold r in Hnd8x. rewrite Hpm in Hnd8x.
    apply NoDup_cons in Hnd8x as [_ H]. exact H. }
  assert (Hlink : forall j y, r' !! j = Some y -> str_synonym (get P' y) = node r' (S j)).
  { intros j y Hy. assert (Hyr' : y ∈ r') by (eapply list_elem_of_lookup_2; eauto).
    rewrite (Hsyn y Hyr'). unfold node at 2. rewrite (Hlk (S j)). rewrite Hlk in Hy.
    destruct (decide (j < i)) as [Hji|Hji].
    - rewrite (Hl j y Hy).
      destruct (decide (S j < i)) as [Hsji|Hsji].
      + destruct (decide (y = temp)) as [->|Hyt].
        * pose proof (NoDup_lookup _ _ _ _ Hnd Hy Hk). lia.
        * destruct (r !! S j) as [v|] eqn:Ev; [|apply lookup_ge_None_1 in Ev; lia].
          rewrite (node_lookup _ _ v Ev). reflexivity.
      + assert (Hsj : S j = i) by lia.
        assert (Hyt : y = temp).
        { assert (j = k); [|subst; congruence].
          apply (Huniq j y Hy). rewrite (Hl j y Hy), Hsj. exact (node_lookup _ _ _ Hx). }
        destruct (decide (y = temp)); [|contradiction].
        rewrite Hhd'. destruct (decide (i = 0)); [lia|]. rewrite <- Hsj. reflexivity.
    - destruct (decide (S j < i)) as [Hsji|Hsji]; [lia|].
      destruct (decide (y = temp)) as [->|Hyt].
      + assert (Hjk : S j = k) by (exact (NoDup_lookup _ _ _ _ Hnd Hy Hk)).
        destruct Hki as [Hki|[Hki Hi0]]; [lia|]. subst i.
        rewrite (lookup_ge_None_2 r (S (S j))) by lia. simpl default. rewrite Hhd'. reflexivity.
      + rewrite (Hl (S j) y Hy).
        destruct (r !! S (S j)) as [v|] eqn:Ev.
        * rewrite (node_lookup _ _ v Ev). reflexivity.
        * apply lookup_ge_None_1 in Ev. rewrite node_ge by lia. simpl default.
          rewrite Hhd'. destruct (decide (i = 0)) as [->|]; [|reflexivity].
          exfalso. apply Hyt. assert (S j = k); [|subst; congruence].
          apply (Huniq (S j) y Hy). rewrite (Hl (S j) y Hy), node_ge by lia.
          simpl in Hx. injection Hx as <-. reflexivity. }
  clearbody r'. destruct r' as [|c' ms'].
  { simpl in Hperm. apply Permutation_length in Hperm. simpl in Hperm, Hn2. fold r in Hn2. lia. }
  simpl in Hhd. split; [exact Hhd|].
  split.
  { rewrite Forall_forall. intros y Hy.
    assert (Hyn : y <> c'). { intros ->. apply NoDup_cons in Hndr' as [H _]. contradiction. }
    assert (Hy' : y ∈ c' :: ms') by (right; exact Hy).
    rewrite (Hcan y Hy' Hyn).
    assert (Hyc : y <> c) by (apply Hnotc; [exact Hy'|exact Hyn]).
    assert (Hyms : y ∈ ms).
    { pose proof (Hsub y Hy') as Hyr. unfold r in Hyr. apply elem_of_cons in Hyr as [|]; [contradiction|assumption]. }
    rewrite Forall_forall in Hms. apply Hms, Hyms. }
  split; [exact Hlink|].
  split.
  { rewrite Forall_forall. intros y Hy. rewrite (Hfold y Hy), (Hfold c') by left. reflexivity. }
  split.
  { rewrite Forall_forall. intros y Hy. rewrite (Hsym y Hy), (Hsym c') by left. reflexivity. }
  exact Hnd8'.
Qed.

Lemma concat_split_perm (l1 l2 R' : list (list nat)) r x :
  r ≡ₚ x :: concat R' -> concat (l1 ++ r :: l2) ≡ₚ x :: concat (l1 ++ R' ++ l2).
Proof.
  intros Hr. rewrite !concat_app. simpl. rewrite Hr. simpl.
  symmetry. apply Permutation_middle.
Qed.

Lemma remove_inv_common st l1 r l2 R' x P' :
  interner_inv fold hash_folded FHCS st (l1 ++ r :: l2) -> r ≡ₚ x :: concat R' ->
  Forall (ring_ok fold P') R' ->
  (forall y, y ∉ r -> P' !! y = strings st !! y) ->
  (forall y, y ∈ r -> is_Some (P' !! y) <-> y <> x) ->
  Forall (ring_ok fold P') (l1 ++ R' ++ l2) /\ NoDup (concat (l1 ++ R' ++ l2)) /\
  (forall y, is_Some (P' !! y) <-> y ∈ concat (l1 ++ R' ++ l2)) /\
  (forall y, is_Some (P' !! y) -> y < next_node st).
Proof.
  intros HI Hr HR Hout Hin.
  pose proof (concat_split_perm l1 l2 R' r x Hr) as Hc.
  pose proof (inv_nodup _ _ _ _ _ HI) as Hnd. rewrite Hc in Hnd.
  apply NoDup_cons in Hnd as [Hxn Hnd].
  assert (Hrin : r ∈ l1 ++ r :: l2) by (apply elem_of_app; right; left).
  assert (Hdisj : forall r2 y, r2 ∈ l1 ++ l2 -> y ∈ r2 -> y ∉ r).
  { intros r2 y Hr2 Hy Hyr.
    assert (Hr2' : r2 ∈ l1 ++ r :: l2)
      by (apply elem_of_app in Hr2 as [|]; apply elem_of_app; [left|right; right]; assumption).
    pose proof (NoDup_concat_same _ r2 r y (inv_nodup _ _ _ _ _ HI) Hr2' Hrin Hy Hyr) as ->.
    (* r occurs twice in l1 ++ r :: l2 *)
    pose proof (inv_nodup _ _ _ _ _ HI) as Hnd2. rewrite concat_app in Hnd2. simpl in Hnd2.
    apply NoDup_app in Hnd2 as (_ & Hd1 & Hnd2). apply NoDup_app in Hnd2 as (_ & Hd2 & _).
    apply elem_of_app in Hr2 as [Hr2|Hr2].
    - apply (Hd1 y); [|apply elem_of_app; left; exact Hyr].
      apply list_elem_of_In, in_concat. exists r. split; apply list_elem_of_In; assumption.
    - apply (Hd2 y Hyr). apply list_elem_of_In, in_concat. exists r. split; apply list_elem_of_In; assumption. }
  assert (HRr : forall y, y ∈ concat R' -> y ∈ r) by (intros y Hy; rewrite Hr; right; exact Hy).
  split; [|split; [exact Hnd|split]].
  - pose proof (inv_rings _ _ _ _ _ HI) as Hrs.
    rewrite !Forall_app in *. destruct Hrs as (H1 & H2). apply Forall_cons in H2 as [_ H2].
    split; [|split; [exact HR|]].
    + rewrite Forall_forall in *. intros r2 Hr2. apply (ring_ok_ext (strings st)); [|apply H1, Hr2].
      intros y Hy. unfold get. rewrite Hout; [reflexivity|].
      apply (Hdisj r2); [apply elem_of_app; left|]; assumption.
    + rewrite Forall_forall in *. intros r2 Hr2. apply (ring_ok_ext (strings st)); [|apply H2, Hr2].
      intros y Hy. unfold get. rewrite Hout; [reflexivity|].
      apply (Hdisj r2); [apply elem_of_app; right|]; assumption.
  - intros y. destruct (decide (y ∈ r)) as [Hyr|Hyr].
    + rewrite (Hin y Hyr). rewrite Hr in Hyr. apply elem_of_cons in Hyr as [->|Hyr].
      * split; [contradiction|]. intros H. contradiction.
      * split; [intros _; rewrite !concat_app, !elem_of_app; right; left; exact Hyr|].
        intros H ->. contradiction.
    + rewrite (Hout y Hyr), (inv_dom _ _ _ _ _ HI y).
      rewrite !concat_app, !elem_of_app. simpl. rewrite elem_of_app.
      split; intros [H|[H|H]]; try (exfalso; apply Hyr; first [exact H|apply HRr, H]); auto.
  - intros y Hy. destruct (decide (y ∈ r)) as [Hyr|Hyr].
    + apply (inv_fresh _ _ _ _ _ HI). apply (inv_dom _ _ _ _ _ HI).
      rewrite concat_app, elem_of_app. right. simpl. apply elem_of_app. left. exact Hyr.
    + apply (inv_fresh _ _ _ _ _ HI). rewrite <- (Hout y Hyr). exact Hy.
Qed.

Lemma get_delete_ne (Q : gmap nat REBSTR) x y : y <> x -> get (delete x Q) y = get Q y.
Proof. intros H. unfold get. rewrite lookup_delete_ne by congruence. reflexivity. Qed.

Lemma get_insert (Q : gmap nat REBSTR) a v y :
  get (<[a:=v]> Q) y = if decide (y = a) then v else get Q y.
Proof.
  unfold get. destruct (decide (y = a)) as [->|H].
  - rewrite lookup_insert_eq. reflexivity.
  - rewrite lookup_insert_ne by congruence. reflexivity.
Qed.

Lemma get_lookup (Q : gmap nat REBSTR) y v : Q !! y = Some v -> get Q y = v.
Proof. unfold get. intros ->. reflexivity. Qed.

Lemma table_canon_unique (T : list canon_slot) i j c : NoDup (table_canons T) ->
  T !! i = Some (Canon c) -> T !! j = Some (Canon c) -> i = j.
Proof.
  intros Hnd Hi Hj. destruct (decide (i = j)) as [|Hne]; [assumption|exfalso].
  rewrite (table_canons_split T i (Canon c) Hi) in Hnd. simpl in Hnd.
  apply NoDup_cons in Hnd as [Hn _]. apply Hn. apply (table_canon_elem _ j).
  rewrite list_lookup_insert_ne by congruence. exact Hj.
Qed.

Lemma inv_tc_nodup st rings : interner_inv fold hash_folded FHCS st rings ->
  NoDup (table_canons (PG_Canons_By_Hash st)).
Proof.
  intros HI. pose proof (inv_folds _ _ _ _ _ HI) as H. unfold canon_fold in H.
  apply NoDup_fmap_1 in H. exact H.
Qed.

Lemma paths_transfer P P' (T T' : list canon_slot) :
  length T' = length T ->
  (forall i v, T !! i = Some v -> v <> Vacant -> exists v', T' !! i = Some v' /\ v' <> Vacant) ->
  (forall i c, T' !! i = Some (Canon c) -> exists c0, T !! i = Some (Canon c0) /\
      Hash_String fold hash_folded (get P' c) = Hash_String fold hash_folded (get P c0)) ->
  (forall i c, T !! i = Some (Canon c) -> slot_path_ok fold hash_folded FHCS P T i c) ->
  forall i c, T' !! i = Some (Canon c) -> slot_path_ok fold hash_folded FHCS P' T' i c.
Proof.
  intros HL Hnv Hc Hp i c Hi. destruct (Hc i c Hi) as (c0 & Hc0 & Hh).
  specialize (Hp i c0 Hc0). unfold slot_path_ok in *. cbv zeta in *.
  rewrite HL, Hh. destruct Hp as (k & Hk & Hpos & Hbefore).
  exists k. split; [exact Hk|split; [exact Hpos|]]. intros j Hj.
  destruct (Hbefore j Hj) as (v & Hv & Hnv'). exact (Hnv _ v Hv Hnv').
Qed.

Lemma find_canon_slot_sound f n skip s (T : list canon_slot) x slot :
  find_canon_slot f n skip s T x = Some slot -> T !! slot = Some (Canon x).
Proof.
  revert s. induction f as [|f IH]; intros s H; [discriminate|]. simpl in H.
  destruct (T !! s) as [v|] eqn:Hv; [|discriminate].
  destruct (decide (v = Canon x)) as [->|]; [injection H as <-; exact Hv|].
  exact (IH _ H).
Qed.

Lemma ripple_overwrite f n skip prev s (T T' : list canon_slot) w :
  ripple f n skip prev s T = Some T' -> <[prev:=w]> T' = <[prev:=w]> T.
Proof.
  revert s T. induction f as [|f IH]; intros s T H; [discriminate|]. simpl in H.
  destruct (T !! s) as [v|]; [|discriminate].
  destruct v; [injection H as <-; reflexivity| |];
    (destruct (T !! next_slot n skip s) as [v'|]; [|discriminate]);
    rewrite (IH _ _ H); apply list_insert_insert_eq.
Qed.

Lemma heads_remove (tc : list nat) (l1 l2 : list (list nat)) r rest :
  tc ≡ₚ map (hd 0) (l1 ++ r :: l2) -> tc ≡ₚ hd 0 r :: rest -> rest ≡ₚ map (hd 0) (l1 ++ l2).
Proof.
  intros H1 H2. rewrite H1 in H2. rewrite map_app in H2. simpl in H2.
  rewrite <- Permutation_middle in H2. apply Permutation_cons_inv in H2.
  rewrite map_app. symmetry. exact H2.
Qed.

Lemma inv_tc_ring_head st rings r z : interner_inv fold hash_folded FHCS st rings ->
  r ∈ rings -> z ∈ table_canons (PG_Canons_By_Hash st) -> z ∈ r -> z = hd 0 r.
Proof.
  intros HI Hr Hz Hzr. destruct (inv_table_canon_ring st rings z HI Hz) as (r2 & Hr2 & Hhd & Hz2).
  rewrite (NoDup_concat_same rings r r2 z (inv_nodup _ _ _ _ _ HI) Hr Hr2 Hzr Hz2). symmetry. exact Hhd.
Qed.

Lemma kill_inv st rings x st' :
  interner_inv fold hash_folded FHCS st rings ->
  GC_Kill_String fold hash_folded FHCS st x = Ok st' ->
  exists rings', interner_inv fold hash_folded FHCS st' rings'.
Proof.
  intros HI H. unfold GC_Kill_String, GC_Kill_Interning in H.
  destruct (strings st !! x) as [ri|] eqn:Hx; [|discriminate].
  destruct (inv_ring_of st rings HI x) as (r & Hr & Hxr); [rewrite Hx; eauto|].
  pose proof (inv_ring_ok _ _ HI _ Hr) as Hok.
  pose proof (inv_ring_nodup _ _ HI _ Hr) as Hnd.
  assert (Hdom : forall y, y ∈ r -> is_Some (strings st !! y))
    by (intros y Hy; exact (inv_ring_dom _ _ HI _ y Hr Hy)).
  assert (Hhead : forall z, z ∈ table_canons (PG_Canons_By_Hash st) -> z ∈ r -> z = hd 0 r)
    by (intros z; apply (inv_tc_ring_head st rings r z HI Hr)).
  apply list_elem_of_split in Hr as (l1 & l2 & ->).
  destruct r as [|c ms]; [inversion Hxr|].
  apply list_elem_of_lookup_1 in Hxr as [i Hi].
  assert (Hgx : get (strings st) x = ri) by (apply get_lookup; exact Hx).
  pose proof Hok as (Hc & Hms & Hl & Hf & Hs & Hnd8).
  assert (Hsyn : str_synonym ri = node (c :: ms) (S i)) by (rewrite <- Hgx; exact (Hl i x Hi)).
  destruct (find_link_to (next_node st) (strings st) x (str_synonym ri)) as [temp|] eqn:Hft;
    [|discriminate].
  assert (Hsyn_in : str_synonym ri ∈ c :: ms) by (rewrite Hsyn; apply node_elem; discriminate).
  destruct (find_link_to_sound _ _ _ Hok _ _ _ Hsyn_in Hft) as [Htemp Htx].
  destruct (strings st !! temp) as [rt|] eqn:Ht; [|discriminate].
  assert (Hgt : get (strings st) temp = rt) by (apply get_lookup; exact Ht).
  assert (Hi_lt : i < length (c :: ms)) by (apply lookup_lt_Some in Hi; exact Hi).
  assert (Hlen2 : 2 <= length (c :: ms) -> str_synonym ri <> x).
  { intros H2 E. rewrite Hsyn in E. destruct i as [|i'].
    - simpl in Hi. injection Hi as <-.
      assert (E' : node (c :: ms) 1 = node (c :: ms) (length (c :: ms))) by (rewrite node_end; exact E).
      apply node_inj in E'; [lia|exact Hnd|lia|lia].
    - assert (E' : node (c :: ms) (S (S i')) = node (c :: ms) (S i'))
        by (rewrite (node_lookup _ _ _ Hi); exact E).
      apply node_inj in E'; [lia|exact Hnd|lia|lia]. }
  assert (Hperm : c :: ms ≡ₚ x :: delete i (c :: ms)) by (apply delete_Permutation; exact Hi).
  assert (Hxr' : x ∉ delete i (c :: ms)).
  { assert (Hn : NoDup (x :: delete i (c :: ms))) by (rewrite <- Hperm; exact Hnd).
    apply NoDup_cons in Hn as [Hn _]. exact Hn. }
  assert (Hxin : x ∈ c :: ms) by (rewrite Hperm; left).
  assert (Hsub : forall y, y ∈ delete i (c :: ms) -> y ∈ c :: ms)
    by (intros y Hy; rewrite Hperm; right; exact Hy).
  set (P1 := <[temp := set_synonym rt (str_synonym ri)]> (strings st)).
  assert (HP1 : forall y, get P1 y = if decide (y = temp) then set_synonym rt (str_synonym ri)
                                     else get (strings st) y) by (intros y; apply get_insert).
  assert (HP1s : forall y, y ∈ c :: ms -> is_Some (P1 !! y)).
  { intros y Hy. unfold P1. destruct (decide (y = temp)) as [->|Hne];
      [rewrite lookup_insert_eq; eauto|rewrite lookup_insert_ne by congruence; apply Hdom, Hy]. }
  destruct (str_canon ri) eqn:Hcan.
  2: {
    simpl in H. injection H as <-.
    assert (Hi0 : i <> 0).
    { intros ->. simpl in Hi. injection Hi as ->. rewrite Hgx in Hc. congruence. }
    assert (Hxt : x <> temp) by (intros E; apply (Hlen2 ltac:(lia)); congruence).
    destruct i as [|i']; [lia|].
    assert (Hhd' : hd 0 (delete (S i') (c :: ms)) = c) by reflexivity.
    assert (Hxc : x <> c).
    { intros ->. pose proof (NoDup_lookup _ _ _ _ Hnd Hi (eq_refl : (c :: ms) !! 0 = Some c)). lia. }
    set (P' := delete x P1).
    assert (Hget' : forall y, y <> x -> get P' y = if decide (y = temp)
                    then set_synonym rt (str_synonym ri) else get (strings st) y)
      by (intros y Hy; unfold P'; rewrite get_delete_ne by exact Hy; apply HP1).
    assert (Hu : forall y, y <> x -> str_utf8 (get P' y) = str_utf8 (get (strings st) y)).
    { intros y Hy. rewrite (Hget' y Hy). destruct (decide (y = temp)) as [->|]; [|reflexivity].
      rewrite Hgt. reflexivity. }
    assert (Hring : ring_ok fold P' (delete (S i') (c :: ms))).
    { apply (ring_delete_ok (strings st) P' c ms (S i') x temp);
        [exact Hok|exact Hnd|exact Hi|simpl in *; lia|exact Htemp|exact Htx| | | |].
      - intros y Hy. assert (y <> x) by (intros ->; contradiction).
        rewrite (Hget' y ltac:(assumption)). destruct (decide (y = temp)) as [->|]; [|auto].
        rewrite Hgt. auto.
      - intros y Hy _. assert (y <> x) by (intros ->; contradiction).
        rewrite (Hget' y ltac:(assumption)). destruct (decide (y = temp)) as [->|]; [|auto].
        rewrite Hgt. auto.
      - rewrite Hhd', (Hget' c (not_eq_sym Hxc)). destruct (decide (c = temp)) as [<-|]; [|exact Hc].
        rewrite <- Hgt. exact Hc.
      - intros y Hy. assert (y <> x) by (intros ->; contradiction).
        rewrite (Hget' y ltac:(assumption)). destruct (decide (y = temp)) as [->|]; [|reflexivity].
        simpl. exact Hsyn. }
    destruct (remove_inv_common st l1 (c :: ms) l2 [delete (S i') (c :: ms)] x P' HI)
      as (HR & HN & HD & HF).
    { simpl. rewrite app_nil_r. exact Hperm. }
    { apply Forall_singleton. exact Hring. }
    { intros y Hy. assert (y <> x) by (intros ->; contradiction).
      assert (y <> temp) by (intros ->; contradiction).
      unfold P', P1. rewrite lookup_delete_ne, lookup_insert_ne by congruence. reflexivity. }
    { intros y Hy. unfold P'. destruct (decide (y = x)) as [->|Hyx].
      - rewrite lookup_delete_eq. split; [intros [? E]; discriminate|intros E; contradiction].
      - rewrite lookup_delete_ne by congruence. split; [intros _; exact Hyx|intros _; apply HP1s, Hy]. }
    exists (l1 ++ [delete (S i') (c :: ms)] ++ l2).
    assert (Hnx : forall z, z ∈ table_canons (PG_Canons_By_Hash st) -> z <> x).
    { intros z Hz ->. apply Hxc. exact (Hhead x Hz Hxin). }
    constructor; cbn [PG_Canons_By_Hash strings next_node PG_Num_Canon_Slots_In_Use PG_Num_Canon_Deleteds].
    - exact HR.
    - exact HN.
    - exact HD.
    - exact HF.
    - rewrite (inv_heads _ _ _ _ _ HI). rewrite !map_app. reflexivity.
    - assert (Hm : map (canon_fold fold P') (table_canons (PG_Canons_By_Hash st)) =
                   map (canon_fold fold (strings st)) (table_canons (PG_Canons_By_Hash st))).
      { apply map_ext_in. intros z Hz. apply list_elem_of_In in Hz.
        unfold canon_fold. rewrite (Hu z (Hnx z Hz)). reflexivity. }
      unfold P', P1 in Hm. rewrite Hm. exact (inv_folds _ _ _ _ _ HI).
    - apply (paths_transfer (strings st) P' (PG_Canons_By_Hash st)); [reflexivity| | |exact (inv_paths _ _ _ _ _ HI)].
      + intros j v Hv Hnv. eauto.
      + intros j z Hz. exists z. split; [exact Hz|].
        unfold Hash_String. rewrite (Hu z (Hnx z (table_canon_elem _ _ _ Hz))). reflexivity.
    - exact (inv_in_use _ _ _ _ _ HI).
    - exact (inv_deleteds _ _ _ _ _ HI). }
  (* a canon: it sits at the head of its ring *)
  destruct i as [|i'].
  2: { exfalso. assert (Hxms : x ∈ ms) by (simpl in Hi; eapply list_elem_of_lookup_2; eauto).
       rewrite Forall_forall in Hms. pose proof (Hms x Hxms) as E. rewrite Hgx in E. congruence. }
  simpl in Hi. injection Hi as ->.
  cbv beta iota delta [negb] in H.
  destruct (FHCS (Hash_String fold hash_folded ri) (length (PG_Canons_By_Hash st))) as [slot0 skip] eqn:Hfs.
  cbv beta iota delta [negb] in H.
  destruct (find_canon_slot (length (PG_Canons_By_Hash st)) (length (PG_Canons_By_Hash st)) skip slot0
              (PG_Canons_By_Hash st) x) as [slot|] eqn:Hfc; [|discriminate].
  pose proof (find_canon_slot_sound _ _ _ _ _ _ _ Hfc) as Hslot.
  assert (Hslot_lt : slot < length (PG_Canons_By_Hash st)) by (apply lookup_lt_Some in Hslot; exact Hslot).
  pose proof (table_canons_split _ _ _ Hslot) as Hsplit. simpl in Hsplit.
  pose proof (count_deleted_split _ _ _ Hslot) as Hcd. simpl in Hcd.
  set (rest := table_canons (<[slot:=Vacant]> (PG_Canons_By_Hash st))) in *.
  pose proof (inv_tc_nodup _ _ HI) as Htcnd.
  assert (Hxrest : x ∉ rest).
  { rewrite Hsplit in Htcnd. apply NoDup_cons in Htcnd as [E _]. exact E. }
  assert (Hrest : rest ≡ₚ map (hd 0) (l1 ++ l2))
    by (exact (heads_remove _ l1 l2 (x :: ms) rest (inv_heads _ _ _ _ _ HI) Hsplit)).
  assert (Hfolds_rest : NoDup (map (canon_fold fold (strings st)) (x :: rest))).
  { assert (Hp : map (canon_fold fold (strings st)) (table_canons (PG_Canons_By_Hash st))
                 ≡ₚ map (canon_fold fold (strings st)) (x :: rest)) by (apply Permutation_map; exact Hsplit).
    rewrite <- Hp. exact (inv_folds _ _ _ _ _ HI). }
  assert (Hrest_tc : forall z, z ∈ rest -> z ∈ table_canons (PG_Canons_By_Hash st))
    by (intros z Hz; rewrite Hsplit; right; exact Hz).
  destruct (Nat.eqb_spec (str_synonym ri) x) as [Esyn|Esyn]; cbv beta iota delta [negb] in H.
  - (* a lone canon: its slot becomes a tombstone *)
    destruct ms as [|m ms'].
    2: { exfalso. apply (Hlen2 ltac:(simpl; lia)). exact Esyn. }
    assert (Htx' : temp = x) by (apply list_elem_of_singleton in Htemp; exact Htemp).

    subst temp.
    destruct (ripple (S (length (PG_Canons_By_Hash st))) (length (PG_Canons_By_Hash st)) skip slot slot
                (PG_Canons_By_Hash st)) as [tbl'|] eqn:Hrip; [|discriminate].
    injection H as <-. rewrite (ripple_overwrite _ _ _ _ _ _ _ DELETED_CANON Hrip).
    set (P' := delete x P1).
    assert (Hu : forall y, y <> x -> get P' y = get (strings st) y).
    { intros y Hy. unfold P'. rewrite get_delete_ne by exact Hy. rewrite HP1.
      destruct (decide (y = x)); [contradiction|reflexivity]. }
    destruct (remove_inv_common st l1 [x] l2 [] x P' HI) as (HR & HN & HD & HF).
    { reflexivity. }
    { apply Forall_nil. exact I. }
    { intros y Hy. assert (y <> x) by (intros ->; apply Hy; left).
      unfold P', P1. rewrite lookup_delete_ne, lookup_insert_ne by congruence. reflexivity. }
    { intros y Hy. apply list_elem_of_singleton in Hy as ->. unfold P'. rewrite lookup_delete_eq.
      split; [intros [? E]; discriminate|intros E; contradiction]. }
    exists (l1 ++ [] ++ l2).
    assert (Htc' : table_canons (<[slot:=DELETED_CANON]> (PG_Canons_By_Hash st)) ≡ₚ rest)
      by (exact (table_canons_insert _ _ DELETED_CANON Hslot_lt)).
    pose proof (count_deleted_insert _ _ DELETED_CANON Hslot_lt) as Hcd'. simpl in Hcd'. fold rest in Htc'.
    constructor; cbn [PG_Canons_By_Hash strings next_node PG_Num_Canon_Slots_In_Use PG_Num_Canon_Deleteds].
    + exact HR.
    + exact HN.
    + exact HD.
    + exact HF.
    + rewrite Htc', Hrest. reflexivity.
    + assert (Hp : map (canon_fold fold P') (table_canons (<[slot:=DELETED_CANON]> (PG_Canons_By_Hash st)))
                   ≡ₚ map (canon_fold fold P') rest) by (apply Permutation_map; exact Htc').
      unfold P', P1 in Hp. rewrite Hp.
      assert (Hm : map (canon_fold fold P') rest = map (canon_fold fold (strings st)) rest).
      { apply map_ext_in. intros z Hz. apply list_elem_of_In in Hz. unfold canon_fold.
        rewrite Hu; [reflexivity|]. intros ->. contradiction. }
      unfold P', P1 in Hm. rewrite Hm. simpl in Hfolds_rest. apply NoDup_cons in Hfolds_rest as [_ E]. exact E.
    + apply (paths_transfer (strings st) P' (PG_Canons_By_Hash st));
        [apply length_insert| | |exact (inv_paths _ _ _ _ _ HI)].
      * intros j v Hv Hnv. destruct (decide (j = slot)) as [->|Hne].
        -- rewrite list_lookup_insert_eq by exact Hslot_lt. eexists; split; [reflexivity|discriminate].
        -- rewrite list_lookup_insert_ne by congruence. eauto.
      * intros j z Hz. destruct (decide (j = slot)) as [->|Hne].
        -- rewrite list_lookup_insert_eq in Hz by exact Hslot_lt. discriminate.
        -- rewrite list_lookup_insert_ne in Hz by congruence. exists z. split; [exact Hz|].
           assert (z <> x) by (intros ->; apply Hne; exact (table_canon_unique _ _ _ _ Htcnd Hz Hslot)).
           rewrite Hu by assumption. reflexivity.
    + rewrite (inv_in_use _ _ _ _ _ HI), (Permutation_length Hsplit), (Permutation_length Htc').
      simpl. lia.
    + rewrite (inv_deleteds _ _ _ _ _ HI). lia.
  - (* the next synonym takes over the slot *)
    change (<[temp:=set_synonym rt (str_synonym ri)]> (strings st)) with P1 in H.
    destruct (P1 !! str_synonym ri) as [rs|] eqn:Hrs; [|discriminate].
    injection H as <-.
    destruct ms as [|sy ms'].
    { exfalso. apply Esyn. rewrite Hsyn. reflexivity. }
    assert (Hsy : str_synonym ri = sy) by (rewrite Hsyn; reflexivity).
    rewrite Hsy in Hrs |- *.
    assert (Hxt : x <> temp) by (intros E; apply Esyn; congruence).
    assert (Hxsy : x <> sy) by (intros E; apply Esyn; congruence).
    set (P' := delete x (<[sy:=set_canon rs]> P1)).
    assert (Ers : rs = get P1 sy) by (symmetry; apply get_lookup; exact Hrs).
    assert (Hq : forall y, y <> x ->
      str_utf8 (get P' y) = str_utf8 (get (strings st) y) /\
      str_symbol (get P' y) = str_symbol (get (strings st) y) /\
      str_synonym (get P' y) = (if decide (y = temp) then sy else str_synonym (get (strings st) y)) /\
      str_canon (get P' y) = (if decide (y = sy) then true else str_canon (get (strings st) y))).
    { intros y Hy. unfold P'. rewrite get_delete_ne by exact Hy. rewrite get_insert, Ers, !HP1.
      destruct (decide (y = sy)) as [Ey|Ey]; destruct (decide (sy = temp)) as [Es|Es];
        destruct (decide (y = temp)) as [Et|Et]; try congruence; simpl;
        rewrite ?Et, ?Ey, ?Hsy, ?Es, ?Hgt; repeat split; reflexivity. }
    assert (Hring : ring_ok fold P' (delete 0 (x :: sy :: ms'))).
    { apply (ring_delete_ok (strings st) P' x (sy :: ms') 0 x temp);
        [exact Hok|exact Hnd|reflexivity|simpl; lia|exact Htemp|exact Htx| | | |].
      - intros y Hy. assert (y <> x) by (intros ->; contradiction).
        destruct (Hq y ltac:(assumption)) as (E1 & E2 & _). auto.
      - intros y Hy Hyh. assert (y <> x) by (intros ->; contradiction).
        destruct (Hq y ltac:(assumption)) as (_ & _ & _ & E4). rewrite E4.
        simpl in Hyh. destruct (decide (y = sy)); [contradiction|reflexivity].
      - simpl. destruct (Hq sy (not_eq_sym Hxsy)) as (_ & _ & _ & E4). rewrite E4.
        destruct (decide (sy = sy)); [reflexivity|contradiction].
      - intros y Hy. assert (y <> x) by (intros ->; contradiction).
        destruct (Hq y ltac:(assumption)) as (_ & _ & E3 & _). rewrite E3. reflexivity. }
    simpl in Hring.
    destruct (remove_inv_common st l1 (x :: sy :: ms') l2 [sy :: ms'] x P' HI) as (HR & HN & HD & HF).
    { simpl. rewrite app_nil_r. reflexivity. }
    { apply Forall_singleton. exact Hring. }
    { intros y Hy. assert (y <> x) by (intros ->; apply Hy; left).
      assert (y <> sy) by (intros ->; apply Hy; right; left).
      assert (y <> temp) by (intros ->; contradiction).
      unfold P', P1. rewrite lookup_delete_ne, !lookup_insert_ne by congruence. reflexivity. }
    { intros y Hy. unfold P'. destruct (decide (y = x)) as [->|Hyx].
      - rewrite lookup_delete_eq. split; [intros [? E]; discriminate|intros E; contradiction].
      - rewrite lookup_delete_ne by congruence. split; [intros _; exact Hyx|intros _].
        destruct (decide (y = sy)) as [->|Hysy]; [rewrite lookup_insert_eq; eauto|].
        rewrite lookup_insert_ne by congruence. apply HP1s, Hy. }
    exists (l1 ++ [sy :: ms'] ++ l2).
    pose proof (insert_canon_counts _ _ _ sy Hslot) as (C1 & C2 & C3 & C4). simpl in C3, C4.
    assert (Htc' : table_canons (<[slot:=Canon sy]> (PG_Canons_By_Hash st)) ≡ₚ sy :: rest)
      by (exact (table_canons_insert _ _ (Canon sy) Hslot_lt)).
    assert (Hfsy : canon_fold fold P' sy = canon_fold fold (strings st) x).
    { unfold canon_fold. destruct (Hq sy (not_eq_sym Hxsy)) as (E1 & _). rewrite E1.
      rewrite Forall_forall in Hf. apply Hf. right; left. }
    assert (Hhash : forall z, z <> x -> Hash_String fold hash_folded (get P' z) =
                                       Hash_String fold hash_folded (get (strings st) z)).
    { intros z Hz. unfold Hash_String. destruct (Hq z Hz) as (E1 & _). rewrite E1. reflexivity. }
    constructor; cbn [PG_Canons_By_Hash strings next_node PG_Num_Canon_Slots_In_Use PG_Num_Canon_Deleteds].
    + exact HR.
    + exact HN.
    + exact HD.
    + exact HF.
    + rewrite Htc', Hrest, !map_app. simpl. apply Permutation_middle.
    + assert (Hp : map (canon_fold fold P') (table_canons (<[slot:=Canon sy]> (PG_Canons_By_Hash st)))
                   ≡ₚ map (canon_fold fold P') (sy :: rest)) by (apply Permutation_map; exact Htc').
      rewrite Hp.
      assert (Hm : map (canon_fold fold P') (sy :: rest) = map (canon_fold fold (strings st)) (x :: rest)).
      { simpl. rewrite Hfsy. f_equal. apply map_ext_in. intros z Hz. apply list_elem_of_In in Hz.
        unfold canon_fold. destruct (Hq z ltac:(intros ->; contradiction)) as (E1 & _). rewrite E1. reflexivity. }
      rewrite Hm. exact Hfolds_rest.
    + apply (paths_transfer (strings st) P' (PG_Canons_By_Hash st));
        [apply length_insert| | |exact (inv_paths _ _ _ _ _ HI)].
      * intros j v Hv Hnv. destruct (decide (j = slot)) as [->|Hne].
        -- rewrite list_lookup_insert_eq by exact Hslot_lt. eexists; split; [reflexivity|discriminate].
        -- rewrite list_lookup_insert_ne by congruence. eauto.
      * intros j z Hz. destruct (decide (j = slot)) as [->|Hne].
        -- rewrite list_lookup_insert_eq in Hz by exact Hslot_lt. injection Hz as <-.
           exists x. split; [exact Hslot|]. rewrite (Hhash sy (not_eq_sym Hxsy)).
           unfold Hash_String, Hash_UTF8. f_equal.
           rewrite Forall_forall in Hf. apply Hf. right; left.
        -- rewrite list_lookup_insert_ne in Hz by congruence. exists z. split; [exact Hz|].
           apply Hhash. intros ->. apply Hne. exact (table_canon_unique _ _ _ _ Htcnd Hz Hslot).
    + rewrite (inv_in_use _ _ _ _ _ HI), C1, C2, C3, C4. simpl. lia.
    + rewrite (inv_deleteds _ _ _ _ _ HI), C2, C4. reflexivity.
Qed.

Lemma tag_ring_sound P c ms sym P' :
  ring_ok fold P (c :: ms) -> NoDup (c :: ms) ->
  forall f q Q, q < length (c :: ms) -> tagged P Q (take q (c :: ms)) sym ->
  tag_ring f Q c (node (c :: ms) q) sym = Some P' -> tagged P P' (c :: ms) sym.
Proof.
  intros Hok Hnd f. pose proof Hok as (_ & _ & Hl & _).
  induction f as [|f IH]; intros q Q Hq HQ H; [discriminate|].
  simpl in H. destruct ((c :: ms) !! q) as [name|] eqn:Hname; [|apply lookup_ge_None_1 in Hname; lia].
  rewrite (node_lookup _ _ _ Hname) in H.
  assert (Hnq : name ∉ take q (c :: ms)).
  { intros Hin. apply elem_of_take in Hin as (j & Hj & Hjq).
    pose proof (NoDup_lookup _ _ _ _ Hnd Hj Hname). lia. }
  rewrite (HQ name) in H. destruct (decide (name ∈ take q (c :: ms))); [contradiction|].
  destruct (P !! name) as [rq|] eqn:Hrq; [|discriminate].
  assert (Hsyn : str_synonym rq = node (c :: ms) (S q))
    by (rewrite <- (get_lookup _ _ _ Hrq); exact (Hl q name Hname)).
  rewrite Hsyn in H.
  assert (HQ' : tagged P (<[name:=set_symbol rq sym]> Q) (take (S q) (c :: ms)) sym).
  { intros y. rewrite (take_S_r _ _ _ Hname). destruct (decide (y = name)) as [->|Hne].
    - rewrite lookup_insert_eq, Hrq. destruct (decide (name ∈ _)) as [|Hn]; [reflexivity|].
      exfalso. apply Hn. apply elem_of_app. right. left.
    - rewrite lookup_insert_ne by congruence. rewrite (HQ y).
      destruct (decide (y ∈ take q (c :: ms))) as [Hy|Hy];
        destruct (decide (y ∈ take q (c :: ms) ++ [name])) as [Hy'|Hy']; try reflexivity.
      + exfalso. apply Hy'. apply elem_of_app. left. exact Hy.
      + exfalso. apply elem_of_app in Hy' as [Hy'|Hy']; [contradiction|].
        apply list_elem_of_singleton in Hy'. contradiction. }
  destruct (Nat.eqb_spec (node (c :: ms) (S q)) c) as [E|E].
  - injection H as <-. assert (HSq : S q = length (c :: ms)).
    { assert (E' : node (c :: ms) (S q) = node (c :: ms) (length (c :: ms))) by (rewrite node_end; exact E).
      apply node_inj in E'; [exact E'|exact Hnd|lia|simpl; lia]. }
    rewrite HSq, take_ge in HQ' by lia. exact HQ'.
  - assert (HSq : S q < length (c :: ms)).
    { destruct (decide (S q < length (c :: ms))) as [|Hge]; [assumption|].
      exfalso. apply E. rewrite node_ge by lia. reflexivity. }
    exact (IH (S q) _ HSq HQ' H).
Qed.

Lemma tag_inv st rings r P' sym :
  interner_inv fold hash_folded FHCS st rings -> r ∈ rings -> tagged (strings st) P' r sym ->
  interner_inv fold hash_folded FHCS
    (mk_interner (PG_Canons_By_Hash st) (PG_Num_Canon_Slots_In_Use st) (PG_Num_Canon_Deleteds st)
       P' (next_node st)) rings.
Proof.
  intros HI Hr Ht.
  assert (Hdom : forall y, is_Some (P' !! y) <-> is_Some (strings st !! y)).
  { intros y. rewrite (Ht y). destruct (decide (y ∈ r)); [|reflexivity].
    destruct (strings st !! y); simpl; split; intros [? E]; eauto; discriminate. }
  assert (Hg : forall y, get P' y = if decide (y ∈ r) then
                 (if decide (is_Some (strings st !! y)) then set_symbol (get (strings st) y) sym
                  else get (strings st) y) else get (strings st) y).
  { intros y. unfold get. rewrite (Ht y). destruct (decide (y ∈ r)); [|reflexivity].
    destruct (strings st !! y) as [v|]; simpl.
    - destruct (decide (is_Some (Some v))) as [|Hn]; [reflexivity|]. exfalso. apply Hn. eauto.
    - destruct (decide (is_Some (@None REBSTR))) as [[? E]|]; [discriminate|reflexivity]. }
  assert (Hf : forall y, str_utf8 (get P' y) = str_utf8 (get (strings st) y) /\
                         str_canon (get P' y) = str_canon (get (strings st) y) /\
                         str_synonym (get P' y) = str_synonym (get (strings st) y)).
  { intros y. rewrite Hg. repeat destruct (decide _); repeat split; reflexivity. }
  assert (Hsym : forall y, y ∈ r -> str_symbol (get P' y) = sym).
  { intros y Hy. rewrite Hg. destruct (decide (y ∈ r)); [|contradiction].
    destruct (decide _) as [|Hn]; [reflexivity|]. exfalso. apply Hn.
    exact (inv_ring_dom _ _ HI _ y Hr Hy). }
  assert (Hout : forall y, y ∉ r -> get P' y = get (strings st) y).
  { intros y Hy. rewrite Hg. destruct (decide (y ∈ r)); [contradiction|reflexivity]. }
  pose proof (inv_rings _ _ _ _ _ HI) as Hrs.
  constructor; cbn [PG_Canons_By_Hash strings next_node PG_Num_Canon_Slots_In_Use PG_Num_Canon_Deleteds].
  - rewrite Forall_forall in *. intros r2 Hr2.
    destruct (decide (r2 = r)) as [->|Hne].
    + pose proof (Hrs r Hr) as Hok. destruct r as [|c ms]; [contradiction|].
      destruct Hok as (Hc & Hms & Hl & Hfo & _ & Hnd8).
      split; [rewrite (proj1 (proj2 (Hf c))); exact Hc|].
      split; [rewrite Forall_forall in *; intros m Hm; rewrite (proj1 (proj2 (Hf m))); auto|].
      split; [intros i x Hx; rewrite (proj2 (proj2 (Hf x))), (Hl i x Hx); reflexivity|].
      split; [rewrite Forall_forall in *; intros y Hy; rewrite !(proj1 (Hf _)); auto|].
      split; [rewrite Forall_forall; intros y Hy; rewrite !Hsym by (auto; left); reflexivity|].
      assert (Hm : map (fun y => str_utf8 (get P' y)) (c :: ms) =
                   map (fun y => str_utf8 (get (strings st) y)) (c :: ms))
        by (apply map_ext; intros y; exact (proj1 (Hf y))).
      rewrite Hm. exact Hnd8.
    + apply (ring_ok_ext (strings st)); [|exact (Hrs r2 Hr2)].
      intros y Hy. apply Hout. intros Hyr. apply Hne.
      exact (NoDup_concat_same rings r2 r y (inv_nodup _ _ _ _ _ HI) Hr2 Hr Hy Hyr).
  - exact (inv_nodup _ _ _ _ _ HI).
  - intros y. rewrite Hdom. exact (inv_dom _ _ _ _ _ HI y).
  - intros y Hy. apply (inv_fresh _ _ _ _ _ HI). apply Hdom. exact Hy.
  - exact (inv_heads _ _ _ _ _ HI).
  - assert (Hm : map (canon_fold fold P') (table_canons (PG_Canons_By_Hash st)) =
                 map (canon_fold fold (strings st)) (table_canons (PG_Canons_By_Hash st)))
      by (apply map_ext; intros y; unfold canon_fold; rewrite (proj1 (Hf y)); reflexivity).
    rewrite Hm. exact (inv_folds _ _ _ _ _ HI).
  - apply (paths_transfer (strings st) P' (PG_Canons_By_Hash st)); [reflexivity| | |exact (inv_paths _ _ _ _ _ HI)].
    + intros j v Hv Hnv. eauto.
    + intros j z Hz. exists z. split; [exact Hz|]. unfold Hash_String. rewrite (proj1 (Hf z)). reflexivity.
  - exact (inv_in_use _ _ _ _ _ HI).
  - exact (inv_deleteds _ _ _ _ _ HI).
Qed.

Lemma startup_inv words : forall st rings sym st' cs,
  interner_inv fold hash_folded FHCS st rings ->
  Startup_Symbols_From st words sym = Ok (st', cs) ->
  interner_inv fold hash_folded FHCS st' rings.
Proof.
  induction words as [|w rest IH]; intros st rings sym st' cs HI H; simpl in H.
  - injection H as <- _. exact HI.
  - destruct (STR_CANON st w) as [canon|] eqn:Hc; [|discriminate].
    destruct (tag_ring (next_node st) (strings st) canon canon sym) as [P'|] eqn:Ht; [|discriminate].
    match type of H with (match ?e with _ => _ end = _) => destruct e as [[st'' cs']| |] eqn:Hr end;
      try discriminate.
    injection H as <- _. refine (IH _ rings _ _ _ _ Hr).
    assert (Hw : is_Some (strings st !! w)).
    { unfold STR_CANON in Hc. destruct (next_node st); [discriminate|]. simpl in Hc.
      destruct (strings st !! w); [eauto|discriminate]. }
    destruct (inv_ring_of st rings HI w Hw) as (r & Hr' & Hwr).
    rewrite (inv_STR_CANON st rings HI r w Hr' Hwr) in Hc. injection Hc as <-.
    apply (tag_inv st rings r P' sym HI Hr').
    pose proof (inv_ring_ok _ _ HI _ Hr') as Hok. pose proof (inv_ring_nodup _ _ HI _ Hr') as Hnd.
    destruct r as [|c ms]; [contradiction|].
    apply (tag_ring_sound (strings st) c ms sym P' Hok Hnd (next_node st) 0 (strings st));
      [simpl; lia| |exact Ht].
    intros y. simpl. destruct (decide (y ∈ [])) as [Hy|]; [inversion Hy|reflexivity].
Qed.

Lemma Startup_Interning_inv nd : interner_inv fold hash_folded FHCS (Startup_Interning nd) [].
Proof.
  constructor; simpl.
  - constructor.
  - constructor.
  - intros y. rewrite lookup_empty. split; [intros [? E]; discriminate|intros Hy; inversion Hy].
  - intros y [? E]. rewrite lookup_empty in E. discriminate.
  - rewrite repeat_vacant_canons. reflexivity.
  - rewrite repeat_vacant_canons. constructor.
  - intros i c Hi. apply repeat_vacant_lookup in Hi. discriminate.
  - rewrite repeat_vacant_canons, repeat_vacant_deleted. reflexivity.
  - rewrite repeat_vacant_deleted. reflexivity.
Qed.

Lemma run_inv ops : forall st rings st',
  interner_inv fold hash_folded FHCS st rings ->
  run fold hash_folded FHCS st ops = Ok st' ->
  exists rings', interner_inv fold hash_folded FHCS st' rings'.
Proof.
  induction ops as [|o ops IH]; intros st rings st' HI H; simpl in H.
  - injection H as <-. eauto.
  - destruct (step fold hash_folded FHCS st o) as [st1| |] eqn:Hs; try discriminate.
    assert (Hst1 : exists rings1, interner_inv fold hash_folded FHCS st1 rings1).
    { destruct o as [u|x|words]; simpl in Hs.
      - destruct (Intern_UTF8_Managed fold hash_folded FHCS st u) as [[st2 y]| |] eqn:Hi; try discriminate.
        injection Hs as <-. destruct (intern_inv st rings u st2 y HI Hi) as (Hr & _). exact Hr.
      - exact (kill_inv st rings x st1 HI Hs).
      - destruct (Startup_Symbols st words) as [[st2 cs]| |] eqn:Hw; try discriminate.
        injection Hs as <-. exists rings. exact (startup_inv words st rings 1 st2 cs HI Hw). }
    destruct Hst1 as (rings1 & HI1). exact (IH st1 rings1 st' HI1 H).
Qed.

Lemma inv_canon_iff st rings x y : interner_inv fold hash_folded FHCS st rings ->
  is_Some (strings st !! x) -> is_Some (strings st !! y) ->
  (STR_CANON st x = STR_CANON st y <->
   fold (str_utf8 (get (strings st) x)) = fold (str_utf8 (get (strings st) y))).
Proof.
  intros HI Hx Hy.
  destruct (inv_ring_of st rings HI x Hx) as (rx & Hrx & Hxr).
  destruct (inv_ring_of st rings HI y Hy) as (ry & Hry & Hyr).
  rewrite (inv_STR_CANON st rings HI rx x Hrx Hxr), (inv_STR_CANON st rings HI ry y Hry Hyr).
  rewrite (inv_ring_fold st rings HI rx x Hrx Hxr), (inv_ring_fold st rings HI ry y Hry Hyr).
  split.
  - intros E. injection E as E. rewrite E. reflexivity.
  - intros E. rewrite (inv_same_fold st rings HI rx ry Hrx Hry E). reflexivity.
Qed.

End InternProofs.

Lemma Get_Hash_Prime_From_first ps size : Get_Hash_Prime_From ps size <> 0%N ->
  exists pre post, ps = pre ++ Get_Hash_Prime_From ps size :: post /\
    Forall (fun q => (q < size)%N) pre /\ (size <= Get_Hash_Prime_From ps size)%N.
Proof.
  induction ps as [|p ps IH]; simpl; intros H; [congruence|].
  destruct (N.eqb_spec p 0); [congruence|].
  destruct (N.ltb_spec p size) as [Hlt|Hge].
  - destruct (IH H) as (pre & post & E & F & L). exists (p :: pre), post.
    split; [simpl; f_equal; exact E|]. split; [constructor; assumption|exact L].
  - exists [], ps. split; [reflexivity|]. split; [constructor|exact Hge].
Qed.

Lemma count_deleted_zero T p : count_deleted T = 0 -> T !! p = Some DELETED_CANON -> False.
Proof.
  intros H Hp. rewrite (count_deleted_split T p _ Hp) in H. simpl in H. lia.
Qed.

Section GrowthProofs.
Context (fold : list Byte.byte -> list Byte.byte) (hash_folded : list Byte.byte -> nat)
        (FHCS : nat -> nat -> nat * nat).

Lemma Expand_Word_Table_shape st st1 :
  Expand_Word_Table fold hash_folded FHCS st = Ok st1 ->
  to_REBCNT (Get_Hash_Prime (N.of_nat (length (PG_Canons_By_Hash st)) + 1)) <> 0%N /\
  length (PG_Canons_By_Hash st1) = N.to_nat (to_REBCNT (Get_Hash_Prime (N.of_nat (length (PG_Canons_By_Hash st)) + 1))) /\
  count_deleted (PG_Canons_By_Hash st1) = 0 /\ strings st1 = strings st /\ next_node st1 = next_node st.
Proof.
  intros He. unfold Expand_Word_Table in He.
  destruct (N.eqb_spec (to_REBCNT (Get_Hash_Prime (N.of_nat (length (PG_Canons_By_Hash st)) + 1))) 0) as [|Hnz];
    [discriminate|].
  set (n := N.to_nat (to_REBCNT (Get_Hash_Prime (N.of_nat (length (PG_Canons_By_Hash st)) + 1)))) in *.
  destruct (rehash _ _ _ _ _ _ _ _ _) as [[[T' in_use'] del']|] eqn:Hr; [|discriminate].
  injection He as <-. simpl.
  destruct (rehash_sound fold hash_folded FHCS _ _ _ _ _ _ _ _ _ Hr) as (Hok & _ & _ & _).
  { split; [apply repeat_length|]. split; [apply repeat_vacant_deleted|].
    intros i c Hi. apply repeat_vacant_lookup in Hi. discriminate. }
  destruct Hok as (Hlen & Hdel & _). auto.
Qed.

Lemma intern_grown_table st u st' x :
  Nat.div (length (PG_Canons_By_Hash st)) 2 < PG_Num_Canon_Slots_In_Use st ->
  Intern_UTF8_Managed fold hash_folded FHCS st u = Ok (st', x) ->
  exists st1, Expand_Word_Table fold hash_folded FHCS st = Ok st1 /\
    (PG_Canons_By_Hash st' = PG_Canons_By_Hash st1 \/
     exists p c, PG_Canons_By_Hash st1 !! p = Some Vacant /\
                 PG_Canons_By_Hash st' = <[p := Canon c]> (PG_Canons_By_Hash st1)).
Proof.
  intros Hgt H. unfold Intern_UTF8_Managed in H. cbv zeta in H.
  apply Nat.ltb_lt in Hgt. rewrite Hgt in H.
  destruct (Expand_Word_Table fold hash_folded FHCS st) as [st1| |] eqn:He; try discriminate.
  exists st1. split; [reflexivity|].
  destruct (Expand_Word_Table_shape st st1 He) as (_ & _ & Hcd & _).
  destruct (FHCS (Hash_UTF8 fold hash_folded u) (length (PG_Canons_By_Hash st1))) as [s0 skip] eqn:Hfs.
  set (n := length (PG_Canons_By_Hash st1)) in *.
  destruct (probe fold n n skip s0 None (PG_Canons_By_Hash st1) (strings st1) u) as [res|] eqn:Hpr;
    [|discriminate].
  destruct (probe_sound fold (PG_Canons_By_Hash st1) (strings st1) u n skip s0 n 0 None res Hpr)
    as (m & Hm & Hscan & Hres); [intros j Hj; lia|left; reflexivity|].
  destruct res as [c|c|slot d]; simpl in Hres.
  - injection H as <- <-. left. reflexivity.
  - destruct (strings st1 !! c) as [rc|]; [|discriminate].
    destruct (walk_synonyms _ _ _ _ _ _) as [[s'|]|]; [| |discriminate].
    + injection H as <- <-. left. reflexivity.
    + injection H as <- <-. left. reflexivity.
  - destruct Hres as (-> & Hvac & Hd). injection H as <- <-.
    destruct Hd as [->|(j & Hj & -> & Hdel)].
    + right. eexists _, _. split; [exact Hvac|reflexivity].
    + exfalso. exact (count_deleted_zero _ _ Hcd Hdel).
Qed.


Lemma reachable_inv nd ops st :
  run fold hash_folded FHCS (Startup_Interning nd) ops = Ok st ->
  exists rings, interner_inv fold hash_folded FHCS st rings.
Proof.
  intros H. exact (run_inv fold hash_folded FHCS ops _ [] st (Startup_Interning_inv fold hash_folded FHCS nd) H).
Qed.

(** C7: on a reachable interner whose occupied slots (live canons plus
    tombstones) exceed half the table, interning first grows the table.
    When Get_Hash_Prime finds no prime for the old size plus one, the
    intern fails with SizeLimit of that size.  When the intern succeeds,
    the new size is the first prime of the table of primes that is at
    least the old size plus one; the new table has no tombstone, no
    tombstone is counted any more, and the in-use count is the number of
    live canons. *)
Theorem Intern_growth_policy nd ops st u :
  run fold hash_folded FHCS (Startup_Interning nd) ops = Ok st ->
  Nat.div (length (PG_Canons_By_Hash st)) 2 <
    length (table_canons (PG_Canons_By_Hash st)) + count_deleted (PG_Canons_By_Hash st) ->
  (to_REBCNT (Get_Hash_Prime (N.of_nat (length (PG_Canons_By_Hash st)) + 1)) = 0%N ->
   Intern_UTF8_Managed fold hash_folded FHCS st u =
     Fail_Size_Limit (N.of_nat (length (PG_Canons_By_Hash st)) + 1)) /\
  (forall st' x, Intern_UTF8_Managed fold hash_folded FHCS st u = Ok (st', x) ->
   let p := to_REBCNT (Get_Hash_Prime (N.of_nat (length (PG_Canons_By_Hash st)) + 1)) in
   (exists pre post, Primes = pre ++ p :: post /\
      Forall (fun q => (q < N.of_nat (length (PG_Canons_By_Hash st)) + 1)%N) pre) /\
   (N.of_nat (length (PG_Canons_By_Hash st)) + 1 <= p)%N /\
   length (PG_Canons_By_Hash st') = N.to_nat p /\
   count_deleted (PG_Canons_By_Hash st') = 0 /\
   PG_Num_Canon_Deleteds st' = 0 /\
   PG_Num_Canon_Slots_In_Use st' = length (table_canons (PG_Canons_By_Hash st'))).
Proof.
  intros Hrun Hgt. destruct (reachable_inv nd ops st Hrun) as (rings & HI).
  rewrite <- (inv_in_use _ _ _ _ _ HI) in Hgt. split.
  - intros Hz. unfold Intern_UTF8_Managed. cbv zeta.
    apply Nat.ltb_lt in Hgt. rewrite Hgt. unfold Expand_Word_Table. rewrite Hz. reflexivity.
  - intros st' x H p.
    destruct (intern_inv fold hash_folded FHCS st rings u st' x HI H) as ((rings' & HI') & _).
    destruct (intern_grown_table st u st' x Hgt H) as (st1 & He & Ht).
    destruct (Expand_Word_Table_shape st st1 He) as (Hnz & Hlen & Hcd & _).
    rewrite Get_Hash_Prime_REBCNT in Hnz, Hlen.
    assert (Hp : p = Get_Hash_Prime_From Primes (N.of_nat (length (PG_Canons_By_Hash st)) + 1))
      by apply Get_Hash_Prime_REBCNT.
    clearbody p. subst p.
    destruct (Get_Hash_Prime_From_first Primes _ Hnz) as (pre & post & Ep & Fp & Lp).
    assert (Hshape : length (PG_Canons_By_Hash st') = N.to_nat (Get_Hash_Prime_From Primes (N.of_nat (length (PG_Canons_By_Hash st)) + 1)) /\
                     count_deleted (PG_Canons_By_Hash st') = 0).
    { destruct Ht as [->|(q & c & Hq & ->)]; [split; assumption|].
      assert (Hql : q < length (PG_Canons_By_Hash st1)) by (apply lookup_lt_Some in Hq; exact Hq).
      rewrite length_insert, count_deleted_insert by exact Hql.
      rewrite (list_insert_id' _ _ _ (fun _ => Hq)). split; [exact Hlen|simpl; exact Hcd]. }
    destruct Hshape as (Hl' & Hc').
    split; [exists pre, post; split; [exact Ep|exact Fp]|].
    split; [exact Lp|]. split; [exact Hl'|]. split; [exact Hc'|].
    rewrite (inv_deleteds _ _ _ _ _ HI'), (inv_in_use _ _ _ _ _ HI'), Hc'. split; [reflexivity|lia].
Qed.


Lemma find_link_to_found f P x t temp :
  find_link_to f P x t = Some temp -> exists rt, P !! temp = Some rt /\ str_synonym rt = x.
Proof.
  revert t. induction f as [|f IH]; intros t H; [discriminate|]. simpl in H.
  destruct (P !! t) as [r|] eqn:Ht; [|discriminate].
  destruct (Nat.eqb_spec (str_synonym r) x) as [E|]; [injection H as <-; eauto|exact (IH _ H)].
Qed.

(** C8 (what the code does): GC_Kill_Interning unlinks the dying node [x]
    by making its ring predecessor [temp] link to [x]'s successor.  A non-canon is only
    unlinked: the hash table and its counters stay as they were.  A canon
    with a nontrivial ring is replaced in its hash slot by its successor,
    which becomes canon.  A canon alone in its ring turns its own slot
    into a tombstone, all other slots unchanged, and the tombstone count
    goes up by one. *)
Theorem GC_Kill_Interning_effect st x st' :
  GC_Kill_Interning fold hash_folded FHCS st x = Ok st' ->
  exists ri temp rt,
    strings st !! x = Some ri /\ strings st !! temp = Some rt /\ str_synonym rt = x /\
    let P1 := <[temp := set_synonym rt (str_synonym ri)]> (strings st) in
    (str_canon ri = false ->
       st' = mk_interner (PG_Canons_By_Hash st) (PG_Num_Canon_Slots_In_Use st)
               (PG_Num_Canon_Deleteds st) P1 (next_node st)) /\
    (str_canon ri = true ->
       exists slot, PG_Canons_By_Hash st !! slot = Some (Canon x) /\
       (str_synonym ri <> x ->
          exists rs, P1 !! str_synonym ri = Some rs /\
          st' = mk_interner (<[slot := Canon (str_synonym ri)]> (PG_Canons_By_Hash st))
                  (PG_Num_Canon_Slots_In_Use st) (PG_Num_Canon_Deleteds st)
                  (<[str_synonym ri := set_canon rs]> P1) (next_node st)) /\
       (str_synonym ri = x ->
          st' = mk_interner (<[slot := DELETED_CANON]> (PG_Canons_By_Hash st))
                  (PG_Num_Canon_Slots_In_Use st) (S (PG_Num_Canon_Deleteds st))
                  P1 (next_node st))).
Proof.
  intros H. unfold GC_Kill_Interning in H.
  destruct (strings st !! x) as [ri|] eqn:Hx; [|discriminate].
  destruct (find_link_to (next_node st) (strings st) x (str_synonym ri)) as [temp|] eqn:Hf;
    [|discriminate].
  destruct (strings st !! temp) as [rt|] eqn:Ht; [|discriminate].
  destruct (find_link_to_found _ _ _ _ _ Hf) as (rt' & Ht' & Hsyn).
  rewrite Ht in Ht'. injection Ht' as <-.
  exists ri, temp, rt. do 2 (split; [first [reflexivity|assumption]|]). split; [exact Hsyn|].
  cbv zeta. destruct (str_canon ri) eqn:Hc; cbv beta iota delta [negb] in H.
  - split; [discriminate|]. intros _.
    destruct (FHCS _ _) as [slot0 skip] eqn:Hfs.
    destruct (find_canon_slot _ _ _ _ _ _) as [slot|] eqn:Hs; [|discriminate].
    exists slot. split; [exact (find_canon_slot_sound _ _ _ _ _ _ _ Hs)|].
    destruct (Nat.eqb_spec (str_synonym ri) x) as [E|E]; cbv beta iota delta [negb] in H.
    + split; [intros; contradiction|]. intros _.
      destruct (ripple _ _ _ _ _ _) as [tbl'|] eqn:Hr; [|discriminate].
      injection H as <-. rewrite (ripple_overwrite _ _ _ _ _ _ _ DELETED_CANON Hr). reflexivity.
    + split; [|intros; contradiction]. intros _.
      destruct (_ !! str_synonym ri) as [rs|] eqn:Hrs; [|discriminate].
      injection H as <-. exists rs. split; [first [reflexivity|exact Hrs]|reflexivity].
  - split; [|discriminate]. intros _. injection H as <-. reflexivity.
Qed.


Lemma live_STR_CANON st rings x : interner_inv fold hash_folded FHCS st rings ->
  is_Some (strings st !! x) ->
  exists c, STR_CANON st x = Some c /\ is_Some (strings st !! c) /\
            str_symbol (get (strings st) x) = str_symbol (get (strings st) c).
Proof.
  intros HI Hx. destruct (inv_ring_of fold hash_folded FHCS st rings HI x Hx) as (r & Hr & Hxr).
  exists (hd 0 r). split; [exact (inv_STR_CANON fold hash_folded FHCS st rings HI r x Hr Hxr)|].
  split; [|exact (inv_ring_symbol fold hash_folded FHCS st rings HI r x Hr Hxr)].
  apply (inv_ring_dom fold hash_folded FHCS st rings HI r); [exact Hr|].
  destruct r as [|c ms]; [inversion Hxr|]. left.
Qed.

(** C2: on a reachable interner, interning [s] and then [t] gives two
    symbols whose canons (STR_CANON) are equal exactly when [s] and [t]
    fold to the same spelling; interning the same bytes twice gives the
    same symbol. *)
Theorem Intern_canon_classes nd ops st s t st1 a st2 b :
  run fold hash_folded FHCS (Startup_Interning nd) ops = Ok st ->
  Intern_UTF8_Managed fold hash_folded FHCS st s = Ok (st1, a) ->
  Intern_UTF8_Managed fold hash_folded FHCS st1 t = Ok (st2, b) ->
  is_Some (STR_CANON st2 a) /\
  (STR_CANON st2 a = STR_CANON st2 b <-> fold s = fold t) /\
  (t = s -> b = a).
Proof.
  intros Hrun H1 H2. destruct (reachable_inv nd ops st Hrun) as (rings & HI).
  destruct (intern_inv fold hash_folded FHCS st rings s st1 a HI H1)
    as ((rings1 & HI1) & Ha1 & Hua1 & _).
  destruct (intern_inv fold hash_folded FHCS st1 rings1 t st2 b HI1 H2)
    as ((rings2 & HI2) & Hb & Hub & Hpres).
  destruct (Hpres a Ha1) as (Ha & Hua). rewrite Hua1 in Hua.
  split; [destruct (live_STR_CANON st2 rings2 a HI2 Ha) as (c & -> & _); eauto|].
  split.
  - rewrite (inv_canon_iff fold hash_folded FHCS st2 rings2 a b HI2 Ha Hb), Hua, Hub. reflexivity.
  - intros ->. symmetry. apply (inv_utf8_unique fold hash_folded FHCS st2 rings2 HI2 a b Ha Hb).
    rewrite Hua, Hub. reflexivity.
Qed.

(** C10: in a reachable interner every live symbol has a canon, and it
    reports the same SYM_XXX number (STR_SYMBOL) as that canon. *)
Theorem STR_SYMBOL_canon nd ops st x :
  run fold hash_folded FHCS (Startup_Interning nd) ops = Ok st ->
  is_Some (strings st !! x) ->
  exists c, STR_CANON st x = Some c /\ is_Some (strings st !! c) /\
            STR_SYMBOL st x = STR_SYMBOL st c.
Proof.
  intros Hrun Hx. destruct (reachable_inv nd ops st Hrun) as (rings & HI).
  destruct (live_STR_CANON st rings x HI Hx) as (c & Hc & Hcl & Hsym).
  exists c. split; [exact Hc|]. split; [exact Hcl|].
  unfold STR_SYMBOL, get in *. destruct Hx as [rx Erx]. destruct Hcl as [rc Erc].
  rewrite Erx, Erc in *. simpl in *. rewrite Hsym. reflexivity.
Qed.

End GrowthProofs.

Lemma Intern_canon_classes_witness :
  run fold_ascii hash_sum linear_first_slot (Startup_Interning false) ex_abcd = Ok ex_st /\
  Intern_UTF8_Managed fold_ascii hash_sum linear_first_slot ex_st (bytes "Foo") = Ok (ex_st1, ex_a) /\
  Intern_UTF8_Managed fold_ascii hash_sum linear_first_slot ex_st1 (bytes "foo") = Ok (ex_st2, ex_b) /\
  is_Some (STR_CANON ex_st2 ex_a) /\
  (STR_CANON ex_st2 ex_a = STR_CANON ex_st2 ex_b <->
   fold_ascii (bytes "Foo") = fold_ascii (bytes "foo")) /\
  (bytes "foo" = bytes "Foo" -> ex_b = ex_a).
Proof.
  assert (H1 : run fold_ascii hash_sum linear_first_slot (Startup_Interning false) ex_abcd = Ok ex_st)
    by (vm_compute; reflexivity).
  assert (H2 : Intern_UTF8_Managed fold_ascii hash_sum linear_first_slot ex_st (bytes "Foo")
               = Ok (ex_st1, ex_a)) by (vm_compute; reflexivity).
  assert (H3 : Intern_UTF8_Managed fold_ascii hash_sum linear_first_slot ex_st1 (bytes "foo")
               = Ok (ex_st2, ex_b)) by (vm_compute; reflexivity).
  exact (conj H1 (conj H2 (conj H3
    (Intern_canon_classes fold_ascii hash_sum linear_first_slot false ex_abcd _ _ _ _ _ _ _ H1 H2 H3)))).
Defined.

Lemma Intern_growth_policy_witness :
  run fold_ascii hash_sum linear_first_slot (Startup_Interning false) ex_abcd = Ok ex_st /\
  Nat.div (length (PG_Canons_By_Hash ex_st)) 2 <
    length (table_canons (PG_Canons_By_Hash ex_st)) + count_deleted (PG_Canons_By_Hash ex_st) /\
  Intern_UTF8_Managed fold_ascii hash_sum linear_first_slot ex_st (bytes "e") = Ok (ex_st5, ex_x5) /\
  length (PG_Canons_By_Hash ex_st5) = N.to_nat (to_REBCNT (Get_Hash_Prime (N.of_nat (length (PG_Canons_By_Hash ex_st)) + 1))) /\
  count_deleted (PG_Canons_By_Hash ex_st5) = 0.
Proof.
  assert (H1 : run fold_ascii hash_sum linear_first_slot (Startup_Interning false) ex_abcd = Ok ex_st)
    by (vm_compute; reflexivity).
  assert (H2 : Nat.div (length (PG_Canons_By_Hash ex_st)) 2 <
    length (table_canons (PG_Canons_By_Hash ex_st)) + count_deleted (PG_Canons_By_Hash ex_st))
    by (vm_compute; lia).
  assert (H3 : Intern_UTF8_Managed fold_ascii hash_sum linear_first_slot ex_st (bytes "e")
               = Ok (ex_st5, ex_x5)) by (vm_compute; reflexivity).
  destruct (Intern_growth_policy fold_ascii hash_sum linear_first_slot false ex_abcd ex_st (bytes "e") H1 H2)
    as (_ & G).
  destruct (G ex_st5 ex_x5 H3) as (_ & _ & Hl & Hc & _).
  exact (conj H1 (conj H2 (conj H3 (conj Hl Hc)))).
Defined.

(** After interning "a" to "d" in a debug build the table has 7 slots
    and 4 of them in use; interning "e" grows it to 13 slots, less than
    double. *)
Lemma Intern_growth_counterexample :
  run fold_ascii hash_sum linear_first_slot (Startup_Interning false) ex_abcd = Ok ex_st /\
  length (PG_Canons_By_Hash ex_st) = 7 /\
  Nat.div (length (PG_Canons_By_Hash ex_st)) 2 <
    length (table_canons (PG_Canons_By_Hash ex_st)) + count_deleted (PG_Canons_By_Hash ex_st) /\
  Intern_UTF8_Managed fold_ascii hash_sum linear_first_slot ex_st (bytes "e") = Ok (ex_st5, ex_x5) /\
  length (PG_Canons_By_Hash ex_st5) = 13 /\
  length (PG_Canons_By_Hash ex_st5) < 2 * length (PG_Canons_By_Hash ex_st).
Proof. vm_compute. repeat split; lia || reflexivity. Qed.

(** Killing "h", a lone canon. *)
Lemma GC_Kill_Interning_effect_witness :
  GC_Kill_Interning fold_ascii hash_sum linear_first_slot ex_chain 1 = Ok (ex_kill ex_chain 1) /\
  exists ri temp rt,
    strings ex_chain !! 1 = Some ri /\ strings ex_chain !! temp = Some rt /\ str_synonym rt = 1 /\
    (str_canon ri = true ->
       exists slot, PG_Canons_By_Hash ex_chain !! slot = Some (Canon 1) /\
       (str_synonym ri = 1 ->
          ex_kill ex_chain 1 =
            mk_interner (<[slot := DELETED_CANON]> (PG_Canons_By_Hash ex_chain))
              (PG_Num_Canon_Slots_In_Use ex_chain) (S (PG_Num_Canon_Deleteds ex_chain))
              (<[temp := set_synonym rt (str_synonym ri)]> (strings ex_chain)) (next_node ex_chain))).
Proof.
  assert (H : GC_Kill_Interning fold_ascii hash_sum linear_first_slot ex_chain 1 = Ok (ex_kill ex_chain 1))
    by (vm_compute; reflexivity).
  split; [exact H|].
  destruct (GC_Kill_Interning_effect fold_ascii hash_sum linear_first_slot _ _ _ H)
    as (ri & temp & rt & Hx & Ht & Hs & _ & Hc).
  exists ri, temp, rt. split; [exact Hx|]. split; [exact Ht|]. split; [exact Hs|].
  intros Hci. destruct (Hc Hci) as (slot & Hslot & _ & Hlone).
  exists slot. split; [exact Hslot|]. exact Hlone.
Defined.

(** C8 (code bug): "a", "h" and "o" all hash to slot 6 of the 7-slot
    table, so "h" (symbol 1) lands in slot 0 and "o" (symbol 2) in slot 1.
    Killing "h", a canon alone in its ring, does not ripple "o" back along
    the probe chain: the ripple loop never advances [previous_slot], so
    every copy lands in slot 0, which is then overwritten with
    DELETED_CANON, and "o" stays in slot 1 behind the tombstone. *)
Lemma GC_Kill_Interning_counterexample :
  PG_Canons_By_Hash ex_chain = [Canon 1; Canon 2; Vacant; Vacant; Vacant; Vacant; Canon 0] /\
  GC_Kill_Interning fold_ascii hash_sum linear_first_slot ex_chain 1 = Ok (ex_kill ex_chain 1) /\
  PG_Canons_By_Hash (ex_kill ex_chain 1) =
    [DELETED_CANON; Canon 2; Vacant; Vacant; Vacant; Vacant; Canon 0].
Proof. vm_compute. repeat split. Qed.

Lemma STR_SYMBOL_canon_witness :
  run fold_ascii hash_sum linear_first_slot (Startup_Interning false)
    (ex_Foo_foo ++ [Op_Startup_Symbols [1]]) = Ok ex_tagged /\
  is_Some (strings ex_tagged !! 1) /\
  exists c, STR_CANON ex_tagged 1 = Some c /\
    STR_SYMBOL ex_tagged 1 =
    STR_SYMBOL ex_tagged c.
Proof.
  assert (H1 : run fold_ascii hash_sum linear_first_slot (Startup_Interning false)
    (ex_Foo_foo ++ [Op_Startup_Symbols [1]]) = Ok ex_tagged)
    by (vm_compute; reflexivity).
  assert (H2 : is_Some (strings ex_tagged !! 1))
    by (vm_compute; eauto).
  destruct (STR_SYMBOL_canon fold_ascii hash_sum linear_first_slot false _ _ 1 H1 H2) as (c & Hc & _ & Hs).
  exact (conj H1 (conj H2 (ex_intro _ c (conj Hc Hs)))).
Defined.

End InterningFacts.

(* --------------------------------------------------------------------- *)
(* Garbage collector                                                      *)
(* --------------------------------------------------------------------- *)

Module GCFacts.
Import GC GCExamples.

Definition nib (s : gc_node) : Z := Z.shiftr (first_byte s) 4.

Lemma IS_MANAGED_nib s : IS_MANAGED s = Z.testbit (nib s) 1.
Proof. unfold IS_MANAGED, nib. rewrite Z.shiftr_spec by lia. reflexivity. Qed.

Lemma IS_MARKED_nib s : IS_MARKED s = Z.testbit (nib s) 0.
Proof. unfold IS_MARKED, nib. rewrite Z.shiftr_spec by lia. reflexivity. Qed.

Definition set_marked (s : gc_node) : gc_node :=
  mk_gc_node (Z.lor (first_byte s) NODE_FLAG_MARKED) (node_refs s).

Lemma nib_set_marked s : nib (set_marked s) = Z.lor (nib s) 1.
Proof. unfold nib, set_marked, NODE_FLAG_MARKED; simpl. rewrite Z.shiftr_lor. reflexivity. Qed.

Lemma IS_MANAGED_set_marked s : IS_MANAGED (set_marked s) = IS_MANAGED s.
Proof. unfold IS_MANAGED, set_marked, NODE_FLAG_MARKED; cbn [first_byte]. rewrite Z.lor_spec. apply orb_false_r. Qed.

Lemma IS_MARKED_set_marked s : IS_MARKED (set_marked s) = true.
Proof. unfold IS_MARKED, set_marked, NODE_FLAG_MARKED; cbn [first_byte]. rewrite Z.lor_spec. apply orb_true_r. Qed.

Lemma sweep_node_cases s s' c :
  sweep_node s = Some (s', c) ->
  (nib s = 8%Z /\ s' = s /\ c = 0) \/
  (nib s = 10%Z /\ s' = freed_node /\ c = 1) \/
  (nib s = 11%Z /\ s' = mk_gc_node (Z.land (first_byte s) (Z.lnot NODE_FLAG_MARKED)) (node_refs s)
     /\ c = 0) \/
  (nib s = 12%Z /\ s' = s /\ c = 0).
Proof.
  unfold sweep_node, nib. intros H.
  destruct (Z.to_nat (Z.shiftr (first_byte s) 4)) as
    [|[|[|[|[|[|[|[|[|[|[|[|[|n]]]]]]]]]]]]] eqn:E; try discriminate;
  injection H as <- <-.
  - left; repeat split; lia.
  - right; left; repeat split; lia.
  - right; right; left; repeat split; lia.
  - right; right; right; repeat split; lia.
Qed.

Lemma nib_cleared s :
  nib (mk_gc_node (Z.land (first_byte s) (Z.lnot NODE_FLAG_MARKED)) (node_refs s))
  = Z.land (nib s) (-2).
Proof. unfold nib, NODE_FLAG_MARKED; simpl. rewrite Z.shiftr_land. reflexivity. Qed.


Lemma sweep_node_refs s s' c :
  sweep_node s = Some (s', c) ->
  IS_MANAGED s && negb (IS_MARKED s) = false ->
  node_refs s' = node_refs s.
Proof.
  intros H Hm. rewrite IS_MANAGED_nib, IS_MARKED_nib in Hm.
  destruct (sweep_node_cases _ _ _ H) as [(E & -> & _)|[(E & -> & _)|[(E & -> & _)|(E & -> & _)]]];
    rewrite ?E in Hm; try reflexivity; discriminate.
Qed.


Lemma Sweep_Series_zero pool :
  Forall (fun s => nib s = 8%Z \/ nib s = 11%Z \/ nib s = 12%Z) pool ->
  exists pool', Sweep_Series pool = Some (pool', 0) /\
    map IS_MANAGED pool' = map IS_MANAGED pool.
Proof.
  induction 1 as [|s rest Hs Hrest IH]; simpl.
  - exists []. split; reflexivity.
  - destruct IH as (rest' & Hr & Hm). rewrite Hr.
    unfold sweep_node. fold (nib s).
    destruct Hs as [E|[E|E]]; rewrite E; simpl.
    + exists (s :: rest'). split; [reflexivity|]. simpl. f_equal. exact Hm.
    + eexists. split; [reflexivity|]. simpl. f_equal; [|exact Hm].
      rewrite !IS_MANAGED_nib, nib_cleared, E. reflexivity.
    + exists (s :: rest'). split; [reflexivity|]. simpl. f_equal. exact Hm.
Qed.








End GCFacts.

(* --------------------------------------------------------------------- *)
(* Dispatchers                                                            *)
(* --------------------------------------------------------------------- *)

Module DispatchFacts.
Import Dispatch DispatchExamples.

(** C5: the Returner dispatcher evaluates the body into the output cell.
    A throw is passed on as R_OUT_IS_THROWN without any check.  Otherwise
    the result is checked against the typeset of the last parameter: the
    dispatcher fails with Error_Bad_Return_Type exactly when the result's
    kind is not in that typeset, and else returns R_OUT with the body's
    result unchanged in the output cell. *)
Theorem Returner_Dispatcher_contract (B : Type) (Do_At_Throws : B -> do_result)
    (f : returner_frame B) (typeset : Z) :
  last (func_params (f_phase f)) = Some typeset ->
  match Do_At_Throws (f_body f) with
  | Do_Thrown v =>
      Returner_Dispatcher Do_At_Throws f
      = (mk_returner_frame (f_phase f) (f_body f) (Some v), R_OUT_IS_THROWN)
  | Do_Normal v =>
      (snd (Returner_Dispatcher Do_At_Throws f) = R_FAIL (Error_Bad_Return_Type (VAL_TYPE v))
       <-> TYPE_CHECK typeset (VAL_TYPE v) = false) /\
      (TYPE_CHECK typeset (VAL_TYPE v) = true ->
       Returner_Dispatcher Do_At_Throws f
       = (mk_returner_frame (f_phase f) (f_body f) (Some v), R_OUT))
  end.
Proof.
  intros Hlast. unfold Returner_Dispatcher. rewrite Hlast. simpl.
  destruct (Do_At_Throws (f_body f)) as [v|v]; [|reflexivity].
  destruct (TYPE_CHECK typeset (VAL_TYPE v)); simpl.
  - split; [split; intros H; discriminate|intros _; reflexivity].
  - split; [split; intros _; reflexivity|intros H; discriminate].
Qed.

Lemma chain_push_take head rest v ds :
  v <= length rest ->
  chain_push (head :: rest) v ds = take v rest ++ ds.
Proof.
  revert ds. induction v as [|v IH]; intros ds Hv; simpl; [reflexivity|].
  destruct (lookup_lt_is_Some_2 rest v) as [a Ha]; [lia|].
  rewrite Ha, IH by lia. rewrite (take_S_r _ _ _ Ha), <- app_assoc. reflexivity.
Qed.

Lemma chain_post_process_app {V} (apply : func -> V -> V) rest ds (y : V) :
  chain_post_process apply (length rest) (rest ++ ds) y
  = (ds, fold_left (fun y a => apply a y) rest y).
Proof.
  revert y. induction rest as [|a rest IH]; intros y; simpl.
  - destruct ds; reflexivity.
  - apply IH.
Qed.

(** C6: for a pipeline [head :: rest], the Chainer dispatcher pushes the
    functions of [rest] from the last one down to the second element of
    the pipeline, so that the second element ends on top of the data stack
    and the last one lowest; it switches the frame's phase and binding to
    [head] and returns R_REDO_UNCHECKED.  When the post-processing then pops
    and runs the pushed functions on the output of [head], the result is
    the composition in pipeline order: for [f; g; h], h (g (f x)). *)
Theorem Chainer_Dispatcher_order (head : func) (rest : list func) (f : chain_frame)
    (ds : list func) :
  Chainer_Dispatcher (head :: rest) f ds
  = (mk_chain_frame head (func_binding head),
     fold_left (fun stack a => a :: stack) (rev rest) ds,
     R_REDO_UNCHECKED) /\
  fold_left (fun stack a => a :: stack) (rev rest) ds = rest ++ ds /\
  forall (V : Type) (apply : func -> V -> V) (x : V),
    chain_post_process apply (length rest) (rest ++ ds) (apply head x)
    = (ds, fold_left (fun y a => apply a y) rest (apply head x)).
Proof.
  assert (Hpush : fold_left (fun stack a => a :: stack) (rev rest) ds = rest ++ ds).
  { induction rest as [|a rest IH]; simpl; [reflexivity|].
    rewrite fold_left_app, IH. reflexivity. }
  split; [|split; [exact Hpush|]].
  - unfold Chainer_Dispatcher. rewrite Hpush. replace (length (head :: rest) - 1) with (length rest) by (simpl; lia).
    rewrite chain_push_take, firstn_all by lia. reflexivity.
  - intros V apply x. apply chain_post_process_app.
Qed.

Lemma Returner_Dispatcher_contract_witness :
  last (func_params (f_phase (ex_returner ex_body_str))) = Some ex_return_typeset /\
  snd (Returner_Dispatcher (fun b => b) (ex_returner ex_body_str))
  = R_FAIL (Error_Bad_Return_Type 4).
Proof.
  assert (H1 : last (func_params (f_phase (ex_returner ex_body_str))) = Some ex_return_typeset)
    by reflexivity.
  pose proof (Returner_Dispatcher_contract do_result (fun b => b) (ex_returner ex_body_str)
                ex_return_typeset H1) as H.
  exact (conj H1 (proj2 (proj1 H) eq_refl)).
Defined.

End DispatchFacts.

(* ===================================================================== *)
(* Paramlist construction                                                 *)
(* ===================================================================== *)

Module ParamlistFacts.
Import Dispatch Paramlist ParamlistExamples.

Lemma triple_ind (P : list ds_cell -> Prop) :
  (forall cells, (forall t c2 c3 rest, cells = DS_Typeset t :: c2 :: c3 :: rest -> P rest) -> P cells) ->
  forall cells, P cells.
Proof.
  intros H cells. remember (length cells) as n eqn:En.
  revert cells En. induction n as [n IH] using lt_wf_ind. intros cells En.
  apply H. intros t c2 c3 rest ->. apply (IH (length rest)); [simpl in En; lia|reflexivity].
Qed.

Definition param_canons (cells : list ds_cell) : list nat := map ts_canon (param_typesets cells).


Lemma copy_params_duplicate p cells rdsp b dup dest :
  (copy_params p cells rdsp b dup dest).1.2 = None <->
  dup = None /\ NoDup (param_canons cells) /\
  (forall k, k ∈ param_canons cells -> b !! k = None).
Proof.
  revert p b dup dest. induction cells as [cells IH] using triple_ind. intros p b dup dest.
  destruct cells as [|[|t| |] [|c2 [|c3 rest]]]; simpl;
    try (split; [intros H; split; [exact H|split; [constructor|intros k Hk; inversion Hk]]
                |intros [H _]; exact H]).
  unfold param_canons in *. simpl.
  unfold Try_Add_Binder_Index. destruct (b !! ts_canon t) eqn:Eb; simpl.
  - rewrite IH by reflexivity. split.
    + intros [H _]. discriminate.
    + intros (_ & _ & H). rewrite (H (ts_canon t) ltac:(left)) in Eb. discriminate.
  - rewrite IH by reflexivity. rewrite NoDup_cons. split.
    + intros (H1 & H2 & H3). split; [exact H1|]. split; [split; [|exact H2]|].
      * intros Hk. specialize (H3 _ Hk). apply lookup_insert_None in H3. exact (proj2 H3 eq_refl).
      * intros k Hk. apply elem_of_cons in Hk. destruct Hk as [->|Hk]; [exact Eb|].
        specialize (H3 _ Hk). apply lookup_insert_None in H3. exact (proj1 H3).
    + intros (H1 & [H2 H4] & H3). split; [exact H1|]. split; [exact H4|].
      intros k Hk. apply lookup_insert_None. split.
      * apply H3. right. exact Hk.
      * intros <-. exact (H2 Hk).
Qed.



Lemma copy_params_Forall (P : typeset -> Prop) cells : forall p rdsp b dup dest,
  Forall P dest ->
  (forall i t, cells !! i = Some (DS_Typeset t) -> rdsp = 0 \/ p + i <> rdsp -> P t) ->
  Forall P (copy_params p cells rdsp b dup dest).2.
Proof.
  induction cells as [cells IH] using triple_ind. intros p rdsp b dup dest Hd Hc.
  destruct cells as [|[|t| |] [|c2 [|c3 rest]]]; cbn [copy_params]; try exact Hd.
  destruct (Try_Add_Binder_Index b (ts_canon t) 1020) as [ok b'].
  apply (IH t c2 c3 rest eq_refl).
  - destruct (Nat.eqb_spec rdsp 0) as [Hz|Hz]; destruct (Nat.eqb_spec p rdsp) as [Hp|Hp];
      cbn [negb andb]; try exact Hd;
      apply Forall_app; (split; [exact Hd|]); apply Forall_singleton;
      apply (Hc 0 t eq_refl); lia.
  - intros i t' Hi Hr. apply (Hc (3 + i) t' Hi). lia.
Qed.
Lemma Copy_Paramlist_dest_Forall (P : typeset -> Prop) cells rdsp :
  (forall i t, cells !! i = Some (DS_Typeset t) -> rdsp = 0 \/ S i <> rdsp -> P t) ->
  Forall P (copy_params 4 (drop 3 cells) rdsp ∅ None []).2.
Proof.
  intros Hc. apply copy_params_Forall; [constructor|].
  intros i t Hi Hr. rewrite lookup_drop in Hi. apply (Hc _ _ Hi). lia.
Qed.

Lemma Copy_Paramlist_params cells rdsp fl t :
  rdsp <> 0 -> MKF_FAKE_RETURN fl = false -> cells !! (rdsp - 1) = Some (DS_Typeset t) ->
  (Copy_Paramlist cells rdsp fl).2 = (copy_params 4 (drop 3 cells) rdsp ∅ None []).2 ++ [t].
Proof.
  intros Hz HF Ht. unfold Copy_Paramlist.
  destruct (copy_params 4 (drop 3 cells) rdsp ∅ None []) as [[b1 dup] dest]. cbn [fst snd].
  destruct (Nat.eqb_spec rdsp 0) as [|_]; [contradiction|]. rewrite HF, Ht. reflexivity.
Qed.

Lemma Copy_Paramlist_Forall (P : typeset -> Prop) cells rdsp fl :
  (forall i t, cells !! i = Some (DS_Typeset t) -> P t) ->
  Forall P (Copy_Paramlist cells rdsp fl).2.
Proof.
  intros Hc. pose proof (Copy_Paramlist_dest_Forall P cells rdsp (fun i t H _ => Hc i t H)) as Hd.
  unfold Copy_Paramlist in *.
  destruct (copy_params 4 (drop 3 cells) rdsp ∅ None []) as [[b1 dup] dest]. cbn [fst snd] in *.
  destruct (Nat.eqb rdsp 0); [exact Hd|]. destruct (MKF_FAKE_RETURN fl); [exact Hd|].
  destruct (cells !! (rdsp - 1)) as [[|t| |]|] eqn:E; try exact Hd.
  apply Forall_app. split; [exact Hd|]. apply Forall_singleton. exact (Hc _ _ E).
Qed.

Lemma update_typeset_lookup f p d t :
  d !! (p - 1) = Some (DS_Typeset t) ->
  update_typeset f p d !! (p - 1) = Some (DS_Typeset (f t)).
Proof.
  intros H. unfold update_typeset. rewrite H. apply list_lookup_insert_eq.
  apply lookup_lt_is_Some. rewrite H. eauto.
Qed.

Lemma update_typeset_lookup_ne f p d i :
  i <> p - 1 -> update_typeset f p d !! i = d !! i.
Proof.
  intros Hi. unfold update_typeset.
  destruct (d !! (p - 1)) as [[|t| |]|]; try reflexivity.
  apply list_lookup_insert_ne. congruence.
Qed.

Section Builder.

Context (REB_MAX_VOID REB_FUNCTION SYM_RETURN SYM_LEAVE canon_return canon_leave : nat).

Local Abbreviation loop := (spec_loop REB_MAX_VOID REB_FUNCTION SYM_RETURN SYM_LEAVE).
Local Abbreviation fin := (finish REB_MAX_VOID REB_FUNCTION SYM_RETURN SYM_LEAVE canon_return canon_leave).
Local Abbreviation make :=
  (Make_Paramlist_Managed_May_Fail REB_MAX_VOID REB_FUNCTION SYM_RETURN SYM_LEAVE
     canon_return canon_leave).

Lemma Make_Paramlist_Done ndebug fl spec pl :
  make ndebug fl spec = Done pl ->
  exists st, loop ndebug (initial_state (entry_flags ndebug fl)) spec = Done st /\
    (Copy_Paramlist (fin st).1 (fin st).2 (flags st)).1.2 = None /\
    pl = mk_paramlist (Copy_Paramlist (fin st).1 (fin st).2 (flags st)).2
           (MKF_RETURN (flags st)) (MKF_LEAVE (flags st)).
Proof.
  intros H. unfold Make_Paramlist_Managed_May_Fail in H.
  destruct (loop ndebug _ spec) as [st|e]; [|discriminate].
  exists st. split; [reflexivity|].
  destruct (fin st) as [cells rdsp]. cbn [fst snd] in *.
  destruct (Copy_Paramlist cells rdsp (flags st)) as [[b dup] ps]. cbn [fst snd] in *.
  destruct dup; [discriminate|]. injection H as <-. split; reflexivity.
Qed.


(** Typesets on the stack keep their symbol and spelling. *)
Definition stable (d d' : list ds_cell) : Prop :=
  forall i t, d !! i = Some (DS_Typeset t) ->
  exists t', d' !! i = Some (DS_Typeset t') /\ ts_symbol t' = ts_symbol t /\
             ts_spelling t' = ts_spelling t.
(** No typeset on the stack has the return class. *)
Definition no_return_class (d : list ds_cell) : Prop :=
  forall i t, d !! i = Some (DS_Typeset t) -> ts_class t <> PARAM_CLASS_RETURN.

Definition no_typeset (l : list ds_cell) : Prop :=
  forall i t, l !! i <> Some (DS_Typeset t).

Lemma stable_refl d : stable d d.
Proof. intros i t H. exists t. auto. Qed.

Lemma stable_trans d1 d2 d3 : stable d1 d2 -> stable d2 d3 -> stable d1 d3.
Proof.
  intros H12 H23 i t H. destruct (H12 i t H) as (t2 & H2 & Hs2 & Hp2).
  destruct (H23 i t2 H2) as (t3 & H3 & Hs3 & Hp3). exists t3. split; [exact H3|]. split; congruence.
Qed.

Lemma stable_app d l : stable d (d ++ l).
Proof. intros i t H. exists t. split; [apply lookup_app_l_Some; exact H|auto]. Qed.

Lemma no_return_class_app d l :
  no_return_class d -> no_typeset l -> no_return_class (d ++ l).
Proof.
  intros Hd Hl i t H. apply lookup_app_Some in H. destruct H as [H|[_ H]].
  - exact (Hd i t H).
  - exfalso. exact (Hl _ _ H).
Qed.

Lemma no_return_class_snoc d t :
  no_return_class d -> ts_class t <> PARAM_CLASS_RETURN -> no_return_class (d ++ [DS_Typeset t]).
Proof.
  intros Hd Ht i t' H. apply lookup_app_Some in H. destruct H as [H|[_ H]].
  - exact (Hd i t' H).
  - destruct (i - length d) as [|k]; simpl in H; [injection H as <-; exact Ht|].
    rewrite lookup_nil in H. discriminate.
Qed.

Lemma stable_insert d j c :
  (forall t, d !! j <> Some (DS_Typeset t)) -> stable d (<[j := c]> d).
Proof.
  intros Hj i t H. exists t. split; [|auto].
  rewrite list_lookup_insert_ne; [exact H|]. intros ->. exact (Hj t H).
Qed.

Lemma no_return_class_insert d j c :
  no_return_class d -> (forall t, c <> DS_Typeset t) -> no_return_class (<[j := c]> d).
Proof.
  intros Hd Hc i t H. apply list_lookup_insert_Some in H.
  destruct H as [(_ & Hct & _)|(_ & H)]; [exfalso; exact (Hc t Hct)|exact (Hd i t H)].
Qed.

Lemma stable_update f p d :
  (forall t, ts_symbol (f t) = ts_symbol t /\ ts_spelling (f t) = ts_spelling t) ->
  stable d (update_typeset f p d).
Proof.
  intros Hf i t H. unfold update_typeset.
  destruct (d !! (p - 1)) as [[|t0| |]|] eqn:E; try (exists t; auto; fail).
  destruct (decide (i = p - 1)) as [->|Hne].
  - rewrite E in H. injection H as <-. exists (f t0).
    split; [apply list_lookup_insert_eq; apply lookup_lt_is_Some; rewrite E; eauto|apply Hf].
  - exists t. split; [|auto]. rewrite list_lookup_insert_ne by congruence. exact H.
Qed.

Lemma no_return_class_update f p d :
  (forall t, ts_class (f t) = ts_class t) -> no_return_class d ->
  no_return_class (update_typeset f p d).
Proof.
  intros Hf Hd i t H. unfold update_typeset in H.
  destruct (d !! (p - 1)) as [[|t0| |]|] eqn:E; try exact (Hd i t H).
  apply list_lookup_insert_Some in H.
  destruct H as [(<- & Ht & _)|(_ & H)]; [|exact (Hd i t H)].
  injection Ht as <-. rewrite Hf. exact (Hd _ _ E).
Qed.

Lemma pad_triple_spec d : exists l, pad_triple d = d ++ l /\ no_typeset l.
Proof.
  unfold pad_triple, pad_string, pad_block.
  destruct (IS_TYPESET (DS_TOP d)).
  - assert (Hb : IS_BLOCK (DS_TOP (d ++ [DS_Block None])) = true)
      by (unfold DS_TOP; rewrite last_snoc; reflexivity).
    rewrite Hb. exists [DS_Block None; DS_String EmptyString].
    rewrite <- app_assoc. split; [reflexivity|].
    intros [|[|i]] t; simpl; [congruence|congruence|rewrite lookup_nil; congruence].
  - destruct (IS_BLOCK (DS_TOP d)).
    + exists [DS_String EmptyString]. split; [reflexivity|].
      intros [|i] t; simpl; [congruence|rewrite lookup_nil; congruence].
    + exists []. rewrite app_nil_r. split; [reflexivity|].
      intros i t; rewrite lookup_nil; congruence.
Qed.

Lemma top_not_typeset d :
  IS_TYPESET (DS_TOP d) = false -> forall t, d !! (length d - 1) <> Some (DS_Typeset t).
Proof.
  intros H t Ht. unfold DS_TOP in H. rewrite last_lookup, <- Nat.sub_1_r, Ht in H. discriminate.
Qed.

Lemma pad_block_top d : IS_TYPESET (DS_TOP (pad_block d)) = false.
Proof.
  unfold pad_block. destruct (IS_TYPESET (DS_TOP d)) eqn:E; [|exact E].
  unfold DS_TOP. rewrite last_snoc. reflexivity.
Qed.
Lemma pad_block_spec d : exists l, pad_block d = d ++ l /\ no_typeset l.
Proof.
  unfold pad_block. destruct (IS_TYPESET (DS_TOP d)).
  - exists [DS_Block None]. split; [reflexivity|].
    intros [|i] t; simpl; [congruence|rewrite lookup_nil; congruence].
  - exists []. rewrite app_nil_r. split; [reflexivity|]. intros i t; rewrite lookup_nil; congruence.
Qed.

Lemma string_step_facts st s :
  stable (ds st) (ds (string_step st s)) /\
  (no_return_class (ds st) -> no_return_class (ds (string_step st s))) /\
  flags (string_step st s) = flags st /\
  definitional_return_dsp (string_step st s) = definitional_return_dsp st.
Proof.
  unfold string_step. destruct (spec_mode_eqb (mode st) SPEC_MODE_WITH).
  { split; [apply stable_refl|auto]. }
  cbn [ds flags definitional_return_dsp]. split; [|split; [|split; reflexivity]].
  - destruct (pad_block_spec (ds st)) as (l & El & Hl).
    pose proof (top_not_typeset _ (pad_block_top (ds st))) as Htop.
    destruct (IS_BLOCK (DS_TOP (pad_block (ds st)))).
    + rewrite El, <- app_assoc. apply stable_app.
    + apply (stable_trans _ (pad_block (ds st))); [rewrite El; apply stable_app|].
      apply stable_insert. exact Htop.
  - intros Hn. destruct (pad_block_spec (ds st)) as (l & El & Hl).
    assert (Hn1 : no_return_class (pad_block (ds st))) by (rewrite El; apply no_return_class_app; assumption).
    destruct (IS_BLOCK (DS_TOP (pad_block (ds st)))).
    + apply no_return_class_app; [exact Hn1|]. intros [|i] t; simpl; [congruence|rewrite lookup_nil; congruence].
    + apply no_return_class_insert; [exact Hn1|congruence].
Qed.

Lemma tag_step_facts st item t st' :
  tag_step st item t = Done st' ->
  ds st' = ds st /\ flags st' = flags st /\
  definitional_return_dsp st' = definitional_return_dsp st.
Proof.
  unfold tag_step. destruct (MKF_KEYWORDS (flags st)); [|discriminate].
  destruct t; intros H; try discriminate; injection H as <-; auto.
Qed.

Lemma block_step_facts st item types st' :
  block_step REB_MAX_VOID st item types = Done st' ->
  stable (ds st) (ds st') /\ (no_return_class (ds st) -> no_return_class (ds st')) /\
  flags st' = flags st /\ definitional_return_dsp st' = definitional_return_dsp st.
Proof.
  intros H. unfold block_step in H. cbv zeta in H.
  destruct (IS_BLOCK (DS_TOP (ds st))); [discriminate|].
  destruct (negb (spec_mode_eqb (mode st) SPEC_MODE_NORMAL)); [discriminate|].
  destruct (IS_TYPESET (DS_TOP (ds st))).
  - cbv beta iota in H.
    destruct (refinement_seen st && _) in H; [discriminate|].
    injection H as <-. cbn [ds flags definitional_return_dsp].
    split; [|split; [|split; reflexivity]].
    + apply (stable_trans _ (ds st ++ [DS_Block (Some types)])); [apply stable_app|].
      apply stable_update. intros t; split; reflexivity.
    + intros Hn. apply no_return_class_update; [reflexivity|].
      apply no_return_class_app; [exact Hn|].
      intros [|i] t; simpl; [congruence|rewrite lookup_nil; congruence].
  - destruct (ds st !! (length (ds st) - 3)) as [[| | |]|]; cbv beta iota in H;
    try discriminate;
    destruct (ds st !! (length (ds st) - 2)) as [[| |[]|]|] eqn:E2; cbv beta iota in H;
    try discriminate;
    destruct (refinement_seen st && _) in H; try discriminate;
    injection H as <-; cbn [ds flags definitional_return_dsp];
    (split; [|split; [|split; reflexivity]]).
    all: first
      [ apply (stable_trans _ (<[length (ds st) - 2 := DS_Block (Some types)]> (ds st)));
        [apply stable_insert; rewrite E2; congruence|];
        apply stable_update; intros t0; split; reflexivity
      | intros Hn; apply no_return_class_update; [reflexivity|];
        apply no_return_class_insert; [exact Hn|congruence] ].
Qed.

Local Abbreviation rlc := (return_leave_check SYM_RETURN SYM_LEAVE).

Lemma return_leave_check_facts fl rdsp ldsp dsp w :
  MKF_LEAVE fl = false ->
  MKF_LEAVE (rlc fl rdsp ldsp dsp w).1.1 = false /\
  (MKF_FAKE_RETURN fl = false -> MKF_FAKE_RETURN (rlc fl rdsp ldsp dsp w).1.1 = false) /\
  (canon_symbol w = SYM_RETURN -> word_type w = REB_SET_WORD ->
     (rlc fl rdsp ldsp dsp w).1.1 = fl /\ (rlc fl rdsp ldsp dsp w).1.2 = dsp) /\
  (canon_symbol w = SYM_RETURN -> word_type w <> REB_SET_WORD ->
     MKF_RETURN (rlc fl rdsp ldsp dsp w).1.1 = false /\ (rlc fl rdsp ldsp dsp w).1.2 = rdsp) /\
  (canon_symbol w <> SYM_RETURN ->
     MKF_RETURN (rlc fl rdsp ldsp dsp w).1.1 = MKF_RETURN fl /\
     (rlc fl rdsp ldsp dsp w).1.2 = rdsp).
Proof.
  intros HL. unfold return_leave_check. rewrite HL. cbn [negb andb].
  destruct (Nat.eqb_spec (canon_symbol w) SYM_RETURN) as [Hr|Hr]; cbn [andb].
  - destruct (word_type w); cbn; (repeat split); intros; first [reflexivity|assumption|congruence].
  - destruct (Nat.eqb (canon_symbol w) SYM_LEAVE && negb (MKF_RETURN fl || MKF_FAKE_RETURN fl));
      [destruct (word_kind_eqb (word_type w) REB_SET_WORD)|];
      cbn; (repeat split); intros; first [reflexivity|assumption|congruence].
Qed.

Lemma word_class_not_return m k : word_class m k <> PARAM_CLASS_RETURN.
Proof. destruct k; simpl; try destruct (spec_mode_eqb _ _); discriminate. Qed.

Lemma word_step_facts ndebug st item w st' :
  word_step REB_MAX_VOID REB_FUNCTION SYM_RETURN SYM_LEAVE ndebug st item w = Done st' ->
  flags st' = (rlc (flags st) (definitional_return_dsp st) (definitional_leave_dsp st)
                 (S (length (pad_triple (ds st)))) w).1.1 /\
  definitional_return_dsp st' =
    (rlc (flags st) (definitional_return_dsp st) (definitional_leave_dsp st)
       (S (length (pad_triple (ds st)))) w).1.2 /\
  stable (ds st) (ds st') /\ (no_return_class (ds st) -> no_return_class (ds st')) /\
  (word_type w = REB_SET_WORD ->
   exists t, ds st' = pad_triple (ds st) ++ [DS_Typeset t] /\
     ts_symbol t = canon_symbol w /\ ts_spelling t = VAL_WORD_SPELLING w).
Proof.
  intros H. unfold word_step in H. cbv zeta in H.
  destruct (word_mode (mode st) item (word_type w)) as [m|e]; [|discriminate].
  destruct (negb ndebug && negb (return_leave_assert SYM_RETURN SYM_LEAVE (flags st)
              (definitional_return_dsp st) (definitional_leave_dsp st) w)); [discriminate|].
  destruct (pad_triple_spec (ds st)) as (l & El & Hl).
  destruct (rlc (flags st) (definitional_return_dsp st) (definitional_leave_dsp st)
              (S (length (pad_triple (ds st)))) w) as [[fl rd] ld] eqn:Er.
  cbn [fst snd].
  destruct (spec_mode_eqb m SPEC_MODE_WITH && negb (word_kind_eqb (word_type w) REB_SET_WORD))
    eqn:Ew; injection H as <-; cbn [ds flags definitional_return_dsp];
    (split; [reflexivity|]); (split; [reflexivity|]).
  - split; [rewrite El; apply stable_app|]. split.
    + intros Hn. rewrite El. apply no_return_class_app; assumption.
    + intros Hk. rewrite Hk in Ew. rewrite andb_false_r in Ew. discriminate.
  - split; [rewrite El, <- app_assoc; apply stable_app|]. split.
    + intros Hn. apply no_return_class_snoc; [rewrite El; apply no_return_class_app; assumption|].
      apply word_class_not_return.
    + intros _. eexists. split; [reflexivity|]. split; reflexivity.
Qed.
(** What the gathering loop keeps true, given the words [seen] so far, when
    it starts with RETURN and without LEAVE or FAKE_RETURN. *)
Definition return_words_set (seen : list spec_item) : Prop :=
  forall w, Spec_Word w ∈ seen -> canon_symbol w = SYM_RETURN -> word_type w = REB_SET_WORD.

Definition has_return_word (seen : list spec_item) (set : bool) : Prop :=
  exists w, Spec_Word w ∈ seen /\ canon_symbol w = SYM_RETURN /\
    (word_type w = REB_SET_WORD <-> set = true).

Definition return_inv (seen : list spec_item) (st : pl_state) : Prop :=
  MKF_LEAVE (flags st) = false /\ MKF_FAKE_RETURN (flags st) = false /\
  no_return_class (ds st) /\
  (return_words_set seen -> MKF_RETURN (flags st) = true) /\
  (has_return_word seen false -> MKF_RETURN (flags st) = false) /\
  (has_return_word seen true -> definitional_return_dsp st <> 0) /\
  (definitional_return_dsp st <> 0 ->
   exists t w, ds st !! (definitional_return_dsp st - 1) = Some (DS_Typeset t) /\
     ts_symbol t = SYM_RETURN /\ Spec_Word w ∈ seen /\ word_type w = REB_SET_WORD /\
     canon_symbol w = SYM_RETURN /\ ts_spelling t = VAL_WORD_SPELLING w).

Lemma elem_of_snoc_word seen item w :
  Spec_Word w ∈ seen ++ [item] <-> Spec_Word w ∈ seen \/ item = Spec_Word w.
Proof. rewrite elem_of_app, list_elem_of_singleton. intuition congruence. Qed.

Lemma Inv_other seen st st' item :
  return_inv seen st ->
  (forall w, item = Spec_Word w -> canon_symbol w <> SYM_RETURN) ->
  MKF_RETURN (flags st') = MKF_RETURN (flags st) ->
  MKF_LEAVE (flags st') = false -> MKF_FAKE_RETURN (flags st') = false ->
  definitional_return_dsp st' = definitional_return_dsp st ->
  stable (ds st) (ds st') -> (no_return_class (ds st) -> no_return_class (ds st')) ->
  return_inv (seen ++ [item]) st'.
Proof.
  intros (HL & HF & Hn & H4 & H5 & H6 & H7) Hi HR HL' HF' Hd Hs Hn'.
  assert (Hm : forall w, Spec_Word w ∈ seen ++ [item] -> canon_symbol w = SYM_RETURN ->
                         Spec_Word w ∈ seen).
  { intros w Hw Hc. apply elem_of_snoc_word in Hw. destruct Hw as [Hw|Hw]; [exact Hw|].
    exfalso. exact (Hi w Hw Hc). }
  split; [exact HL'|]. split; [exact HF'|]. split; [exact (Hn' Hn)|].
  rewrite HR, Hd. split; [|split; [|split]].
  - intros Hall. apply H4. intros w Hw Hc. apply Hall; [apply elem_of_app; left; exact Hw|exact Hc].
  - intros (w & Hw & Hc & Hk). apply H5. exists w. split; [exact (Hm w Hw Hc)|auto].
  - intros (w & Hw & Hc & Hk). apply H6. exists w. split; [exact (Hm w Hw Hc)|auto].
  - intros Hz. destruct (H7 Hz) as (t & w & Ht & Hts & Hw & Hk & Hc & Hsp).
    destruct (Hs _ _ Ht) as (t' & Ht' & Hs1 & Hs2).
    exists t', w. split; [exact Ht'|]. split; [congruence|].
    split; [apply elem_of_app; left; exact Hw|]. split; [exact Hk|]. split; [exact Hc|congruence].
Qed.

Lemma Inv_word ndebug seen st item w st' :
  word_step REB_MAX_VOID REB_FUNCTION SYM_RETURN SYM_LEAVE ndebug st item w = Done st' ->
  return_inv seen st -> return_inv (seen ++ [Spec_Word w]) st'.
Proof.
  intros H HI. pose proof HI as (HL & HF & Hn & H4 & H5 & H6 & H7).
  destruct (word_step_facts _ _ _ _ _ H) as (Hfl & Hrd & Hs & Hn' & Hset).
  destruct (return_leave_check_facts (flags st) (definitional_return_dsp st)
              (definitional_leave_dsp st) (S (length (pad_triple (ds st)))) w HL)
    as (L' & F' & Ca & Cb & Cc).
  rewrite <- Hfl, <- Hrd in *.
  destruct (decide (canon_symbol w = SYM_RETURN)) as [Hc|Hc].
  2:{ destruct (Cc Hc) as [HR Hd]. apply (Inv_other seen st); auto.
      intros w' Hw'. injection Hw' as <-. exact Hc. }
  assert (Hdec : {word_type w = REB_SET_WORD} + {word_type w <> REB_SET_WORD})
    by decide equality.
  destruct Hdec as [Hk|Hk].
  - destruct (Ca Hc Hk) as [Hf Hd]. destruct (Hset Hk) as (t & Eds & Hts & Hsp).
    split; [exact L'|]. split; [exact (F' HF)|]. split; [exact (Hn' Hn)|].
    rewrite Hf, Hd. split; [|split; [|split]].
    + intros Hall. apply H4. intros w0 Hw0 Hc0. apply Hall; [apply elem_of_app; left; exact Hw0|exact Hc0].
    + intros (w0 & Hw0 & Hc0 & Hk0). apply H5. exists w0. split; [|auto].
      apply elem_of_snoc_word in Hw0. destruct Hw0 as [Hw0|Hw0]; [exact Hw0|].
      injection Hw0 as ->. exfalso. discriminate (proj1 Hk0 Hk).
    + intros _. discriminate.
    + intros _. exists t, w. split.
      { rewrite Eds. cbn [Nat.sub]. rewrite Nat.sub_0_r, lookup_app_r, Nat.sub_diag by lia.
        reflexivity. }
      split; [congruence|]. split; [apply elem_of_snoc_word; right; reflexivity|].
      split; [exact Hk|]. split; [exact Hc|exact Hsp].
  - destruct (Cb Hc Hk) as [HR Hd].
    split; [exact L'|]. split; [exact (F' HF)|]. split; [exact (Hn' Hn)|].
    rewrite HR, Hd. split; [|split; [|split]].
    + intros Hall. exfalso. apply Hk. apply Hall; [apply elem_of_snoc_word; right; reflexivity|exact Hc].
    + intros _. reflexivity.
    + intros (w0 & Hw0 & Hc0 & Hk0). apply H6. exists w0. split; [|auto].
      apply elem_of_snoc_word in Hw0. destruct Hw0 as [Hw0|Hw0]; [exact Hw0|].
      injection Hw0 as ->. exfalso. exact (Hk (proj2 Hk0 eq_refl)).
    + intros Hz. destruct (H7 Hz) as (t & w0 & Ht & Hts & Hw0 & Hk0 & Hc0 & Hsp).
      destruct (Hs _ _ Ht) as (t' & Ht' & Hs1 & Hs2).
      exists t', w0. split; [exact Ht'|]. split; [congruence|].
      split; [apply elem_of_app; left; exact Hw0|]. split; [exact Hk0|]. split; [exact Hc0|congruence].
Qed.

Lemma Inv_step ndebug seen st item st' :
  spec_step REB_MAX_VOID REB_FUNCTION SYM_RETURN SYM_LEAVE ndebug st item = Done st' ->
  return_inv seen st -> return_inv (seen ++ [item]) st'.
Proof.
  intros H HI. pose proof HI as (HL & HF & _).
  destruct item as [s|t|types|w|]; cbn [spec_step] in H.
  - injection H as <-. destruct (string_step_facts st s) as (Hs & Hn & Hf & Hd).
    apply (Inv_other seen st); try congruence; auto.
  - destruct (tag_step_facts _ _ _ _ H) as (Eds & Hf & Hd).
    apply (Inv_other seen st); try congruence; auto.
    + rewrite Eds. apply stable_refl.
    + rewrite Eds. auto.
  - destruct (block_step_facts _ _ _ _ H) as (Hs & Hn & Hf & Hd).
    apply (Inv_other seen st); try congruence; auto.
  - exact (Inv_word ndebug seen st _ w st' H HI).
  - discriminate.
Qed.
Lemma Inv_loop ndebug items : forall seen st st',
  loop ndebug st items = Done st' -> return_inv seen st -> return_inv (seen ++ items) st'.
Proof.
  induction items as [|item items IH]; intros seen st st' H HI; cbn [spec_loop] in H.
  - injection H as <-. rewrite app_nil_r. exact HI.
  - destruct (spec_step REB_MAX_VOID REB_FUNCTION SYM_RETURN SYM_LEAVE ndebug st item) as [st1|e] eqn:E;
      [|discriminate].
    replace (seen ++ item :: items) with ((seen ++ [item]) ++ items) by (rewrite <- app_assoc; reflexivity).
    exact (IH _ _ _ H (Inv_step _ _ _ _ _ E HI)).
Qed.

Lemma Inv_initial fl :
  MKF_RETURN fl = true -> MKF_LEAVE fl = false -> MKF_FAKE_RETURN fl = false ->
  return_inv [] (initial_state fl).
Proof.
  intros HR HL HF. split; [exact HL|]. split; [exact HF|]. split.
  { intros i t Hi. destruct i as [|[|[|i]]]; simpl in Hi; discriminate. }
  split; [intros _; exact HR|]. split.
  { intros (w & Hw & _). destruct (not_elem_of_nil _ Hw). }
  split; [intros (w & Hw & _); destruct (not_elem_of_nil _ Hw)|].
  cbn. intros Hz. destruct (Hz eq_refl).
Qed.

Lemma no_return_class_pad_triple d :
  no_return_class d -> no_return_class (pad_triple d).
Proof.
  intros Hn. destruct (pad_triple_spec d) as (l & -> & Hl). apply no_return_class_app; assumption.
Qed.

(** C4: with the RETURN flag (and neither LEAVE nor FAKE_RETURN), when every
    word of the spec naming RETURN is the set-word [return:], the paramlist
    ends with the one parameter of return class: the synthesized RETURN
    (spelled Canon (SYM_RETURN)) when the spec names no RETURN, or else the
    [return:] local, reclassified and moved to the last slot.  A word naming
    RETURN other than as a set-word cancels the definitional return: the
    FUNC_FLAG_RETURN bit is clear and no parameter has the return class. *)
Theorem Make_Paramlist_definitional_return ndebug fl spec pl :
  MKF_RETURN fl = true -> MKF_LEAVE fl = false -> MKF_FAKE_RETURN fl = false ->
  Make_Paramlist_Managed_May_Fail REB_MAX_VOID REB_FUNCTION SYM_RETURN SYM_LEAVE
    canon_return canon_leave ndebug fl spec = Done pl ->
  ((forall w, Spec_Word w ∈ spec -> canon_symbol w = SYM_RETURN -> word_type w = REB_SET_WORD) ->
   FUNC_FLAG_RETURN pl = true /\
   exists ps t, params pl = ps ++ [t] /\
     Forall (fun t' => ts_class t' <> PARAM_CLASS_RETURN) ps /\
     ts_class t = PARAM_CLASS_RETURN /\ ts_symbol t = SYM_RETURN /\
     ((forall w, Spec_Word w ∈ spec -> canon_symbol w <> SYM_RETURN) ->
      ts_spelling t = canon_return) /\
     ((exists w, Spec_Word w ∈ spec /\ canon_symbol w = SYM_RETURN) ->
      exists w, Spec_Word w ∈ spec /\ word_type w = REB_SET_WORD /\
        canon_symbol w = SYM_RETURN /\ ts_spelling t = VAL_WORD_SPELLING w)) /\
  ((exists w, Spec_Word w ∈ spec /\ canon_symbol w = SYM_RETURN /\ word_type w <> REB_SET_WORD) ->
   FUNC_FLAG_RETURN pl = false /\
   Forall (fun t => ts_class t <> PARAM_CLASS_RETURN) (params pl)).
Proof.
  intros HR HL HF Hmake.
  destruct (Make_Paramlist_Done _ _ _ _ Hmake) as (st & Hloop & _ & ->).
  assert (Hef : entry_flags ndebug fl = fl)
    by (unfold entry_flags; rewrite HF, andb_false_r; reflexivity).
  rewrite Hef in Hloop.
  assert (HI : return_inv spec st) by exact (Inv_loop ndebug spec [] _ _ Hloop (Inv_initial fl HR HL HF)).
  destruct HI as (IL & IF & In & I4 & I5 & I6 & I7).
  pose proof (no_return_class_pad_triple _ In) as Hn0.
  cbn [FUNC_FLAG_RETURN params]. split.
  - intros Hall. assert (HR' := I4 Hall). split; [exact HR'|].
    unfold finish. cbv zeta. rewrite IL, HR'. cbv beta iota.
    destruct (Nat.eqb_spec (definitional_return_dsp st) 0) as [Hz|Hz]; cbn [fst snd].
    + match goal with
      | |- context [Copy_Paramlist (?d ++ [DS_Typeset ?T; ?c2; ?c3]) ?r ?f] =>
          rewrite (Copy_Paramlist_params (d ++ [DS_Typeset T; c2; c3]) r f T)
            by (first [discriminate | exact IF
                      | cbn [Nat.sub]; rewrite Nat.sub_0_r, lookup_app_r, Nat.sub_diag by lia;
                        reflexivity])
      end.
      eexists _, _. split; [reflexivity|]. split.
      { apply Copy_Paramlist_dest_Forall. intros i t Hi [Hr|Hr]; [discriminate|].
        apply lookup_app_Some in Hi. destruct Hi as [Hi|[Hge Hi]]; [exact (Hn0 _ _ Hi)|].
        destruct (i - length (pad_triple (ds st))) as [|[|[|k]]] eqn:Ek; cbn in Hi;
          try discriminate. lia. }
      split; [reflexivity|]. split; [reflexivity|]. split; [intros _; reflexivity|].
      intros (w & Hw & Hc). exfalso. apply I6; [|exact Hz].
      exists w. split; [exact Hw|]. split; [exact Hc|].
      split; intros _; [reflexivity|exact (Hall w Hw Hc)].
    + destruct (I7 Hz) as (t & w & Ht & Hts & Hw & Hk & Hc & Hsp).
      assert (Ht0 : pad_triple (ds st) !! (definitional_return_dsp st - 1) = Some (DS_Typeset t)).
      { destruct (pad_triple_spec (ds st)) as (l & -> & _). apply lookup_app_l_Some. exact Ht. }
      rewrite (Copy_Paramlist_params _ _ _ (set_class PARAM_CLASS_RETURN t) Hz IF
                 (update_typeset_lookup _ _ _ _ Ht0)).
      eexists _, (set_class PARAM_CLASS_RETURN t). split; [reflexivity|]. split.
      { apply Copy_Paramlist_dest_Forall. intros i t' Hi [Hr|Hr]; [contradiction|].
        rewrite update_typeset_lookup_ne in Hi by lia. exact (Hn0 _ _ Hi). }
      split; [reflexivity|]. split; [exact Hts|].
      split; [intros Hno; exfalso; exact (Hno w Hw Hc)|].
      intros _. exists w. auto.
  - intros (w & Hw & Hc & Hk).
    assert (HR' : MKF_RETURN (flags st) = false).
    { apply I5. exists w. split; [exact Hw|]. split; [exact Hc|].
      split; intros H; [contradiction|discriminate]. }
    split; [exact HR'|].
    unfold finish. cbv zeta. rewrite IL, HR'. cbv beta iota. cbn [fst snd].
    apply Copy_Paramlist_Forall. exact Hn0.
Qed.
End Builder.

(** A word [return] that is not a set-word cancels FUNC's definitional
    return: no return parameter is synthesized although no [return:] was
    seen, and the paramlist has a single normal parameter named RETURN. *)
Lemma Make_Paramlist_plain_return_counterexample :
  MKF_RETURN ex_flags = true /\
  (~ exists w, Spec_Word w ∈ ex_spec_plain_return /\ word_type w = REB_SET_WORD) /\
  exists pl, ex_make false ex_flags ex_spec_plain_return = Done pl /\
    FUNC_FLAG_RETURN pl = false /\
    Forall (fun t => ts_class t <> PARAM_CLASS_RETURN) (params pl).
Proof.
  split; [reflexivity|]. split.
  - intros (w & Hw & Hk). apply list_elem_of_singleton in Hw. injection Hw as ->.
    cbn in Hk. discriminate Hk.
  - destruct (ex_make false ex_flags ex_spec_plain_return) as [pl|e] eqn:E;
      [|vm_compute in E; discriminate].
    exists pl. split; [reflexivity|]. vm_compute in E. injection E as <-.
    split; [reflexivity|]. apply Forall_singleton. cbn. discriminate.
Qed.


Lemma Make_Paramlist_definitional_return_witness :
  exists pl, ex_make false ex_flags ex_spec_local_return = Done pl /\
    FUNC_FLAG_RETURN pl = true /\
    exists ps t, params pl = ps ++ [t] /\ ts_class t = PARAM_CLASS_RETURN.
Proof.
  destruct (ex_make false ex_flags ex_spec_local_return) as [pl|e] eqn:E;
    [|vm_compute in E; discriminate].
  exists pl. split; [reflexivity|].
  assert (Hset : forall w, Spec_Word w ∈ ex_spec_local_return -> canon_symbol w = 50 ->
                           word_type w = REB_SET_WORD).
  { intros w Hw Hc. unfold ex_spec_local_return in Hw.
    repeat (apply elem_of_cons in Hw as [Hw|Hw];
            [injection Hw as ->; cbn in Hc |- *; first [reflexivity|discriminate Hc]|]).
    destruct (not_elem_of_nil _ Hw). }
  destruct (proj1 (Make_Paramlist_definitional_return 0 1 50 51 50 51 false ex_flags
                     ex_spec_local_return pl eq_refl eq_refl eq_refl E) Hset)
    as [HR (ps & t & Hp & _ & Hc & _)].
  split; [exact HR|]. exists ps, t. split; [exact Hp|exact Hc].
Defined.

End ParamlistFacts.


(* ===================================================================== *)
(* Further properties: PD_Quoted (t-quoted.c)                             *)
(* ===================================================================== *)

Module QuotingExtraFacts.

Import Quoting.

(** PD_Quoted: picking through a well-formed QUOTED! value redoes the pick
    on the value with every level of quoting removed (the result of
    DEQUOTE), and quoting the value further beforehand changes nothing. *)
Theorem PD_Quoted_dequote (v : cell) (d : nat) :
  wf_cell v = true ->
  dequote v = NOut (PD_Quoted v) /\ PD_Quoted (Quotify v d) = PD_Quoted v.
Proof.
  intros Hwf. split.
  - destruct v as [kb data|dd [kb data|dd' inner]]; simpl in Hwf; try discriminate.
    + unfold dequote, Unquotify, VAL_NUM_QUOTES, PD_Quoted, KIND_BYTE, REB_64, REB_QUOTED in *.
      apply andb_true_iff in Hwf as [Hlt Hq]. apply Nat.ltb_lt in Hlt.
      apply negb_true_iff, Nat.eqb_neq in Hq.
      destruct (Nat.eqb_spec kb 47) as [->|Hne]; [simpl in Hq; congruence|].
      destruct (Nat.eqb_spec (kb / 64) 0) as [Hz|Hz].
      * f_equal. f_equal. pose proof (Nat.div_mod kb 64 ltac:(lia)). lia.
      * f_equal. f_equal. pose proof (Nat.div_mod kb 64 ltac:(lia)). lia.
    + unfold dequote, Unquotify, VAL_NUM_QUOTES, PD_Quoted, KIND_BYTE.
      apply andb_true_iff in Hwf as [Hwf _]. apply andb_true_iff in Hwf as [H3 _].
      apply Nat.ltb_lt in H3.
      destruct (Nat.eqb_spec dd 0); [lia|]. rewrite Nat.sub_diag. simpl.
      rewrite Nat.add_0_r. reflexivity.
  - destruct v as [kb data|dd inner]; unfold Quotify, PD_Quoted, KIND_BYTE, REB_64, REB_QUOTED.
    + destruct (Nat.leb_spec (d + kb / 64) 3).
      * pose proof (Nat.div_mod kb 64 ltac:(lia)). pose proof (Nat.mod_upper_bound kb 64 ltac:(lia)).
        destruct (Nat.eqb_spec (kb mod 64 + 64 * (d + kb / 64)) 47) as [E|E];
        destruct (Nat.eqb_spec kb 47) as [E'|E']; try reflexivity.
        all: try (f_equal; lia); try (exfalso; lia).
        all: f_equal; rewrite (Nat.mul_comm 64), Nat.Div0.mod_add, Nat.Div0.mod_mod; lia.
      * simpl. destruct (Nat.eqb_spec kb 47) as [->|E]; reflexivity.
    + reflexivity.
Qed.

(** Witness: a word quoted two more levels. *)
Lemma PD_Quoted_dequote_witness :
  wf_cell (Plain REB_WORD 7) = true /\
  dequote (Plain REB_WORD 7) = NOut (PD_Quoted (Plain REB_WORD 7)) /\
  PD_Quoted (Quotify (Plain REB_WORD 7) 2) = PD_Quoted (Plain REB_WORD 7).
Proof.
  assert (H : wf_cell (Plain REB_WORD 7) = true) by reflexivity.
  exact (conj H (PD_Quoted_dequote (Plain REB_WORD 7) 2 H)).
Defined.

End QuotingExtraFacts.


(* ===================================================================== *)
(* Further properties: Get_Hash_Prime and Shutdown_Interning (c-word.c)   *)
(* ===================================================================== *)

Module InterningExtraFacts.

Import Interning InterningInv InterningFacts InterningExamples.
Import Sorting.Sorted.

(** The prime table is increasing up to its terminating 0. *)

Definition prime_order (a b : N) : Prop := b = 0%N \/ (a < b)%N.

Fixpoint prime_order_check (l : list N) : bool :=
  match l with
  | [] => true
  | a :: r => forallb (fun b => (b =? 0)%N || (a <? b)%N) r && prime_order_check r
  end.

Lemma prime_order_check_sorted l : prime_order_check l = true -> StronglySorted prime_order l.
Proof.
  induction l as [|a r IH]; simpl; intros H; [constructor|].
  apply andb_true_iff in H as [Hf Hr]. constructor; [exact (IH Hr)|].
  apply Forall_forall. intros b Hb. rewrite forallb_forall in Hf. specialize (Hf b (proj1 (list_elem_of_In _ _) Hb)).
  apply orb_true_iff in Hf as [E|E]; [left; apply N.eqb_eq, E|right; apply N.ltb_lt, E].
Qed.

Lemma Primes_sorted : StronglySorted prime_order Primes.
Proof. apply prime_order_check_sorted. vm_compute. reflexivity. Qed.

Lemma Get_Hash_Prime_From_least ps size :
  StronglySorted prime_order ps -> Get_Hash_Prime_From ps size <> 0%N ->
  forall q, q ∈ ps -> q <> 0%N -> (size <= q)%N -> (Get_Hash_Prime_From ps size <= q)%N.
Proof.
  induction 1 as [|p ps Hs IH Hf]; simpl; intros H q Hq Hq0 Hsq; [congruence|].
  destruct (N.eqb_spec p 0); [congruence|].
  apply elem_of_cons in Hq.
  destruct (N.ltb_spec p size) as [Hlt|Hge].
  - destruct Hq as [->|Hq]; [lia|]. exact (IH H q Hq Hq0 Hsq).
  - destruct Hq as [->|Hq]; [lia|]. rewrite Forall_forall in Hf.
    destruct (Hf q Hq) as [|]; [congruence|lia].
Qed.

Lemma Get_Hash_Prime_From_zero l size :
  Forall (fun q => q <> 0%N) l -> Get_Hash_Prime_From (l ++ [0%N]) size = 0%N ->
  Forall (fun q => (q < size)%N) l.
Proof.
  induction 1 as [|p l Hp Hl IH]; simpl; intros H; [constructor|].
  destruct (N.eqb_spec p 0); [congruence|].
  destruct (N.ltb_spec p size) as [Hlt|Hge]; [constructor; [exact Hlt|exact (IH H)]|congruence].
Qed.
Lemma Get_Hash_Prime_From_Primes_least (size : N) :
  (Get_Hash_Prime_From Primes size = 0%N <-> (4294967291 < size)%N) /\
  (Get_Hash_Prime_From Primes size <> 0%N ->
   Get_Hash_Prime_From Primes size ∈ Primes /\ (size <= Get_Hash_Prime_From Primes size)%N /\
   forall q, q ∈ Primes -> q <> 0%N -> (size <= q)%N -> (Get_Hash_Prime_From Primes size <= q)%N).
Proof.
  assert (Hmax : Forall (fun q => (q <= 4294967291)%N) Primes)
    by (apply (bool_decide_eq_true_1 (Forall _ Primes)); vm_compute; reflexivity).
  assert (Hnz : Primes = (take 30 Primes) ++ [0%N]) by reflexivity.
  assert (Hnz' : Forall (fun q => q <> 0%N) (take 30 Primes))
    by (apply (bool_decide_eq_true_1 (Forall _ (take 30 Primes))); vm_compute; reflexivity).
  assert (Hall : forall (H : Get_Hash_Prime_From Primes size <> 0%N),
     Get_Hash_Prime_From Primes size ∈ Primes /\ (size <= Get_Hash_Prime_From Primes size)%N).
  { intros H. destruct (Get_Hash_Prime_From_first Primes size H) as (pre & post & E & _ & L).
    split; [|exact L]. rewrite E at 2. apply elem_of_app. right. left. }
  split; [split|].
  - intros Hz. rewrite Hnz in Hz.
    pose proof (Get_Hash_Prime_From_zero _ size Hnz' Hz) as Hf.
    rewrite Forall_forall in Hf. apply (Hf 4294967291%N). apply list_elem_of_lookup. exists 29. reflexivity.
  - intros Hgt. destruct (N.eqb_spec (Get_Hash_Prime_From Primes size) 0) as [|Hn]; [assumption|].
    destruct (Hall Hn) as [Hin Hle]. rewrite Forall_forall in Hmax.
    pose proof (Hmax _ Hin). lia.
  - intros Hn. destruct (Hall Hn) as [Hin Hle]. split; [exact Hin|]. split; [exact Hle|].
    apply Get_Hash_Prime_From_least; [apply Primes_sorted|exact Hn].
Qed.

Lemma to_REBINT_cases n : (n < 2^32)%N ->
  ((n < 2^31)%N /\ to_REBINT n = Z.of_N n) \/
  ((2^31 <= n)%N /\ to_REBINT n = (Z.of_N n - 2^32)%Z).
Proof.
  intros Hn. unfold to_REBINT.
  assert (Hz : (0 <= Z.of_N n < 2^32)%Z)
    by (split; [apply N2Z.is_nonneg|change (2^32)%Z with (Z.of_N (2^32)%N); apply N2Z.inj_lt, Hn]).
  rewrite (Z.mod_small (Z.of_N n)) by exact Hz.
  destruct (Z.ltb_spec (Z.of_N n) (2^31)) as [H|H].
  - left. split; [|reflexivity]. change (2^31)%Z with (Z.of_N (2^31)%N) in H. lia.
  - right. split; [|reflexivity]. change (2^31)%Z with (Z.of_N (2^31)%N) in H. lia.
Qed.

(** Get_Hash_Prime: the result is 0 exactly when the requested size is
    beyond the largest prime of the table (4294967291).  Otherwise, read
    back as a REBCNT (as Expand_Word_Table does), it is the smallest prime
    of the table that is at least the requested size.  As a REBINT it is
    negative exactly for the sizes 2147483648 to 4294967291, whose prime
    4294967291 does not fit: the REBINT is -5. *)
Theorem Get_Hash_Prime_least (size : N) :
  (Get_Hash_Prime size = 0%Z <-> (4294967291 < size)%N) /\
  ((2147483647 < size <= 4294967291)%N -> Get_Hash_Prime size = (-5)%Z) /\
  ((Get_Hash_Prime size < 0)%Z <-> (2147483647 < size <= 4294967291)%N) /\
  (Get_Hash_Prime size <> 0%Z ->
   to_REBCNT (Get_Hash_Prime size) ∈ Primes /\ (size <= to_REBCNT (Get_Hash_Prime size))%N /\
   forall q, q ∈ Primes -> q <> 0%N -> (size <= q)%N -> (to_REBCNT (Get_Hash_Prime size) <= q)%N).
Proof.
  rewrite Get_Hash_Prime_REBCNT. unfold Get_Hash_Prime.
  destruct (Get_Hash_Prime_From_Primes_least size) as ([Hz1 Hz2] & Hl).
  pose proof (Get_Hash_Prime_From_small size) as Hs.
  set (g := Get_Hash_Prime_From Primes size) in *.
  assert (Hbig : g ∈ Primes -> (2^31 <= g)%N -> g = 4294967291%N).
  { intros Hin Hge.
    assert (Hp : Forall (fun q => (q < 2^31)%N \/ q = 4294967291%N) Primes)
      by (apply (bool_decide_eq_true_1 (Forall _ Primes)); vm_compute; reflexivity).
    destruct (proj1 (Forall_forall _ _) Hp g Hin) as [H|H]; [lia|exact H]. }
  assert (Hz : to_REBINT g = 0%Z <-> g = 0%N).
  { destruct (to_REBINT_cases g Hs) as [(H & ->)|(H & ->)]; split; intros E; lia. }
  assert (Hneg : (2147483647 < size <= 4294967291)%N -> to_REBINT g = (-5)%Z).
  { intros Hr. assert (Hn : g <> 0%N) by (intros E; apply Hz1 in E; lia).
    destruct (Hl Hn) as (Hin & Hle & _).
    assert (Hg : g = 4294967291%N) by (apply Hbig; [exact Hin|lia]).
    rewrite Hg. reflexivity. }
  split; [rewrite Hz; split; [exact Hz1|exact Hz2]|].
  split; [exact Hneg|]. split.
  - split; [|intros Hr; rewrite (Hneg Hr); lia].
    intros Hlt. destruct (to_REBINT_cases g Hs) as [(H & E)|(H & E)]; [lia|].
    assert (Hn : g <> 0%N) by lia.
    destruct (Hl Hn) as (Hin & Hle & Hmin).
    assert (Hg : g = 4294967291%N) by (apply Hbig; [exact Hin|exact H]).
    split; [|lia].
    destruct (N.ltb_spec 2147483647 size) as [|Hsz]; [assumption|].
    assert (H2 : (g <= 2147483647)%N).
    { apply Hmin; [apply list_elem_of_lookup; exists 28; reflexivity|discriminate|exact Hsz]. }
    lia.
  - intros Hn. apply Hl. intros E. apply Hn. apply Hz. exact E.
Qed.

Lemma first_live_canon_spec T :
  (first_live_canon T = None <-> table_canons T = []) /\
  (forall c, first_live_canon T = Some c -> c ∈ table_canons T).
Proof.
  induction T as [|v T IH]; simpl; [split; [tauto|intros c H; discriminate]|].
  destruct v as [| |c']; simpl; try exact IH.
  split; [split; discriminate|]. intros c H. injection H as <-. left.
Qed.
(** Shutdown_Interning: in a debug build, after any run of interning
    operations from startup, the shutdown leak check reports a symbol
    exactly when some string is still interned, and the symbol it reports
    is a live canon string of the interner. *)
Theorem Shutdown_Interning_leak_check fold hash_folded FHCS nd ops st :
  run fold hash_folded FHCS (Startup_Interning nd) ops = Ok st ->
  (Shutdown_Interning false st = None <-> strings st = ∅) /\
  (forall c, Shutdown_Interning false st = Some c ->
     exists s, strings st !! c = Some s /\ str_canon s = true).
Proof.
  intros Hrun. destruct (reachable_inv fold hash_folded FHCS nd ops st Hrun) as (rings & HI).
  destruct (first_live_canon_spec (PG_Canons_By_Hash st)) as [Hnone Hsome].
  assert (Hcnt : Nat.eqb (PG_Num_Canon_Slots_In_Use st) (PG_Num_Canon_Deleteds st) = true <->
                 table_canons (PG_Canons_By_Hash st) = []).
  { rewrite Nat.eqb_eq, (inv_in_use _ _ _ _ _ HI), (inv_deleteds _ _ _ _ _ HI).
    destruct (table_canons (PG_Canons_By_Hash st)); simpl; split; intros; first [reflexivity | discriminate | lia]. }
  assert (Hempty : table_canons (PG_Canons_By_Hash st) = [] <-> strings st = ∅).
  { split.
    - intros Ht. apply map_eq. intros x. rewrite lookup_empty.
      destruct (strings st !! x) eqn:Ex; [|reflexivity]. exfalso.
      destruct (inv_ring_of fold hash_folded FHCS st rings HI x ltac:(rewrite Ex; eauto))
        as (r0 & Hr & _).
      pose proof (inv_heads _ _ _ _ _ HI) as Hp. rewrite Ht in Hp.
      apply Permutation_nil_l in Hp. destruct rings; [inversion Hr|discriminate].
    - intros Hs. destruct (table_canons (PG_Canons_By_Hash st)) as [|c tc] eqn:Et; [reflexivity|].
      exfalso. assert (Hc : c ∈ table_canons (PG_Canons_By_Hash st)) by (rewrite Et; left).
      destruct (inv_table_canon_dom fold hash_folded FHCS st rings c HI Hc) as [s Hs'].
      rewrite Hs, lookup_empty in Hs'. discriminate. }
  unfold Shutdown_Interning. simpl negb. cbn [andb].
  destruct (Nat.eqb (PG_Num_Canon_Slots_In_Use st) (PG_Num_Canon_Deleteds st)) eqn:E; simpl.
  - split; [split; [intros _; apply Hempty, Hcnt; reflexivity|reflexivity]|intros c H; discriminate].
  - split.
    + rewrite Hnone, Hempty. tauto.
    + intros c Hc. apply Hsome in Hc.
      destruct (inv_table_canon_ring fold hash_folded FHCS st rings c HI Hc) as (r & Hr & Hh & Hcr).
      destruct (inv_table_canon_dom fold hash_folded FHCS st rings c HI Hc) as [s Hs].
      exists s. split; [exact Hs|].
      pose proof (inv_ring_ok fold hash_folded FHCS st rings HI r Hr) as Hok.
      destruct r as [|c' ms]; [contradiction|]. simpl in Hh. subst c'.
      destruct Hok as (Hcan & _). unfold get in Hcan. rewrite Hs in Hcan. exact Hcan.
Qed.

(** Witness: the interner holding "a", "b", "c" and "d". *)
Lemma Shutdown_Interning_leak_check_witness :
  run fold_ascii hash_sum linear_first_slot (Startup_Interning false) ex_abcd = Ok ex_st /\
  (Shutdown_Interning false ex_st = None <-> strings ex_st = ∅) /\
  (forall c, Shutdown_Interning false ex_st = Some c ->
     exists s, strings ex_st !! c = Some s /\ str_canon s = true).
Proof.
  assert (H1 : run fold_ascii hash_sum linear_first_slot (Startup_Interning false) ex_abcd = Ok ex_st)
    by (vm_compute; reflexivity).
  exact (conj H1 (Shutdown_Interning_leak_check fold_ascii hash_sum linear_first_slot false
                    ex_abcd ex_st H1)).
Defined.

End InterningExtraFacts.


(* ===================================================================== *)
(* Further properties: Sweep_Series, Fill_Sweeplist, Recycle_Core (m-gc.c) *)
(* ===================================================================== *)

Module GCExtraFacts.

Import GC GCFacts GCExamples.

(** A node with NODE_FLAG_MARKED cleared. *)
Definition clear_marked (s : gc_node) : gc_node :=
  mk_gc_node (Z.land (first_byte s) (Z.lnot NODE_FLAG_MARKED)) (node_refs s).

(** The nibbles Sweep_Series has a case for. *)
Definition sweepable (s : gc_node) : bool :=
  Z.eqb (nib s) 8 || Z.eqb (nib s) 10 || Z.eqb (nib s) 11 || Z.eqb (nib s) 12.

Lemma fill_node_nib n s sl c :
  fill_node n s sl c =
  if Z.eqb (nib s) 9 then None
  else Some (if Z.eqb (nib s) 11 then clear_marked s else s, sl, c).
Proof.
  unfold fill_node. fold (nib s). rewrite IS_MANAGED_nib, IS_MARKED_nib.
  destruct (Z.eqb_spec (nib s) 9) as [E|E]; [rewrite E; reflexivity|].
  destruct (Z.eqb_spec (nib s) 11) as [E'|E']; [rewrite E'; reflexivity|].
  assert (Hn : Z.to_nat (nib s) <> 9 /\ Z.to_nat (nib s) <> 11) by lia.
  destruct (Z.to_nat (nib s)) as [|[|[|[|[|[|[|[|[|[|[|[|m]]]]]]]]]]]];
    try reflexivity; lia.
Qed.

Lemma Fill_Sweeplist_from_spec pool : forall n sl c,
  (Fill_Sweeplist_from n pool sl c = None <-> exists s, s ∈ pool /\ nib s = 9%Z) /\
  (forall pool' sl' c', Fill_Sweeplist_from n pool sl c = Some (pool', sl', c') ->
     sl' = sl /\ c' = c /\
     pool' = map (fun s => if Z.eqb (nib s) 11 then clear_marked s else s) pool).
Proof.
  induction pool as [|s rest IH]; intros n sl c; simpl.
  - split; [split; [discriminate|intros (s & Hs & _); inversion Hs]|].
    intros pool' sl' c' H. injection H as <- <- <-. auto.
  - rewrite fill_node_nib. destruct (IH (S n) sl c) as [IHn IHs].
    destruct (Z.eqb_spec (nib s) 9) as [E|E].
    + split; [split; [intros _; exists s; split; [left|exact E]|reflexivity]|discriminate].
    + destruct (Fill_Sweeplist_from (S n) rest sl c) as [[[r' sl1] c1]|] eqn:Er.
      * split; [split; [discriminate|]|].
        -- intros (s0 & Hs0 & E0). apply elem_of_cons in Hs0 as [->|Hs0]; [contradiction|].
           assert (Hn : Some (r', sl1, c1) = None) by (apply IHn; eauto). discriminate.
        -- intros pool' sl' c' H. injection H as <- <- <-.
           destruct (IHs _ _ _ eq_refl) as (-> & -> & ->). auto.
      * split; [split; [intros _|reflexivity]|discriminate].
        destruct (proj1 IHn eq_refl) as (s0 & Hs0 & E0). exists s0. split; [right; exact Hs0|exact E0].
Qed.

Lemma nib9_marked s : nib s = 9%Z -> IS_MANAGED s = false /\ IS_MARKED s = true.
Proof. intros E. rewrite IS_MANAGED_nib, IS_MARKED_nib, E. split; reflexivity. Qed.

Lemma IS_MANAGED_clear_marked s : IS_MANAGED (clear_marked s) = IS_MANAGED s.
Proof. rewrite !IS_MANAGED_nib. unfold clear_marked. rewrite nib_cleared. rewrite Z.land_spec. simpl. apply andb_true_r. Qed.

Lemma sweep_node_None s : sweep_node s = None <-> sweepable s = false.
Proof.
  unfold sweep_node, sweepable. fold (nib s).
  destruct (Z.eqb_spec (nib s) 8) as [E|E]; [rewrite E; simpl; split; discriminate|].
  destruct (Z.eqb_spec (nib s) 10) as [E1|E1]; [rewrite E1; simpl; split; discriminate|].
  destruct (Z.eqb_spec (nib s) 11) as [E2|E2]; [rewrite E2; simpl; split; discriminate|].
  destruct (Z.eqb_spec (nib s) 12) as [E3|E3]; [rewrite E3; simpl; split; discriminate|].
  simpl. assert (Z.to_nat (nib s) <> 8 /\ Z.to_nat (nib s) <> 10 /\
                 Z.to_nat (nib s) <> 11 /\ Z.to_nat (nib s) <> 12) by lia.
  destruct (Z.to_nat (nib s)) as [|[|[|[|[|[|[|[|[|[|[|[|[|m]]]]]]]]]]]]];
    try (split; reflexivity); lia.
Qed.

(** Fill_Sweeplist (debug build): the assert of case 9 fails exactly when
    the pool holds a node whose header nibble is 9 (marked but not
    managed).  Otherwise no node is ever added to the sweeplist and the
    count is 0: the only change is that nodes of nibble 11 (managed and
    marked) get their mark cleared. *)
Theorem Fill_Sweeplist_never_fills (pool : list gc_node) :
  (Fill_Sweeplist pool = None <-> exists s, s ∈ pool /\ nib s = 9%Z) /\
  (forall pool' sweeplist count, Fill_Sweeplist pool = Some (pool', sweeplist, count) ->
     sweeplist = [] /\ count = 0 /\
     pool' = map (fun s => if Z.eqb (nib s) 11 then clear_marked s else s) pool).
Proof. exact (Fill_Sweeplist_from_spec pool 0 [] 0). Qed.

(** Sweep_Series (release build, where the asserts of cases 10 and 12 are
    not checked): the sweep panics exactly when some node of the pool has
    a header nibble other than 8, 10, 11 and 12. *)
Theorem Sweep_Series_panics (pool : list gc_node) :
  Sweep_Series pool = None <->
  exists s, s ∈ pool /\ nib s <> 8%Z /\ nib s <> 10%Z /\ nib s <> 11%Z /\ nib s <> 12%Z.
Proof.
  induction pool as [|s rest IH]; simpl.
  - split; [discriminate|intros (s & Hs & _); inversion Hs].
  - destruct (sweep_node s) as [[s' c]|] eqn:Es.
    + assert (Hsw : sweepable s = true).
      { destruct (sweepable s) eqn:E; [reflexivity|]. apply sweep_node_None in E. congruence. }
      destruct (Sweep_Series rest) as [[r' n']|] eqn:Er.
      * split; [discriminate|]. intros (s0 & Hs0 & H0). apply elem_of_cons in Hs0 as [->|Hs0].
        -- unfold sweepable in Hsw. destruct H0 as (H8 & H10 & H11 & H12).
           apply Z.eqb_neq in H8, H10, H11, H12. rewrite H8, H10, H11, H12 in Hsw. discriminate.
        -- assert (Hn : Some (r', n') = None) by (apply IH; eauto). discriminate.
      * split; [intros _|reflexivity]. destruct (proj1 IH eq_refl) as (s0 & Hs0 & H0).
        exists s0. split; [right; exact Hs0|exact H0].
    + split; [intros _|reflexivity]. exists s. split; [left|].
      apply sweep_node_None in Es. unfold sweepable in Es.
      repeat rewrite orb_false_iff in Es. destruct Es as [[[E8 E10] E11] E12].
      apply Z.eqb_neq in E8, E10, E11, E12. auto.
Qed.

(** Sweep_Series: a second sweep with no marking in between frees exactly
    the nodes the first sweep kept because they were managed and marked,
    and leaves no managed node in the pool. *)
Theorem Sweep_Series_twice (pool pool1 : list gc_node) (n1 : nat) :
  Sweep_Series pool = Some (pool1, n1) ->
  exists pool2, Sweep_Series pool1 = Some (pool2, length (List.filter (fun s => IS_MANAGED s && IS_MARKED s) pool)) /\
    Forall (fun s => IS_MANAGED s = false) pool2.
Proof.
  revert pool1 n1. induction pool as [|s rest IH]; intros pool1 n1 H; simpl in H.
  - injection H as <- <-. exists []. split; [reflexivity|constructor].
  - destruct (sweep_node s) as [[s' c]|] eqn:Es; [|discriminate].
    destruct (Sweep_Series rest) as [[r' n']|] eqn:Er; [|discriminate].
    injection H as <- <-. destruct (IH _ _ eq_refl) as (r2 & Hr2 & Hf).
    destruct (sweep_node_cases _ _ _ Es) as [(E & -> & ->)|[(E & -> & ->)|[(E & -> & ->)|(E & -> & ->)]]];
      simpl; rewrite Hr2; unfold sweep_node; fold (nib s).
    + rewrite E. simpl. eexists. split.
      * rewrite IS_MANAGED_nib, IS_MARKED_nib, E. reflexivity.
      * constructor; [|exact Hf]. rewrite IS_MANAGED_nib, E. reflexivity.
    + simpl. eexists. split.
      * rewrite IS_MANAGED_nib, IS_MARKED_nib, E. reflexivity.
      * constructor; [reflexivity|exact Hf].
    + fold (nib (mk_gc_node (Z.land (first_byte s) (Z.lnot NODE_FLAG_MARKED)) (node_refs s))).
      rewrite nib_cleared, E. simpl. eexists. split.
      * rewrite IS_MANAGED_nib, IS_MARKED_nib, E. reflexivity.
      * constructor; [reflexivity|exact Hf].
    + rewrite E. simpl. eexists. split.
      * rewrite IS_MANAGED_nib, IS_MARKED_nib, E. reflexivity.
      * constructor; [|exact Hf]. rewrite IS_MANAGED_nib, E. reflexivity.
Qed.

(** Witness: the example pool after the example marking phase. *)
Lemma Sweep_Series_twice_witness :
  exists pool1 n1, Sweep_Series (ex_mark ex_pool) = Some (pool1, n1) /\
  exists pool2, Sweep_Series pool1 =
      Some (pool2, length (List.filter (fun s => IS_MANAGED s && IS_MARKED s)
                             (ex_mark ex_pool))) /\
    Forall (fun s => IS_MANAGED s = false) pool2.
Proof.
  destruct (Sweep_Series (ex_mark ex_pool)) as [[pool1 n1]|] eqn:E;
    [|vm_compute in E; discriminate].
  exists pool1, n1. exact (conj eq_refl (Sweep_Series_twice _ pool1 n1 E)).
Defined.

End GCExtraFacts.


(* ===================================================================== *)
(* Further properties: List_Func_Words and Find_Param_Index over the     *)
(* paramlist Make_Paramlist_Managed_May_Fail builds (c-function.c)       *)
(* ===================================================================== *)

Module ParamlistExtraFacts.

Import Dispatch Paramlist ParamlistFacts ParamlistExamples.

(** The three data stack cells a parameter takes while the spec is read:
    its typeset, its (absent) type block and its empty description. *)

Definition param_triple (t : typeset) : list ds_cell :=
  [DS_Typeset t; DS_Block None; DS_String EmptyString].

Definition init_cells : list ds_cell := [DS_Blank; DS_Block None; DS_String EmptyString].

Lemma pad_triple_push d t : pad_triple (d ++ [DS_Typeset t]) = d ++ param_triple t.
Proof.
  unfold pad_triple, pad_string, pad_block, DS_TOP. rewrite (last_snoc (DS_Typeset t) d). simpl.
  rewrite last_snoc. simpl. rewrite <- !app_assoc. reflexivity.
Qed.

Lemma param_typesets_triples ts : param_typesets (concat (map param_triple ts)) = ts.
Proof. induction ts as [|t ts IH]; simpl; [reflexivity|]. f_equal. exact IH. Qed.

Lemma copy_params_triples ts : forall p b dup dest,
  (copy_params p (concat (map param_triple ts)) 0 b dup dest).2 = dest ++ ts.
Proof.
  induction ts as [|t ts IH]; intros p b dup dest; simpl.
  - rewrite app_nil_r. reflexivity.
  - destruct (Try_Add_Binder_Index b (ts_canon t) 1020) as [ok b']. simpl.
    rewrite IH, <- app_assoc. reflexivity.
Qed.

Section Words.

Context (REB_MAX_VOID REB_FUNCTION SYM_RETURN SYM_LEAVE canon_return canon_leave : nat).

(** The parameter a spec word gives in the normal mode. *)
Definition param_of (fl : mkf) (w : word) : typeset :=
  set_class (word_class SPEC_MODE_NORMAL (word_type w))
    (mk_typeset (default_param_bits REB_MAX_VOID REB_FUNCTION fl) (VAL_WORD_SPELLING w)
       (VAL_WORD_CANON w) (canon_symbol w) PARAM_CLASS_NORMAL).

(** A SET-WORD! of the spec is not [return:]. *)
Definition no_return_local (w : word) : Prop :=
  word_type w = REB_SET_WORD -> canon_symbol w <> SYM_RETURN.

(** A SET-WORD! of the spec is not [leave:]. *)
Definition no_leave_local (w : word) : Prop :=
  word_type w = REB_SET_WORD -> canon_symbol w <> SYM_LEAVE.

Lemma return_leave_check_plain fl rdsp ldsp dsp w :
  MKF_RETURN fl = false -> MKF_LEAVE fl = false -> MKF_FAKE_RETURN fl = false ->
  no_return_local w ->
  exists ldsp', return_leave_check SYM_RETURN SYM_LEAVE fl rdsp ldsp dsp w = (fl, rdsp, ldsp') /\
    (no_leave_local w -> ldsp' = ldsp).
Proof.
  intros HR HL HF Hw. destruct fl as [r l f a k]; simpl in HR, HL, HF; subst r l f.
  unfold return_leave_check, no_return_local, no_leave_local in *.
  cbn [MKF_LEAVE MKF_RETURN MKF_FAKE_RETURN negb orb].
  destruct (Nat.eqb_spec (canon_symbol w) SYM_RETURN) as [Hs|Hs]; simpl.
  - destruct (word_type w) eqn:Ek; simpl; try (eexists; split; [reflexivity|auto]).
    exfalso. exact (Hw eq_refl Hs).
  - destruct (Nat.eqb_spec (canon_symbol w) SYM_LEAVE) as [Hl|Hl]; simpl;
      [destruct (word_kind_eqb (word_type w) REB_SET_WORD) eqn:Ek|];
      eexists; (split; [reflexivity|]); auto.
    intros Hn. exfalso. apply Hn; [|exact Hl]. destruct (word_type w); try discriminate Ek.
    reflexivity.
Qed.

Lemma return_leave_assert_zero fl w :
  return_leave_assert SYM_RETURN SYM_LEAVE fl 0 0 w = true.
Proof.
  unfold return_leave_assert.
  destruct (Nat.eqb (canon_symbol w) SYM_RETURN && negb (MKF_LEAVE fl)); [reflexivity|].
  destruct (Nat.eqb (canon_symbol w) SYM_LEAVE && _); reflexivity.
Qed.

Lemma spec_loop_words ndebug fl words : forall st ts,
  MKF_RETURN fl = false -> MKF_LEAVE fl = false -> MKF_FAKE_RETURN fl = false ->
  Forall no_return_local words ->
  flags st = fl -> mode st = SPEC_MODE_NORMAL -> definitional_return_dsp st = 0 ->
  pad_triple (ds st) = init_cells ++ concat (map param_triple ts) ->
  match spec_loop REB_MAX_VOID REB_FUNCTION SYM_RETURN SYM_LEAVE ndebug st (map Spec_Word words) with
  | Done st' =>
      flags st' = fl /\ definitional_return_dsp st' = 0 /\
      pad_triple (ds st') = init_cells ++ concat (map param_triple (ts ++ map (param_of fl) words))
  | Fail e =>
      e = Debug_Assert_Failed /\ ndebug = false /\
      ~ (definitional_leave_dsp st = 0 /\ Forall no_leave_local words)
  end.
Proof.
  induction words as [|w words IH]; intros st ts HR HL HF Hws Hfl Hm Hr Hd; simpl.
  - rewrite app_nil_r. auto.
  - apply Forall_cons in Hws as [Hw Hws].
    unfold word_step. rewrite Hm. simpl word_mode. cbv iota beta.
    destruct (negb ndebug && negb (return_leave_assert SYM_RETURN SYM_LEAVE (flags st)
                (definitional_return_dsp st) (definitional_leave_dsp st) w)) eqn:Ea.
    { split; [reflexivity|]. apply andb_prop in Ea as [Ea Eb].
      split; [destruct ndebug; [discriminate|reflexivity]|].
      intros [Hz _]. rewrite Hr, Hz, return_leave_assert_zero in Eb. discriminate. }
    destruct (return_leave_check_plain fl (definitional_return_dsp st) (definitional_leave_dsp st)
                (S (length (pad_triple (ds st)))) w HR HL HF Hw) as (ldsp' & Hc & Hld).
    rewrite Hfl, Hc. simpl.
    match goal with |- match spec_loop _ _ _ _ _ ?s _ with _ => _ end =>
      assert (Hs : pad_triple (ds s) = init_cells ++ concat (map param_triple (ts ++ [param_of fl w])))
        by (simpl; rewrite pad_triple_push, Hd, map_app, concat_app, <- app_assoc; simpl;
            rewrite ?app_nil_r; reflexivity);
      pose proof (IH s (ts ++ [param_of fl w]) HR HL HF Hws eq_refl eq_refl Hr Hs) as IHs;
      destruct (spec_loop _ _ _ _ _ s _) as [st'|e] end.
    + destruct IHs as (H2 & H3 & H4). split; [exact H2|]. split; [exact H3|].
      rewrite H4, <- app_assoc. reflexivity.
    + destruct IHs as (H1 & H2 & H3). split; [exact H1|]. split; [exact H2|].
      intros [Hz Hall]. apply Forall_cons in Hall as [Hw' Hall]. apply H3. cbn.
      rewrite (Hld Hw'). split; [exact Hz|exact Hall].
Qed.

Lemma Make_Paramlist_words ndebug fl words :
  MKF_RETURN fl = false -> MKF_LEAVE fl = false -> MKF_FAKE_RETURN fl = false ->
  Forall no_return_local words ->
  match Make_Paramlist_Managed_May_Fail REB_MAX_VOID REB_FUNCTION SYM_RETURN SYM_LEAVE
          canon_return canon_leave ndebug fl (map Spec_Word words) with
  | Done pl => NoDup (map VAL_WORD_CANON words) /\ pl = mk_paramlist (map (param_of fl) words) false false
  | Fail e =>
      (e = Debug_Assert_Failed /\ ndebug = false /\ ~ Forall no_leave_local words) \/
      (~ NoDup (map VAL_WORD_CANON words) /\ exists sp, e = Error_Dup_Vars sp)
  end.
Proof.
  intros HR HL HF Hws.
  assert (He : entry_flags ndebug fl = fl) by (unfold entry_flags; rewrite HF, andb_false_r; reflexivity).
  pose proof (spec_loop_words ndebug fl words (initial_state fl) [] HR HL HF Hws eq_refl eq_refl eq_refl eq_refl)
    as Hl.
  assert (Hcan : map ts_canon (map (param_of fl) words) = map VAL_WORD_CANON words).
  { rewrite map_map. apply map_ext. intros w. reflexivity. }
  unfold Make_Paramlist_Managed_May_Fail. rewrite He.
  destruct (spec_loop _ _ _ _ _ (initial_state fl) _) as [st|e].
  2:{ destruct Hl as (-> & Hn & Hnl). left. split; [reflexivity|]. split; [exact Hn|].
      intros Hall. apply Hnl. split; [reflexivity|exact Hall]. }
  destruct Hl as (Hfl & Hr & Hd). cbv iota beta.
  unfold finish. rewrite Hfl, HR, HL, Hd. simpl.
  unfold Copy_Paramlist. rewrite Hr. simpl drop. rewrite ?drop_0. cbn [Nat.eqb].
  pose proof (copy_params_triples (map (param_of fl) words) 4 ∅ None []) as Hc.
  pose proof (copy_params_duplicate 4 (concat (map param_triple (map (param_of fl) words))) 0 ∅ None [])
    as Hdup.
  unfold param_canons in Hdup. rewrite param_typesets_triples, Hcan in Hdup.
  destruct (copy_params 4 (concat (map param_triple (map (param_of fl) words))) 0 ∅ None [])
    as [[b dup] dest]. simpl in Hc, Hdup. subst dest. simpl.
  destruct dup as [sp|].
  - right. split; [|exists sp; reflexivity]. intros Hnd.
    assert (Hx : Some sp = None); [|discriminate].
    apply Hdup. split; [reflexivity|]. split; [exact Hnd|]. intros k _. apply lookup_empty.
  - split; [exact (proj1 (proj2 (proj1 Hdup eq_refl)))|reflexivity].
Qed.

Lemma List_Func_Words_params fl words :
  List_Func_Words (map (param_of fl) words) true =
    map (fun w => (word_type w, VAL_WORD_SPELLING w)) words /\
  List_Func_Words (map (param_of fl) words) false =
    map (fun w => (word_type w, VAL_WORD_SPELLING w))
      (List.filter (fun w => negb (word_kind_eqb (word_type w) REB_SET_WORD)) words).
Proof.
  induction words as [|w words [IH1 IH2]]; simpl; [split; reflexivity|].
  rewrite IH1, IH2. unfold param_of, set_class. destruct w as [k sp c sy]; simpl.
  destruct k; simpl; split; reflexivity.
Qed.


(** Make_Paramlist_Managed_May_Fail then List_Func_Words, on a spec of
    plain words (no strings, blocks, tags or refinements) with neither
    RETURN, LEAVE nor FAKE_RETURN asked for and no [return:] SET-WORD!:
    building fails, with a duplicate-variable error, exactly when two
    words share a canon; otherwise WORDS-OF gives the spec's words back in
    order with their kinds, and without [pure_locals] the SET-WORD!s
    (locals) are left out.  In a debug build the spec also has no [leave:]
    SET-WORD!: a later word naming LEAVE would fail the assert of the LEAVE
    branch. *)
Theorem Make_Paramlist_words_roundtrip ndebug fl words :
  MKF_RETURN fl = false -> MKF_LEAVE fl = false -> MKF_FAKE_RETURN fl = false ->
  Forall (fun w => word_type w = REB_SET_WORD -> canon_symbol w <> SYM_RETURN) words ->
  (ndebug = true \/
   Forall (fun w => word_type w = REB_SET_WORD -> canon_symbol w <> SYM_LEAVE) words) ->
  match Make_Paramlist_Managed_May_Fail REB_MAX_VOID REB_FUNCTION SYM_RETURN SYM_LEAVE
          canon_return canon_leave ndebug fl (map Spec_Word words) with
  | Done pl =>
      NoDup (map VAL_WORD_CANON words) /\
      List_Func_Words (params pl) true = map (fun w => (word_type w, VAL_WORD_SPELLING w)) words /\
      List_Func_Words (params pl) false =
        map (fun w => (word_type w, VAL_WORD_SPELLING w))
          (List.filter (fun w => negb (word_kind_eqb (word_type w) REB_SET_WORD)) words)
  | Fail e => ~ NoDup (map VAL_WORD_CANON words) /\ exists sp, e = Error_Dup_Vars sp
  end.
Proof.
  intros HR HL HF Hws Hdbg.
  pose proof (Make_Paramlist_words ndebug fl words HR HL HF Hws) as Hmk.
  destruct (Make_Paramlist_Managed_May_Fail _ _ _ _ _ _ ndebug fl _) as [pl|e].
  - destruct Hmk as [Hnd ->]. simpl. split; [exact Hnd|]. apply List_Func_Words_params.
  - destruct Hmk as [(-> & Hn & Hnl)|Hd]; [|exact Hd].
    exfalso. destruct Hdbg as [Ht|Hf]; [congruence|exact (Hnl Hf)].
Qed.


Lemma ts_spelling_param_of fl w : ts_spelling (param_of fl w) = VAL_WORD_SPELLING w.
Proof. reflexivity. Qed.
Lemma ts_canon_param_of fl w : ts_canon (param_of fl w) = VAL_WORD_CANON w.
Proof. reflexivity. Qed.

Lemma find_param_words_at fl (STR_CANON_of : nat -> nat) words : forall n i w,
  Forall (fun w => STR_CANON_of (VAL_WORD_SPELLING w) = VAL_WORD_CANON w) words ->
  NoDup (map VAL_WORD_CANON words) -> words !! i = Some w ->
  find_param_from n (map (param_of fl) words) (VAL_WORD_SPELLING w) (VAL_WORD_CANON w) = n + i.
Proof.
  induction words as [|w0 words IH]; intros n i w Hc Hnd Hi; [rewrite lookup_nil in Hi; discriminate|].
  apply Forall_cons in Hc as [Hc0 Hc]. simpl in Hnd. apply NoDup_cons in Hnd as [Hn0 Hnd].
  cbn [map find_param_from]. rewrite ts_spelling_param_of, ts_canon_param_of.
  destruct i as [|i]; simpl in Hi.
  - injection Hi as ->. rewrite Nat.eqb_refl. simpl. lia.
  - assert (Hw : VAL_WORD_CANON w ∈ map VAL_WORD_CANON words).
    { apply list_elem_of_fmap. exists w. split; [reflexivity|]. apply list_elem_of_lookup. eauto. }
    assert (Hne : VAL_WORD_CANON w <> VAL_WORD_CANON w0) by (intros E; rewrite E in Hw; contradiction).
    assert (Hsne : VAL_WORD_SPELLING w <> VAL_WORD_SPELLING w0).
    { intros E. apply Hne. rewrite <- Hc0, <- E. symmetry. exact (proj1 (Forall_lookup _ _) Hc _ _ Hi). }
    apply Nat.eqb_neq in Hne, Hsne. rewrite Hne, Hsne. cbn [orb].
    rewrite (IH (S n) i w Hc Hnd Hi). lia.
Qed.

Lemma find_param_words_zero fl words : forall n sp c, 0 < n ->
  find_param_from n (map (param_of fl) words) sp c = 0 <->
  Forall (fun w => sp <> VAL_WORD_SPELLING w /\ c <> VAL_WORD_CANON w) words.
Proof.
  induction words as [|w words IH]; intros n sp c Hn; cbn [map find_param_from];
    [split; [intros _; constructor|intros _; lia]|].
  rewrite ts_spelling_param_of, ts_canon_param_of.
  rewrite Forall_cons.
  destruct (Nat.eqb_spec sp (VAL_WORD_SPELLING w)); destruct (Nat.eqb_spec c (VAL_WORD_CANON w));
    simpl; try (split; [lia|intros [[? ?] _]; contradiction]).
  rewrite IH by lia. tauto.
Qed.

(** Find_Param_Index on the paramlist built from such a spec, when each
    word's canon is STR_CANON of its spelling: the spelling of the i-th
    word is found at index i + 1, and the result is 0 (not found) exactly
    when the canon of the spelling is the canon of no word of the spec. *)
Theorem Find_Param_Index_words (STR_CANON_of : nat -> nat) ndebug fl words pl :
  MKF_RETURN fl = false -> MKF_LEAVE fl = false -> MKF_FAKE_RETURN fl = false ->
  Forall (fun w => word_type w = REB_SET_WORD -> canon_symbol w <> SYM_RETURN) words ->
  Forall (fun w => STR_CANON_of (VAL_WORD_SPELLING w) = VAL_WORD_CANON w) words ->
  Make_Paramlist_Managed_May_Fail REB_MAX_VOID REB_FUNCTION SYM_RETURN SYM_LEAVE
    canon_return canon_leave ndebug fl (map Spec_Word words) = Done pl ->
  (forall i w, words !! i = Some w ->
     Find_Param_Index STR_CANON_of (params pl) (VAL_WORD_SPELLING w) = S i) /\
  (forall spelling, Find_Param_Index STR_CANON_of (params pl) spelling = 0 <->
     STR_CANON_of spelling ∉ map VAL_WORD_CANON words).
Proof.
  intros HR HL HF Hws Hc Hm.
  pose proof (Make_Paramlist_words ndebug fl words HR HL HF Hws) as Hmk.
  rewrite Hm in Hmk. destruct Hmk as [Hnd ->]. simpl. unfold Find_Param_Index. split.
  - intros i w Hi. rewrite Forall_lookup in Hc. rewrite (Hc _ _ Hi).
    exact (find_param_words_at fl STR_CANON_of words 1 i w (proj2 (Forall_lookup _ _) Hc) Hnd Hi).
  - intros sp. rewrite find_param_words_zero by lia. split.
    + intros Hf Hin. apply list_elem_of_fmap in Hin as (w & Hw & Hin).
      rewrite Forall_forall in Hf. destruct (Hf w Hin) as [_ H]. exact (H Hw).
    + intros Hnot. apply Forall_forall. intros w Hin. split.
      * intros ->. apply Hnot. apply list_elem_of_fmap. exists w. split; [|exact Hin].
        exact (proj1 (Forall_forall _ _) Hc w Hin).
      * intros Heq. apply Hnot. apply list_elem_of_fmap. exists w. split; [exact Heq|exact Hin].
Qed.

End Words.

(** Witness: the spec [a b: 'c] (a word, a local and a soft-quoted word). *)
Lemma Make_Paramlist_words_roundtrip_witness :
  Forall (fun w => word_type w = REB_SET_WORD -> canon_symbol w <> 50)
    [ex_word REB_WORD 3; ex_word REB_SET_WORD 4; ex_word REB_LIT_WORD 5] /\
  match ex_make false (mk_mkf false false false false true)
          (map Spec_Word [ex_word REB_WORD 3; ex_word REB_SET_WORD 4; ex_word REB_LIT_WORD 5]) with
  | Done pl =>
      NoDup (map VAL_WORD_CANON [ex_word REB_WORD 3; ex_word REB_SET_WORD 4; ex_word REB_LIT_WORD 5]) /\
      List_Func_Words (params pl) true =
        map (fun w => (word_type w, VAL_WORD_SPELLING w))
          [ex_word REB_WORD 3; ex_word REB_SET_WORD 4; ex_word REB_LIT_WORD 5] /\
      List_Func_Words (params pl) false =
        map (fun w => (word_type w, VAL_WORD_SPELLING w))
          (List.filter (fun w => negb (word_kind_eqb (word_type w) REB_SET_WORD))
             [ex_word REB_WORD 3; ex_word REB_SET_WORD 4; ex_word REB_LIT_WORD 5])
  | Fail e => ~ NoDup (map VAL_WORD_CANON
                  [ex_word REB_WORD 3; ex_word REB_SET_WORD 4; ex_word REB_LIT_WORD 5]) /\
              exists sp, e = Error_Dup_Vars sp
  end.
Proof.
  assert (Hws : Forall (fun w => word_type w = REB_SET_WORD -> canon_symbol w <> 50)
                  [ex_word REB_WORD 3; ex_word REB_SET_WORD 4; ex_word REB_LIT_WORD 5])
    by (repeat constructor; cbn; intros _; lia).
  assert (Hlv : Forall (fun w => word_type w = REB_SET_WORD -> canon_symbol w <> 51)
                  [ex_word REB_WORD 3; ex_word REB_SET_WORD 4; ex_word REB_LIT_WORD 5])
    by (repeat constructor; cbn; intros _; lia).
  exact (conj Hws (Make_Paramlist_words_roundtrip 0 1 50 51 50 51 false
                     (mk_mkf false false false false true)
                     [ex_word REB_WORD 3; ex_word REB_SET_WORD 4; ex_word REB_LIT_WORD 5]
                     eq_refl eq_refl eq_refl Hws (or_intror Hlv))).
Defined.

(** Witness: the same spec, with STR_CANON the identity on spellings. *)
Lemma Find_Param_Index_words_witness :
  exists pl, ex_make false (mk_mkf false false false false true)
      (map Spec_Word [ex_word REB_WORD 3; ex_word REB_SET_WORD 4; ex_word REB_LIT_WORD 5]) = Done pl /\
    (forall i w, [ex_word REB_WORD 3; ex_word REB_SET_WORD 4; ex_word REB_LIT_WORD 5] !! i = Some w ->
       Find_Param_Index (fun n => n) (params pl) (VAL_WORD_SPELLING w) = S i) /\
    (forall spelling, Find_Param_Index (fun n => n) (params pl) spelling = 0 <->
       spelling ∉ map VAL_WORD_CANON
                   [ex_word REB_WORD 3; ex_word REB_SET_WORD 4; ex_word REB_LIT_WORD 5]).
Proof.
  destruct (ex_make false (mk_mkf false false false false true)
      (map Spec_Word [ex_word REB_WORD 3; ex_word REB_SET_WORD 4; ex_word REB_LIT_WORD 5]))
    as [pl|e] eqn:E; [|vm_compute in E; discriminate].
  exists pl. split; [reflexivity|].
  assert (Hws : Forall (fun w => word_type w = REB_SET_WORD -> canon_symbol w <> 50)
                  [ex_word REB_WORD 3; ex_word REB_SET_WORD 4; ex_word REB_LIT_WORD 5])
    by (repeat constructor; cbn; intros _; lia).
  assert (Hc : Forall (fun w => (fun n : nat => n) (VAL_WORD_SPELLING w) = VAL_WORD_CANON w)
                 [ex_word REB_WORD 3; ex_word REB_SET_WORD 4; ex_word REB_LIT_WORD 5])
    by (repeat constructor).
  exact (Find_Param_Index_words 0 1 50 51 50 51 (fun n => n) false
           (mk_mkf false false false false true)
           [ex_word REB_WORD 3; ex_word REB_SET_WORD 4; ex_word REB_LIT_WORD 5] pl
           eq_refl eq_refl eq_refl Hws Hc E).
Defined.

(** The asserts of the debug build: [return: return:] with the RETURN
    flag, and [leave: leave:] with no flag, stop at the second word in a
    debug build; a release build reports the duplicate instead. *)
Lemma Make_Paramlist_debug_asserts :
  ex_make false ex_flags [Spec_Word (ex_word REB_SET_WORD 50); Spec_Word (ex_word REB_SET_WORD 50)]
    = Fail Debug_Assert_Failed /\
  ex_make true ex_flags [Spec_Word (ex_word REB_SET_WORD 50); Spec_Word (ex_word REB_SET_WORD 50)]
    = Fail (Error_Dup_Vars 50) /\
  ex_make false (mk_mkf false false false false true)
    [Spec_Word (ex_word REB_SET_WORD 51); Spec_Word (ex_word REB_SET_WORD 51)]
    = Fail Debug_Assert_Failed /\
  ex_make true (mk_mkf false false false false true)
    [Spec_Word (ex_word REB_SET_WORD 51); Spec_Word (ex_word REB_SET_WORD 51)]
    = Fail (Error_Dup_Vars 51).
Proof. repeat split; vm_compute; reflexivity. Qed.

End ParamlistExtraFacts.


(* ===================================================================== *)
(* Further dispatchers of c-function.c: the TYPECHECKER dispatchers and   *)
(* Unchecked_Dispatcher, against Returner_Dispatcher                      *)
(* ===================================================================== *)

Module DispatchExtraFacts.

Import Dispatch.

(** The two REB_R codes the TYPECHECKER dispatchers return. *)
Inductive REB_R_check := R_TRUE | R_FALSE.

(** Datatype_Checker_Dispatcher: the body is a DATATYPE! of kind
    [datatype_kind] (VAL_TYPE_KIND); the first argument is [arg]. *)
Definition Datatype_Checker_Dispatcher (datatype_kind : nat) (arg : value) : REB_R_check :=
  if Nat.eqb (VAL_TYPE arg) datatype_kind then R_TRUE else R_FALSE.

(** Typeset_Checker_Dispatcher: the body is a TYPESET! with bits [typeset]. *)
Definition Typeset_Checker_Dispatcher (typeset : Z) (arg : value) : REB_R_check :=
  if TYPE_CHECK typeset (VAL_TYPE arg) then R_TRUE else R_FALSE.

Section Unchecked.

Variable body_block : Type.
Variable Do_At_Throws : body_block -> do_result.

(** Unchecked_Dispatcher: evaluate the body into [f->out] and propagate a
    throw, with no return type check. *)
Definition Unchecked_Dispatcher (f : returner_frame body_block) : returner_frame body_block * REB_R :=
  match Do_At_Throws (f_body f) with
  | Do_Thrown v => (mk_returner_frame (f_phase f) (f_body f) (Some v), R_OUT_IS_THROWN)
  | Do_Normal v => (mk_returner_frame (f_phase f) (f_body f) (Some v), R_OUT)
  end.

End Unchecked.

Arguments Unchecked_Dispatcher {body_block} Do_At_Throws f.

Lemma TYPE_CHECK_FLAGIT_KIND (k j : nat) : TYPE_CHECK (FLAGIT_KIND k) j = Nat.eqb j k.
Proof.
  unfold TYPE_CHECK, FLAGIT_KIND. rewrite !Z.shiftl_1_l.
  destruct (Nat.eqb_spec j k) as [->|Hne].
  - rewrite Z.land_diag. assert (H : (0 < 2 ^ Z.of_nat k)%Z) by (apply Z.pow_pos_nonneg; lia).
    destruct (Z.eqb_spec (2 ^ Z.of_nat k) 0); [lia|reflexivity].
  - replace (Z.land (2 ^ Z.of_nat k) (2 ^ Z.of_nat j)) with 0%Z; [reflexivity|].
    apply Z.bits_inj'. intros n Hn. rewrite Z.bits_0, Z.land_spec, !Z.pow2_bits_eqb by lia.
    destruct (Z.eqb_spec (Z.of_nat k) n); destruct (Z.eqb_spec (Z.of_nat j) n); simpl; lia.
Qed.

(** Datatype_Checker_Dispatcher and Typeset_Checker_Dispatcher: checking
    against a datatype gives the same answer, on every argument, as
    checking against the typeset holding only that datatype's bit. *)
Theorem Datatype_Checker_is_Typeset_Checker (k : nat) (arg : value) :
  Datatype_Checker_Dispatcher k arg = Typeset_Checker_Dispatcher (FLAGIT_KIND k) arg.
Proof.
  unfold Datatype_Checker_Dispatcher, Typeset_Checker_Dispatcher.
  rewrite TYPE_CHECK_FLAGIT_KIND. reflexivity.
Qed.

(** Returner_Dispatcher against Unchecked_Dispatcher: both leave the same
    frame output, and they return the same result exactly when a body that
    does not throw produces a value whose kind is in the typeset of the
    last parameter (the RETURN: local). *)
Theorem Returner_Unchecked_Dispatcher {B} (Do_At_Throws : B -> do_result) (f : returner_frame B) :
  fst (Returner_Dispatcher Do_At_Throws f) = fst (Unchecked_Dispatcher Do_At_Throws f) /\
  (snd (Returner_Dispatcher Do_At_Throws f) = snd (Unchecked_Dispatcher Do_At_Throws f) <->
   forall v, Do_At_Throws (f_body f) = Do_Normal v ->
     TYPE_CHECK (default 0%Z (last (func_params (f_phase f)))) (VAL_TYPE v) = true).
Proof.
  unfold Returner_Dispatcher, Unchecked_Dispatcher.
  destruct (Do_At_Throws (f_body f)) as [v|v].
  - destruct (TYPE_CHECK (default 0%Z (last (func_params (f_phase f)))) (VAL_TYPE v)) eqn:E; simpl.
    + split; [reflexivity|]. split; [intros _ v' H; injection H as <-; exact E|reflexivity].
    + split; [reflexivity|]. split; [discriminate|]. intros H. rewrite (H v eq_refl) in E. discriminate.
  - simpl. split; [reflexivity|]. split; [intros _ v' H; discriminate|reflexivity].
Qed.

End DispatchExtraFacts.
